(** * Models of juju's dependency-engine wiring, migration precheck shim,
    environment bootstrap and storage list formatter, with their proofs.

    Go values that are only passed around (workers, API callers,
    constraints, version numbers) are type parameters; Go errors are the
    inductive [GoError]; a Go [(T, error)] result is a pair whose error
    component is [None] for [nil]. *)

From stdpp Require Import base gmap sets list strings.

(** ** Go errors *)

Inductive GoError :=
| ErrMsg (msg : string)          (** errors.New / fmt.Errorf / errors.Errorf *)
| ErrTrace (e : GoError).        (** errors.Trace(e) *)

(** [err.Error()]: [errors.Trace] keeps the message of the error it wraps. *)
Fixpoint Error (e : GoError) : string :=
  match e with
  | ErrMsg msg => msg
  | ErrTrace e => Error e
  end.

(** [errors.Annotate(err, msg)]: the message of [err] prefixed by [msg]. *)
Definition Annotate (e : GoError) (msg : string) : GoError :=
  ErrMsg (msg ++ ": " ++ Error e)%string.

(** ** worker/dependency and cmd/jujud/agent/engine: [ApiManifold] *)

Module dependency.

(** [dependency.Context] as seen by [ApiManifold]: [Get(name, &apiCaller)]
    with an [*base.APICaller] target either fails with an error or fills
    in the API caller. *)
Record Context (APICaller : Type) := {
  Get : string -> GoError + APICaller
}.
Arguments Get {APICaller} _ _.

(** [dependency.Manifold] with the fields [ApiManifold] sets. *)
Record Manifold (Ctx Worker : Type) := {
  Inputs : list string;
  Start : Ctx -> option Worker * option GoError
}.
Arguments Inputs {Ctx Worker} _.
Arguments Start {Ctx Worker} _ _.

End dependency.

Record ApiManifoldConfig := { APICallerName : string }.

(** [type ApiStartFunc func(base.APICaller) (worker.Worker, error)] *)
Definition ApiStartFunc (APICaller Worker : Type) : Type :=
  APICaller -> option Worker * option GoError.

(** src/unnamed/part_002, lines 150-163. *)
Definition ApiManifold {APICaller Worker : Type}
    (config : ApiManifoldConfig) (start : ApiStartFunc APICaller Worker)
    : dependency.Manifold (dependency.Context APICaller) Worker :=
  {| dependency.Inputs := [APICallerName config];
     dependency.Start := fun context =>
       match dependency.Get context (APICallerName config) with
       | inl err => (None, Some err)
       | inr apiCaller => start apiCaller
       end |}.

(** ** migration: [precheckShim.AgentVersion] *)

Module migration.

(** Attribute values of [Config.defined] (a [map[string]interface{}]):
    only whether a value is a Go string matters to [AgentVersion]. *)
Inductive Attr :=
| AString (s : string)
| AOther.

(** [environs/config.Config], its [defined] attributes. *)
Record Config := { defined : gmap string Attr }.

Definition AgentVersionKey : string := "agent-version".

(** A call that either returns a value or panics. *)
Inductive Outcome (A : Type) :=
| Returns (a : A)
| Panics.
Arguments Returns {A} _.
Arguments Panics {A}.

Section WithVersion.
(** [version.Number], [version.Zero] and [version.Parse] come from the
    external [github.com/juju/version] package. *)
Context {Number : Type} (Zero : Number) (Parse : string -> option Number).

(** environs/config/config.go, lines 690-699. *)
Definition AgentVersion (c : Config) : Outcome (Number * bool) :=
  match defined c !! AgentVersionKey with
  | Some (AString v) =>
      match Parse v with
      | Some n => Returns (n, true)
      | None => Panics            (* panic(err) *)
      end
  | _ => Returns (Zero, false)
  end.

(** The check [Validate] makes on the agent version (config.go, lines
    421-425); every [Config] built by [config.New] has passed it. *)
Definition agent_version_valid (c : Config) : Prop :=
  forall v, defined c !! AgentVersionKey = Some (AString v) -> is_Some (Parse v).

(** The [*state.State] behind the shim: what [ModelConfig()] returns. *)
Record State := { ModelConfig : Config * option GoError }.

(** src/unnamed/part_000, lines 25-35. *)
Definition precheckShim_AgentVersion (s : State) : Outcome (Number * option GoError) :=
  let '(cfg, err) := ModelConfig s in
  match err with
  | Some e => Returns (Zero, Some (ErrTrace e))
  | None =>
      match AgentVersion cfg with
      | Panics => Panics
      | Returns (vers, ok) =>
          if ok then Returns (vers, None)
          else Returns (Zero, Some (ErrMsg "no model agent version"))
      end
  end.
End WithVersion.


(** src/unnamed/part_000, lines 38-48: [precheckShim.AllMachines], given
    what [State.AllMachines()] returns; [asPrecheck] is the conversion of
    a [*state.Machine] to the [PrecheckMachine] interface. *)
Definition AllMachines {Machine PrecheckMachine : Type}
    (asPrecheck : Machine -> PrecheckMachine)
    (allMachines : list Machine * option GoError)
    : option (list PrecheckMachine) * option GoError :=
  let '(machines, err) := allMachines in
  match err with
  | Some e => (None, Some (ErrTrace e))
  | None =>
      let out := fold_left (fun out machine => app out [asPrecheck machine]) machines [] in
      (Some out, None)
  end.

End migration.

(** ** environs/bootstrap: [Bootstrap] *)

Module bootstrap.

(** The values the environment's [*config.Config] accessors return. *)
Record EnvConfig := {
  AdminSecret : string;
  AuthorizedKeys : string;
  CACert : string * bool;
  CAPrivateKey : string * bool
}.

(** An [environs.Environ], by what [Bootstrap] asks of it: its config,
    the result of [environs.VerifyStorage(environ.Storage())], and the
    result of [environ.Bootstrap(cons)]. *)
Record Environ (Cons : Type) := {
  EnvironConfig : EnvConfig;
  VerifyStorageResult : option GoError;
  EnvironBootstrap : Cons -> option GoError
}.
Arguments EnvironConfig {Cons} _.
Arguments VerifyStorageResult {Cons} _.
Arguments EnvironBootstrap {Cons} _ _.

(** Calls [Bootstrap] makes on the environment, in order. *)
Inductive Call (Cons : Type) :=
| CallVerifyStorage
| CallBootstrap (cons : Cons).
Arguments CallVerifyStorage {Cons}.
Arguments CallBootstrap {Cons} _.

(** src/environs/bootstrap/bootstrap.go, lines 25-50: the returned error
    and the calls made on [environ]. *)
Definition Bootstrap {Cons : Type} (environ : Environ Cons) (cons : Cons)
    : option GoError * list (Call Cons) :=
  let cfg := EnvironConfig environ in
  if String.eqb (AdminSecret cfg) EmptyString then
    (Some (ErrMsg "environment configuration has no admin-secret"), [])
  else if String.eqb (AuthorizedKeys cfg) EmptyString then
    (Some (ErrMsg "environment configuration has no authorized-keys"), [])
  else if negb (snd (CACert cfg)) then
    (Some (ErrMsg "environment configuration has no ca-cert"), [])
  else if negb (snd (CAPrivateKey cfg)) then
    (Some (ErrMsg "environment configuration has no ca-private-key"), [])
  else
    match VerifyStorageResult environ with
    | Some err => (Some err, [CallVerifyStorage])
    | None => (EnvironBootstrap environ cons, [CallVerifyStorage; CallBootstrap cons])
    end.


(** The environment as [SelectBootstrapTools] uses it: its current
    configuration and the result of [SetConfig] on a new one. *)
Record ToolsEnviron (Cfg : Type) := {
  ToolsEnvironConfig : Cfg;
  SetConfig : Cfg -> option GoError
}.
Arguments ToolsEnvironConfig {Cfg} _.
Arguments SetConfig {Cfg} _ _.

Section SelectTools.
(** [coretools.List.Newest], the [version.Number] comparison and
    [String], and the [AgentVersion] and [Apply] methods of the
    environment's [*config.Config] are parameters. *)
Context {Tools Number Cfg : Type}
        (Newest : list Tools -> Number * list Tools)
        (Number_eqb : Number -> Number -> bool)
        (Number_String : Number -> string)
        (CfgAgentVersion : Cfg -> migration.Outcome (Number * bool))
        (Apply : Cfg -> list (string * string) -> GoError + Cfg).

Definition updateFailed (err : GoError) : GoError :=
  ErrMsg ("failed to update environment configuration: " ++ Error err)%string.

(** src/environs/bootstrap/bootstrap.go, lines 54-75: the returned tools
    list and error, and the configurations passed to [SetConfig]. *)
Definition SelectBootstrapTools (environ : ToolsEnviron Cfg) (toolsList : list Tools)
    : migration.Outcome ((option (list Tools) * option GoError) * list Cfg) :=
  match toolsList with
  | [] => migration.Returns ((None, Some (ErrMsg "no bootstrap tools available")), [])
  | _ :: _ =>
      let '(newVersion, toolsList) := Newest toolsList in
      let cfg := ToolsEnvironConfig environ in
      match CfgAgentVersion cfg with
      | migration.Panics => migration.Panics
      | migration.Returns (agentVersion, _) =>
          if Number_eqb agentVersion newVersion then
            migration.Returns ((Some toolsList, None), [])
          else
            match Apply cfg [("agent-version"%string, Number_String newVersion)] with
            | inl err => migration.Returns ((None, Some (updateFailed err)), [])
            | inr cfg =>
                match SetConfig environ cfg with
                | Some err => migration.Returns ((None, Some (updateFailed err)), [cfg])
                | None => migration.Returns ((Some toolsList, None), [cfg])
                end
            end
      end
  end.
End SelectTools.

(** [state.AddMachineParams], with the fields [ConfigureBootstrapMachine]
    sets. *)
Record AddMachineParams (Cons Job InstId HW : Type) := {
  Series : string;
  Nonce : string;
  Constraints : Cons;
  InstanceId : InstId;
  HardwareCharacteristics : HW;
  Jobs : list Job
}.
Arguments Series {Cons Job InstId HW} _.
Arguments Nonce {Cons Job InstId HW} _.
Arguments Constraints {Cons Job InstId HW} _.
Arguments InstanceId {Cons Job InstId HW} _.
Arguments HardwareCharacteristics {Cons Job InstId HW} _.
Arguments Jobs {Cons Job InstId HW} _.

Section ConfigureMachine.
(** The methods of [*state.State], [*state.Machine] and [agent.Config]
    that [ConfigureBootstrapMachine] calls, by their results, and the
    constants [version.Current.Series] and [state.BootstrapNonce]. *)
Context {Cons Job InstId HW Machine Tag Conf : Type}
        (CurrentSeries BootstrapNonce : string)
        (SetEnvironConstraints : Cons -> option GoError)
        (InjectMachine : AddMachineParams Cons Job InstId HW -> GoError + Machine)
        (MachineTag : Machine -> Tag)
        (ReadConf : string -> Tag -> GoError + Conf)
        (GenerateNewPassword : Conf -> GoError + string)
        (SetMongoPassword : Machine -> string -> option GoError)
        (SetPassword : Machine -> string -> option GoError).

(** The calls [ConfigureBootstrapMachine] makes, in order. *)
Inductive StateCall :=
| CallSetEnvironConstraints (cons : Cons)
| CallInjectMachine (params : AddMachineParams Cons Job InstId HW)
| CallReadConf (datadir : string) (tag : Tag)
| CallGenerateNewPassword (conf : Conf)
| CallSetMongoPassword (m : Machine) (password : string)
| CallSetPassword (m : Machine) (password : string).

(** src/environs/bootstrap/bootstrap.go, lines 80-122: the returned error
    and the calls made. *)
Definition ConfigureBootstrapMachine (cons : Cons) (datadir : string) (jobs : list Job)
    (instId : InstId) (characteristics : HW) : option GoError * list StateCall :=
  match SetEnvironConstraints cons with
  | Some err => (Some err, [CallSetEnvironConstraints cons])
  | None =>
      let params := {| Series := CurrentSeries; Nonce := BootstrapNonce;
                       Constraints := cons; InstanceId := instId;
                       HardwareCharacteristics := characteristics; Jobs := jobs |} in
      let calls := [CallSetEnvironConstraints cons; CallInjectMachine params] in
      match InjectMachine params with
      | inl err => (Some err, calls)
      | inr m =>
          let calls := app calls [CallReadConf datadir (MachineTag m)] in
          match ReadConf datadir (MachineTag m) with
          | inl err => (Some err, calls)
          | inr mconf =>
              let calls := app calls [CallGenerateNewPassword mconf] in
              match GenerateNewPassword mconf with
              | inl err => (Some err, calls)
              | inr newPassword =>
                  let calls := app calls [CallSetMongoPassword m newPassword] in
                  match SetMongoPassword m newPassword with
                  | Some err => (Some err, calls)
                  | None => (SetPassword m newPassword, app calls [CallSetPassword m newPassword])
                  end
              end
          end
      end
  end.
End ConfigureMachine.

End bootstrap.

(** ** cmd/juju/storage: [formatFilesystemListTabular] *)

Module storage.

(** Dynamic types a Go [interface{}] value can carry here. *)
Inductive OtherType :=
| TMapStringVolumeInfo          (** map[string]VolumeInfo *)
| TString
| TNamed (name : string).       (** any other named type *)

Inductive GoType :=
| TMapStringFilesystemInfo      (** map[string]FilesystemInfo *)
| TOther (t : OtherType).

Section WithInfo.
(** [FilesystemInfo] and the typed formatter
    [formatFilesystemListTabularTyped] (lines 27-80), which writes the
    table for a well-typed map, are parameters: only the type dispatch
    of the untyped entry point is modelled. *)
Context {FilesystemInfo : Type}
        (formatTyped : list (string * FilesystemInfo) -> list string).

(** An [interface{}] value: [nil], or a dynamic type with a payload. *)
Inductive Value :=
| VNil
| VFilesystemInfos (infos : list (string * FilesystemInfo))
| VOther (t : OtherType).

Definition dynamic_type (v : Value) : option GoType :=
  match v with
  | VNil => None
  | VFilesystemInfos _ => Some TMapStringFilesystemInfo
  | VOther t => Some (TOther t)
  end.

(** src/unnamed/part_002, lines 18-25: the returned error and the lines
    written to [writer]. *)
Definition formatFilesystemListTabular (value : Value) : option GoError * list string :=
  match value with
  | VFilesystemInfos infos => (None, formatTyped infos)
  | _ => (Some (ErrMsg "expected value of type map[string]storage.FilesystemInfo"), [])
  end.
End WithInfo.


(** *** The typed formatter [formatFilesystemListTabularTyped] *)

Local Open Scope string_scope.

(** The storage types of cmd/juju/storage with the fields the formatter
    reads. [UnitStorageAttachment.MachineId] is [UnitMachineId] here, apart
    from [filesystemAttachmentInfo]'s own [MachineId]. *)
Record EntityStatus := { Current : string; Message : string }.

Record MachineFilesystemAttachment := { MountPoint : string }.

Record UnitStorageAttachment := { UnitMachineId : string }.

(** [FilesystemAttachments]: its two Go maps as their entries, in the order
    a [range] visits them. *)
Record FilesystemAttachments := {
  Machines : list (string * MachineFilesystemAttachment);
  Units : list (string * UnitStorageAttachment)
}.

Record FilesystemInfo := {
  ProviderFilesystemId : string;
  Volume : string;
  Storage : string;
  Attachments : option FilesystemAttachments;   (** [None] is a nil pointer *)
  Size : N;                                     (** [uint64], in MiB *)
  Status : EntityStatus
}.

(** [filesystemAttachmentInfo] (lines 81-90); the embedded structs are the
    [attachment_*] fields. *)
Record filesystemAttachmentInfo := {
  FilesystemId : string;
  attachment_FilesystemInfo : FilesystemInfo;
  MachineId : string;
  attachment_MachineFilesystemAttachment : MachineFilesystemAttachment;
  UnitId : string;
  attachment_UnitStorageAttachment : UnitStorageAttachment
}.

Definition zeroMachineFilesystemAttachment : MachineFilesystemAttachment :=
  {| MountPoint := EmptyString |}.

Definition zeroUnitStorageAttachment : UnitStorageAttachment :=
  {| UnitMachineId := EmptyString |}.

(** The rows one [(filesystemId, info)] entry contributes (lines 37-62):
    one row when [info.Attachments] is nil, else one row per machine
    attachment, with the first unit attachment on that machine. *)
Definition filesystemRows (filesystemId : string) (info : FilesystemInfo)
    : list filesystemAttachmentInfo :=
  match Attachments info with
  | None =>
      [{| FilesystemId := filesystemId; attachment_FilesystemInfo := info;
          MachineId := EmptyString;
          attachment_MachineFilesystemAttachment := zeroMachineFilesystemAttachment;
          UnitId := EmptyString;
          attachment_UnitStorageAttachment := zeroUnitStorageAttachment |}]
  | Some attachments =>
      List.map (fun '(machineId, machineInfo) =>
        match List.find (fun '(_, unitInfo) => String.eqb (UnitMachineId unitInfo) machineId)
                        (Units attachments) with
        | Some (unitId, unitInfo) =>
            {| FilesystemId := filesystemId; attachment_FilesystemInfo := info;
               MachineId := machineId;
               attachment_MachineFilesystemAttachment := machineInfo;
               UnitId := unitId; attachment_UnitStorageAttachment := unitInfo |}
        | None =>
            {| FilesystemId := filesystemId; attachment_FilesystemInfo := info;
               MachineId := machineId;
               attachment_MachineFilesystemAttachment := machineInfo;
               UnitId := EmptyString;
               attachment_UnitStorageAttachment := zeroUnitStorageAttachment |}
        end) (Machines attachments)
  end.

(** The slice [filesystemAttachmentInfos] before sorting (lines 36-63). *)
Definition collectRows (infos : list (string * FilesystemInfo)) : list filesystemAttachmentInfo :=
  List.flat_map (fun '(filesystemId, info) => filesystemRows filesystemId info) infos.

(** [humanize.MiByte] *)
Definition MiByte : N := 1048576.

Definition tab : string := String (Ascii.ascii_of_nat 9) EmptyString.

(** [print]: the line handed to the tab writer. *)
Definition print (values : list string) : string := String.concat tab values.

Section Typed.
(** [humanize.IBytes] and [sort.Sort] (whose [Less] calls helpers of
    another file) are parameters. *)
Context (IBytes : N -> string)
        (sortRows : list filesystemAttachmentInfo -> list filesystemAttachmentInfo).

(** The SIZE column (lines 67-70): [info.Size * humanize.MiByte] is a
    [uint64] product. *)
Definition sizeColumn (size : N) : string :=
  if (0 <? size)%N then IBytes ((size * MiByte) mod 2 ^ 64)%N else EmptyString.

Definition rowLine (info : filesystemAttachmentInfo) : string :=
  let fs := attachment_FilesystemInfo info in
  print [MachineId info; UnitId info; Storage fs;
         FilesystemId info; Volume fs; ProviderFilesystemId fs;
         MountPoint (attachment_MachineFilesystemAttachment info); sizeColumn (Size fs);
         Current (Status fs); Message (Status fs)].

(** src/unnamed/part_002, lines 27-79: the lines written to the tab writer. *)
Definition formatFilesystemListTabularTyped (infos : list (string * FilesystemInfo)) : list string :=
  print ["MACHINE"; "UNIT"; "STORAGE"; "ID"; "VOLUME"; "PROVIDER-ID"; "MOUNTPOINT"; "SIZE"; "STATE"; "MESSAGE"]
  :: List.map rowLine (sortRows (collectRows infos)).
End Typed.

End storage.

(** ** environs/config: [Config] and its accessors *)

Module config.

Local Open Scope string_scope.

Local Notation Outcome := migration.Outcome.
Local Notation Returns := migration.Returns.
Local Notation Panics := migration.Panics.

(** The dynamic value held by an attribute of a [map[string]interface{}]. *)
Inductive Value :=
| VNil                                          (** an untyped nil *)
| VBool (b : bool)
| VInt (n : Z)
| VString (s : string)
| VList (l : list Value)                        (** [[]interface{}] *)
| VStringMap (m : option (gmap string string))  (** [map[string]string]; [None] is a nil map *)
| VOther (t : string) (repr : string).          (** a comparable value of another type [t] *)

(** src/environs/config/config.go, lines 216-222. *)
Record Config := {
  defined : gmap string Value;
  unknown : gmap string Value
}.

(** Attribute keys (lines 30-137). *)
Definition NameKey : string := "name".
Definition TypeKey : string := "type".
Definition AgentVersionKey : string := "agent-version".
Definition UUIDKey : string := "uuid".
Definition AuthorizedKeysKey : string := "authorized-keys".
Definition ProvisionerHarvestModeKey : string := "provisioner-harvest-mode".
Definition AgentStreamKey : string := "agent-stream".
Definition AgentMetadataURLKey : string := "agent-metadata-url".
Definition HttpProxyKey : string := "http-proxy".
Definition HttpsProxyKey : string := "https-proxy".
Definition FtpProxyKey : string := "ftp-proxy".
Definition AptHttpProxyKey : string := "apt-http-proxy".
Definition AptHttpsProxyKey : string := "apt-https-proxy".
Definition AptFtpProxyKey : string := "apt-ftp-proxy".
Definition NoProxyKey : string := "no-proxy".
Definition StorageDefaultBlockSourceKey : string := "storage-default-block-source".
Definition ResourceTagsKey : string := "resource-tags".
Definition LogForwardEnabled : string := "logforward-enabled".
Definition LogFwdSyslogHost : string := "syslog-host".
Definition LogFwdSyslogCACert : string := "syslog-ca-cert".
Definition LogFwdSyslogClientCert : string := "syslog-client-cert".
Definition LogFwdSyslogClientKey : string := "syslog-client-key".
Definition AutomaticallyRetryHooks : string := "automatically-retry-hooks".
Definition IgnoreMachineAddresses : string := "ignore-machine-addresses".

(** *** Harvest modes (lines 138-200) *)

(** [HarvestMode] is a [uint32] bit field. *)
Definition HarvestMode := N.

Definition HarvestNone : HarvestMode := 1%N.
Definition HarvestUnknown : HarvestMode := 2%N.
Definition HarvestDestroyed : HarvestMode := 4%N.
Definition HarvestAll : HarvestMode := N.lor HarvestUnknown HarvestDestroyed.

(** [harvestingMethodToFlag]; its keys and its descriptions are distinct,
    so the order a [range] visits them in does not matter. *)
Definition harvestingMethodToFlag : list (HarvestMode * string) :=
  [(HarvestAll, "all"); (HarvestNone, "none");
   (HarvestUnknown, "unknown"); (HarvestDestroyed, "destroyed")].

(** [HarvestMode.String] (lines 180-185). *)
Definition HarvestMode_String (method : HarvestMode) : Outcome string :=
  match List.find (fun p => N.eqb (fst p) method) harvestingMethodToFlag with
  | Some (_, description) => Returns description
  | None => Panics
  end.

(** The methods [HarvestNone], [HarvestDestroyed] and [HarvestUnknown]
    (lines 188-200). *)
Definition HarvestMode_HarvestNone (method : HarvestMode) : bool :=
  negb (N.eqb (N.land method HarvestNone) 0).

Definition HarvestMode_HarvestDestroyed (method : HarvestMode) : bool :=
  negb (N.eqb (N.land method HarvestDestroyed) 0).

Definition HarvestMode_HarvestUnknown (method : HarvestMode) : bool :=
  negb (N.eqb (N.land method HarvestUnknown) 0).

Section Lower.
(** [strings.ToLower] (a Unicode case mapping) is a parameter. *)
Context (ToLower : string -> string).

(** [ParseHarvestMode] (lines 140-150). *)
Definition ParseHarvestMode (description : string) : HarvestMode * option GoError :=
  let description := ToLower description in
  match List.find (fun p => String.eqb description (snd p)) harvestingMethodToFlag with
  | Some (method, _) => (method, None)
  | None => (0%N, Some (ErrMsg ("unknown harvesting method: " ++ description)))
  end.

(** [Config.ProvisionerHarvestMode] (lines 768-782). *)
Definition ProvisionerHarvestMode (c : Config) : Outcome HarvestMode :=
  match defined c !! ProvisionerHarvestModeKey with
  | Some (VString v) =>
      match ParseHarvestMode v with
      | (_, Some _) => Panics
      | (method, None) => Returns method
      end
  | _ => Returns HarvestDestroyed
  end.
End Lower.

(** *** Plain accessors *)

(** [asString] (lines 495-498): [value, _ := c.defined[name].(string)]. *)
Definition asString (c : Config) (name : string) : string :=
  match defined c !! name with
  | Some (VString value) => value
  | _ => EmptyString
  end.

(** [mustString] (lines 502-509). *)
Definition mustString (c : Config) (name : string) : Outcome string :=
  let value := asString c name in
  if String.eqb value EmptyString then Panics else Returns value.

(** [Type], [Name], [UUID] (lines 522-535) and [FirewallMode] (line 683). *)
Definition Type_ (c : Config) : Outcome string := mustString c TypeKey.
Definition Name (c : Config) : Outcome string := mustString c NameKey.
Definition UUID (c : Config) : Outcome string := mustString c UUIDKey.
Definition FirewallMode (c : Config) : Outcome string := mustString c "firewall-mode".

(** [DefaultSeries] (lines 538-550). *)
Definition DefaultSeries (c : Config) : string * bool :=
  match defined c !! "default-series" with
  | None => (EmptyString, false)
  | Some (VString s) => (s, negb (String.eqb s EmptyString))
  | Some _ => (EmptyString, false)             (* logged as invalid *)
  end.

(** [PreferredSeries] (lines 208-213) on a [*Config];
    [series.LatestLts()] is the parameter [LatestLts]. *)
Definition PreferredSeries (LatestLts : string) (cfg : Config) : string :=
  let '(series, ok) := DefaultSeries cfg in
  if ok then series else LatestLts.

(** [ImageStream] and [AgentStream] (lines 785-805). *)
Definition ImageStream (c : Config) : string :=
  let v := asString c "image-stream" in
  if negb (String.eqb v EmptyString) then v else "released".

Definition AgentStream (c : Config) : string :=
  let v := asString c AgentStreamKey in
  if negb (String.eqb v EmptyString) then v else "released".

(** *** Proxy settings (lines 567-642, 1042-1068) *)

Module proxy.
(** [proxy.Settings] of github.com/juju/utils/proxy. *)
Record Settings := {
  Http : string;
  Https : string;
  Ftp : string;
  NoProxy : string
}.
End proxy.

Definition HttpProxy (c : Config) : string := asString c HttpProxyKey.
Definition HttpsProxy (c : Config) : string := asString c HttpsProxyKey.
Definition FtpProxy (c : Config) : string := asString c FtpProxyKey.
Definition NoProxy (c : Config) : string := asString c NoProxyKey.

Definition ProxySettings (c : Config) : proxy.Settings :=
  {| proxy.Http := HttpProxy c; proxy.Https := HttpsProxy c;
     proxy.Ftp := FtpProxy c; proxy.NoProxy := NoProxy c |}.

Definition getWithFallback (c : Config) (key fallback : string) : string :=
  let value := asString c key in
  if String.eqb value EmptyString then asString c fallback else value.

(** [strings.Contains], on the bytes of the strings. *)
Fixpoint Contains (s substr : string) : bool :=
  String.prefix substr s ||
  match s with
  | EmptyString => false
  | String _ s' => Contains s' substr
  end.

Definition addSchemeIfMissing (defaultScheme url : string) : string :=
  if negb (String.eqb url EmptyString) && negb (Contains url "://")
  then defaultScheme ++ "://" ++ url
  else url.

Definition AptHttpProxy (c : Config) : string :=
  addSchemeIfMissing "http" (getWithFallback c AptHttpProxyKey HttpProxyKey).
Definition AptHttpsProxy (c : Config) : string :=
  addSchemeIfMissing "https" (getWithFallback c AptHttpsProxyKey HttpsProxyKey).
Definition AptFtpProxy (c : Config) : string :=
  addSchemeIfMissing "ftp" (getWithFallback c AptFtpProxyKey FtpProxyKey).

Definition AptProxySettings (c : Config) : proxy.Settings :=
  {| proxy.Http := AptHttpProxy c; proxy.Https := AptHttpsProxy c;
     proxy.Ftp := AptFtpProxy c; proxy.NoProxy := EmptyString |}.

(** [addIfNotEmpty] updates [settings] in place; here it returns it. *)
Definition addIfNotEmpty (settings : gmap string Value) (key value : string) : gmap string Value :=
  if negb (String.eqb value EmptyString) then <[key := VString value]> settings else settings.

Definition ProxyConfigMap (proxySettings : proxy.Settings) : gmap string Value :=
  let settings := ∅ in
  let settings := addIfNotEmpty settings HttpProxyKey (proxy.Http proxySettings) in
  let settings := addIfNotEmpty settings HttpsProxyKey (proxy.Https proxySettings) in
  let settings := addIfNotEmpty settings FtpProxyKey (proxy.Ftp proxySettings) in
  let settings := addIfNotEmpty settings NoProxyKey (proxy.NoProxy proxySettings) in
  settings.

Definition AptProxyConfigMap (proxySettings : proxy.Settings) : gmap string Value :=
  let settings := ∅ in
  let settings := addIfNotEmpty settings AptHttpProxyKey (proxy.Http proxySettings) in
  let settings := addIfNotEmpty settings AptHttpsProxyKey (proxy.Https proxySettings) in
  let settings := addIfNotEmpty settings AptFtpProxyKey (proxy.Ftp proxySettings) in
  settings.

(** *** Syslog forwarding (lines 645-680) *)

Module syslog.
(** [syslog.RawConfig] of logfwd/syslog, with the fields [LogFwdSyslog]
    sets. *)
Record RawConfig := {
  Enabled : bool;
  Host : string;
  CACert : string;
  ClientCert : string;
  ClientKey : string
}.
End syslog.

Definition zeroRawConfig : syslog.RawConfig :=
  {| syslog.Enabled := false; syslog.Host := EmptyString; syslog.CACert := EmptyString;
     syslog.ClientCert := EmptyString; syslog.ClientKey := EmptyString |}.

Definition set_Enabled (b : bool) (r : syslog.RawConfig) : syslog.RawConfig :=
  {| syslog.Enabled := b; syslog.Host := syslog.Host r; syslog.CACert := syslog.CACert r;
     syslog.ClientCert := syslog.ClientCert r; syslog.ClientKey := syslog.ClientKey r |}.
Definition set_Host (s : string) (r : syslog.RawConfig) : syslog.RawConfig :=
  {| syslog.Enabled := syslog.Enabled r; syslog.Host := s; syslog.CACert := syslog.CACert r;
     syslog.ClientCert := syslog.ClientCert r; syslog.ClientKey := syslog.ClientKey r |}.
Definition set_CACert (s : string) (r : syslog.RawConfig) : syslog.RawConfig :=
  {| syslog.Enabled := syslog.Enabled r; syslog.Host := syslog.Host r; syslog.CACert := s;
     syslog.ClientCert := syslog.ClientCert r; syslog.ClientKey := syslog.ClientKey r |}.
Definition set_ClientCert (s : string) (r : syslog.RawConfig) : syslog.RawConfig :=
  {| syslog.Enabled := syslog.Enabled r; syslog.Host := syslog.Host r; syslog.CACert := syslog.CACert r;
     syslog.ClientCert := s; syslog.ClientKey := syslog.ClientKey r |}.
Definition set_ClientKey (s : string) (r : syslog.RawConfig) : syslog.RawConfig :=
  {| syslog.Enabled := syslog.Enabled r; syslog.Host := syslog.Host r; syslog.CACert := syslog.CACert r;
     syslog.ClientCert := syslog.ClientCert r; syslog.ClientKey := s |}.

(** One [if s, ok := c.defined[key]; ok && s != ""] step: the comparison
    holds for every value but the string [""], and [s.(string)] panics on
    a value that is not a string. *)
Definition syslogField (c : Config) (key : string)
    (set : string -> syslog.RawConfig -> syslog.RawConfig)
    (st : Outcome (bool * syslog.RawConfig)) : Outcome (bool * syslog.RawConfig) :=
  match st with
  | Panics => Panics
  | Returns (partial, lfCfg) =>
      match defined c !! key with
      | None => Returns (partial, lfCfg)
      | Some (VString s) =>
          if String.eqb s EmptyString then Returns (partial, lfCfg)
          else Returns (true, set s lfCfg)
      | Some _ => Panics
      end
  end.

Definition LogFwdSyslog (c : Config) : Outcome (option syslog.RawConfig) :=
  let st := match defined c !! LogForwardEnabled with
            | None => Returns (false, zeroRawConfig)
            | Some (VBool b) => Returns (true, set_Enabled b zeroRawConfig)
            | Some _ => Panics                      (* s.(bool) *)
            end in
  let st := syslogField c LogFwdSyslogHost set_Host st in
  let st := syslogField c LogFwdSyslogCACert set_CACert st in
  let st := syslogField c LogFwdSyslogClientCert set_ClientCert st in
  let st := syslogField c LogFwdSyslogClientKey set_ClientKey st in
  match st with
  | Panics => Panics
  | Returns (partial, lfCfg) => Returns (if partial then Some lfCfg else None)
  end.

(** *** Resource tags (lines 837-860); [tags.JujuTagPrefix] is a parameter *)

Definition resourceTags (JujuTagPrefix : string) (c : Config)
    : option (gmap string string) * option GoError :=
  match defined c !! ResourceTagsKey with
  | Some (VStringMap (Some v)) =>
      match List.find (fun k => String.prefix JujuTagPrefix k) (List.map fst (map_to_list v)) with
      | Some k => (None, Some (ErrMsg ("tag " ++ k ++ " uses reserved prefix " ++ JujuTagPrefix)))
      | None => (Some v, None)
      end
  | Some (VStringMap None) => (None, None)      (* a nil map: no key to check *)
  | _ => (None, None)
  end.

Definition ResourceTags (JujuTagPrefix : string) (c : Config)
    : Outcome (option (gmap string string) * bool) :=
  match resourceTags JujuTagPrefix c with
  | (_, Some _) => Panics
  | (tags, None) => Returns (tags, bool_decide (is_Some tags))
  end.

(** *** Attribute maps (lines 358-375, 862-896) *)

Definition UnknownAttrs (c : Config) : gmap string Value :=
  fold_left (fun newAttrs '(k, v) => <[k := v]> newAttrs) (map_to_list (unknown c)) ∅.

Definition AllAttrs (c : Config) : gmap string Value :=
  fold_left (fun allAttrs '(k, v) => <[k := v]> allAttrs) (map_to_list (defined c)) (UnknownAttrs c).

Inductive Defaulting := UseDefaults | NoDefaults.

Section New.
(** [config.New] (lines 247-274) runs the external schema coercion; it
    is a parameter with any result type. *)
Context {R : Type} (New : Defaulting -> gmap string Value -> R).

Definition Remove (c : Config) (attrs : list string) : R :=
  let defined := fold_left (fun defined k => delete k defined) attrs (AllAttrs c) in
  New NoDefaults defined.

Definition Apply (c : Config) (attrs : gmap string Value) : R :=
  let defined := fold_left (fun defined '(k, v) => <[k := v]> defined) (map_to_list attrs) (AllAttrs c) in
  New NoDefaults defined.
End New.

(** [CoerceForStorage]; [fmt.Sprintf("%v=%v", k, v)] on two strings is
    [k ++ "=" ++ v]. *)
Definition CoerceForStorage (attrs : gmap string Value) : gmap string Value :=
  fold_left (fun coercedAttrs '(attrName, attrValue) =>
    let attrValue :=
      if String.eqb attrName ResourceTagsKey then
        match attrValue with
        | VStringMap tags =>
            let tagsSlice :=
              List.map (fun '(resKey, resValue) => resKey ++ "=" ++ resValue)
                       (match tags with Some m => map_to_list m | None => [] end) in
            VString (String.concat " " tagsSlice)
        | _ => attrValue
        end
      else attrValue in
    <[attrName := attrValue]> coercedAttrs) (map_to_list attrs) ∅.

(** *** [Validate] (lines 399-492, 918-992) *)

Definition isEmpty (val : Value) : Outcome bool :=
  match val with
  | VNil => Returns true
  | VBool _ => Returns false
  | VInt n => Returns (Z.eqb n 0)
  | VString s => Returns (String.eqb s EmptyString)
  | VList l => Returns (Nat.eqb (length l) 0)
  | VStringMap None => Returns true
  | VStringMap (Some m) => Returns (Nat.eqb (size m) 0)
  | VOther _ _ => Panics            (* unexpected type in configuration *)
  end.

(** [schema.Omit], the only value [alwaysOptional] holds. *)
Inductive DefaultValue := Omit.

Definition alwaysOptional : gmap string DefaultValue :=
  list_to_map (List.map (fun k => (k, Omit))
    [AgentVersionKey; AuthorizedKeysKey;
     LogForwardEnabled; LogFwdSyslogHost; LogFwdSyslogCACert;
     LogFwdSyslogClientCert; LogFwdSyslogClientKey;
     StorageDefaultBlockSourceKey;
     "firewall-mode"; "logging-config"; ProvisionerHarvestModeKey;
     HttpProxyKey; HttpsProxyKey; FtpProxyKey; NoProxyKey;
     AptHttpProxyKey; AptHttpsProxyKey; AptFtpProxyKey; "apt-mirror";
     AgentStreamKey; ResourceTagsKey; "cloudimg-base-url";
     "enable-os-refresh-update"; "enable-os-upgrade"; "image-stream";
     "image-metadata-url"; AgentMetadataURLKey; "default-series";
     "development"; "ssl-hostname-verification"; "proxy-ssh";
     "disable-network-management"; IgnoreMachineAddresses;
     AutomaticallyRetryHooks; "test-mode"]).

(** [allowEmpty]: a missing entry reads as nil, which is neither [""]
    nor [schema.Omit]; no entry is [""]. *)
Definition allowEmpty (attr : string) : bool :=
  match alwaysOptional !! attr with
  | Some Omit => true
  | None => false
  end.

Definition immutableAttributes : list string :=
  [NameKey; TypeKey; UUIDKey; "firewall-mode"].

(** Go's [==] on two [interface{}] values: different dynamic types are
    unequal, and equal dynamic types that are not comparable (slices,
    maps) panic. *)
Definition iface_eq (a b : Value) : Outcome bool :=
  match a, b with
  | VNil, VNil => Returns true
  | VBool x, VBool y => Returns (Bool.eqb x y)
  | VInt x, VInt y => Returns (Z.eqb x y)
  | VString x, VString y => Returns (String.eqb x y)
  | VList _, VList _ => Panics
  | VStringMap _, VStringMap _ => Panics
  | VOther t x, VOther t' y => Returns (String.eqb t t' && String.eqb x y)
  | _, _ => Returns false
  end.

Section Validate.
(** [version.Zero], [version.Parse], [names.IsValidModelName],
    [loggo.ParseConfigString], [syslog.RawConfig.Validate],
    [utils.IsValidUUIDString] and [tags.JujuTagPrefix] are parameters. *)
Context {Number : Type} (Zero : Number) (ParseVersion : string -> option Number)
        (IsValidModelName : string -> bool)
        (ParseConfigString : string -> option GoError)
        (RawConfig_Validate : syslog.RawConfig -> option GoError)
        (IsValidUUIDString : string -> bool)
        (JujuTagPrefix : string).

(** [Config.AgentVersion] (lines 690-699). *)
Definition AgentVersion (c : Config) : Outcome (Number * bool) :=
  match defined c !! AgentVersionKey with
  | Some (VString v) =>
      match ParseVersion v with
      | Some n => Returns (n, true)
      | None => Panics
      end
  | _ => Returns (Zero, false)
  end.

(** The loop over [cfg.defined] (lines 402-409), in one order a [range]
    may take. *)
Fixpoint checkEmpty (attrs : list (string * Value)) : Outcome (option GoError) :=
  match attrs with
  | [] => Returns None
  | (attr, val) :: attrs =>
      match isEmpty val with
      | Panics => Panics
      | Returns false => checkEmpty attrs
      | Returns true =>
          if allowEmpty attr then checkEmpty attrs
          else Returns (Some (ErrMsg ("empty " ++ attr ++ " in model configuration")))
      end
  end.

(** The loop over [immutableAttributes] (lines 450-459). *)
Fixpoint checkImmutable (cfg old : Config) (attrs : list string) : Outcome (option GoError) :=
  match attrs with
  | [] => Returns None
  | attr :: attrs =>
      match defined old !! attr with
      | None => checkImmutable cfg old attrs
      | Some oldv =>
          let newv := default VNil (defined cfg !! attr) in
          match iface_eq newv oldv with
          | Panics => Panics
          | Returns true => checkImmutable cfg old attrs
          | Returns false => Returns (Some (ErrMsg ("cannot change " ++ attr)))
          end
      end
  end.

(** [Validate]; its last step replaces [cfg.defined] by a copy of it, which
    changes nothing. *)
Definition Validate (cfg : Config) (old : option Config) : Outcome (option GoError) :=
  match checkEmpty (map_to_list (defined cfg)) with
  | Panics => Panics
  | Returns (Some err) => Returns (Some err)
  | Returns None =>
  let modelName := asString cfg NameKey in
  if String.eqb modelName EmptyString then
    Returns (Some (ErrMsg "empty name in model configuration")) else
  if negb (IsValidModelName modelName) then
    Returns (Some (ErrMsg (modelName ++ " is not a valid name: model names may only contain lowercase letters, digits and hyphens"))) else
  match match defined cfg !! AgentVersionKey with
        | Some (VString v) =>
            match ParseVersion v with
            | None => Some (ErrMsg ("invalid agent version in model configuration: " ++ v))
            | Some _ => None
            end
        | _ => None
        end with
  | Some err => Returns (Some err)
  | None =>
  match match defined cfg !! "logging-config" with
        | Some (VString v) => ParseConfigString v
        | _ => None
        end with
  | Some err => Returns (Some err)
  | None =>
  match LogFwdSyslog cfg with
  | Panics => Panics
  | Returns lf =>
  match match lf with Some lfCfg => RawConfig_Validate lfCfg | None => None end with
  | Some err => Returns (Some (Annotate err "invalid syslog forwarding config"))
  | None =>
  match UUID cfg with
  | Panics => Panics
  | Returns uuid =>
  if negb (IsValidUUIDString uuid) then
    Returns (Some (ErrMsg ("uuid: expected UUID, got string(" ++ uuid ++ ")"))) else
  match snd (resourceTags JujuTagPrefix cfg) with
  | Some err => Returns (Some (Annotate err "validating resource tags"))
  | None =>
  match old with
  | None => Returns None
  | Some old =>
  match checkImmutable cfg old immutableAttributes with
  | Panics => Panics
  | Returns (Some err) => Returns (Some err)
  | Returns None =>
  match AgentVersion old with
  | Panics => Panics
  | Returns (_, false) => Returns None
  | Returns (_, true) =>
      match AgentVersion cfg with
      | Panics => Panics
      | Returns (_, true) => Returns None
      | Returns (_, false) => Returns (Some (ErrMsg "cannot clear agent-version"))
      end
  end end end end end end end end end end.
End Validate.

End config.

(** ** The dependency engine

    The engine of [worker/dependency] ([engine.go]: install, the
    resolution loop, worker bookkeeping, [Context.Get]) is not among the
    sources; only its caller [ApiManifold] is.  The definitions of this
    module are modelled from the spec (sections 3, 4 and 5): the engine is
    a serialized decision loop, each trigger is one [Event], and [step]
    performs one loop pass. *)

Module DepEngine.

(** Modelled from the spec: the node states of section 3. *)
Inductive NodeState := Stopped | Starting | Started | Stopping | Errored.

#[global] Instance NodeState_eq_dec : EqDecision NodeState.
Proof. solve_decision. Defined.

(** Modelled from the spec: the classes the optional [filter] assigns to
    a worker's completion error. *)
Inductive ErrClass := Fatal | Ignorable | Ordinary.

#[global] Instance ErrClass_eq_dec : EqDecision ErrClass.
Proof. solve_decision. Defined.

(** Modelled from the spec: published output values and the types a
    [Get] target may have ([TAny] is [interface{}]). *)
Inductive GoType := TInt | TString | TAPICaller | TAny.

#[global] Instance GoType_eq_dec : EqDecision GoType.
Proof. solve_decision. Defined.

Inductive Value :=
| VInt (n : Z)
| VString (s : string)
| VAPICaller (id : nat).

#[global] Instance Value_eq_dec : EqDecision Value.
Proof. solve_decision. Defined.

Definition type_of (v : Value) : GoType :=
  match v with VInt _ => TInt | VString _ => TString | VAPICaller _ => TAPICaller end.

(** Modelled from the spec: an output can be stored into a target of
    type [t] when [t] is its own type or [interface{}]. *)
Definition type_compatible (v : Value) (t : GoType) : bool :=
  bool_decide (t = TAny) || bool_decide (type_of v = t).

(** Modelled from the spec: a manifold (section 3) as the engine uses
    it: its inputs, its optional [filter], and its declared output
    equality ([None]: identity of the underlying worker). *)
Record Manifold := {
  m_inputs : list string;
  m_filter : option (GoError -> ErrClass);
  m_equal : option (Value -> Value -> bool)
}.

(** Modelled from the spec: a node (section 3).  [n_abort] is the
    context's cancellation signal raised while [start] is running;
    [n_remove] marks a node being uninstalled. *)
Record Node := {
  n_inputs : list string;
  n_state : NodeState;
  n_worker : option nat;
  n_output : option Value;
  n_abort : bool;
  n_remove : bool;
  n_lastError : option GoError
}.

Definition set_state (st : NodeState) (nd : Node) : Node :=
  {| n_inputs := n_inputs nd; n_state := st; n_worker := n_worker nd;
     n_output := n_output nd; n_abort := n_abort nd; n_remove := n_remove nd;
     n_lastError := n_lastError nd |}.

Definition set_abort (nd : Node) : Node :=
  {| n_inputs := n_inputs nd; n_state := n_state nd; n_worker := n_worker nd;
     n_output := n_output nd; n_abort := true; n_remove := n_remove nd;
     n_lastError := n_lastError nd |}.

(** Engine status: running, stopping all nodes with the error [Wait]
    will return, or terminated. *)
Inductive Status :=
| Running
| Dying (err : option GoError)
| Dead (err : option GoError).

(** Modelled from the spec: the engine.  [e_live] lists the worker
    instances that are alive, by id and node name: the engine's own
    record of a node's worker is [n_worker]. *)
Record Engine := {
  e_manifolds : gmap string Manifold;
  e_nodes : gmap string Node;
  e_everInstalled : gset string;
  e_live : list (nat * string);
  e_next : nat;
  e_status : Status
}.

Definition with_nodes (s : Engine) (nodes : gmap string Node) : Engine :=
  {| e_manifolds := e_manifolds s; e_nodes := nodes;
     e_everInstalled := e_everInstalled s; e_live := e_live s;
     e_next := e_next s; e_status := e_status s |}.

Definition with_status (s : Engine) (st : Status) : Engine :=
  {| e_manifolds := e_manifolds s; e_nodes := e_nodes s;
     e_everInstalled := e_everInstalled s; e_live := e_live s;
     e_next := e_next s; e_status := st |}.

Definition is_started (nd : Node) : bool := bool_decide (n_state nd = Started).

(** Every input is installed and [started]. *)
Definition inputs_started (nodes : gmap string Node) (ins : list string) : bool :=
  forallb (fun i => match nodes !! i with Some x => is_started x | None => false end) ins.

(** A node that must be told to stop: started, or starting without a
    cancellation yet, while some input is not started. *)
Definition needs_stop (nodes : gmap string Node) (nd : Node) : bool :=
  negb (inputs_started nodes (n_inputs nd)) &&
  (is_started nd || (bool_decide (n_state nd = Starting) && negb (n_abort nd))).

(** Sends the stop signal to one node: a started node goes to
    [stopping], a starting one gets its context cancelled. *)
Definition signal_stop (nd : Node) : Node :=
  match n_state nd with
  | Started => set_state Stopping nd
  | Starting => set_abort nd
  | _ => nd
  end.

(** One pass: signal every node that has an input not started. *)
Definition pass (nodes : gmap string Node) : gmap string Node :=
  (fun nd => if needs_stop nodes nd then signal_stop nd else nd) <$> nodes.

Definition settled (nodes : gmap string Node) : bool :=
  bool_decide (map_Forall (fun _ nd => needs_stop nodes nd = false) nodes).

(** Modelled from the spec: dependents of a node that left [started]
    are stopped transitively (section 4.2); passes repeat until no
    started node has an input that is not started. *)
Fixpoint cascade (fuel : nat) (nodes : gmap string Node) : gmap string Node :=
  match fuel with
  | O => nodes
  | S f => if settled nodes then nodes else cascade f (pass nodes)
  end.

Definition cascade_all (nodes : gmap string Node) : gmap string Node :=
  cascade (S (size nodes)) nodes.

(** A node whose [start] call or worker has not finished yet. *)
Definition in_flight (nd : Node) : bool :=
  match n_state nd with Starting | Started | Stopping => true | _ => false end.

(** Some installed node that declares [name] as an input is still in
    flight. *)
Definition has_live_dependent (nodes : gmap string Node) (name : string) : bool :=
  bool_decide (map_Exists (fun _ d => name ∈ n_inputs d /\ in_flight d = true) nodes).

(** Modelled from the spec: engine shutdown stops the nodes in reverse
    topological order (section 4.2).  A node is sent the stop signal only
    once none of the nodes that declare it as an input has a [start] call
    or a worker left; each loop pass during shutdown signals the layer
    whose dependents have all terminated. *)
Definition stop_layer (nodes : gmap string Node) : gmap string Node :=
  map_imap (fun name nd =>
              Some (if has_live_dependent nodes name then nd else signal_stop nd)) nodes.

(** No worker alive and no [start] call in flight. *)
Definition quiescent (s : Engine) : bool :=
  bool_decide (e_live s = []) &&
  bool_decide (map_Forall (fun _ nd => n_state nd <> Starting) (e_nodes s)).

(** The end of every loop pass. *)
Definition settle (s : Engine) : Engine :=
  match e_status s with
  | Running => with_nodes s (cascade_all (e_nodes s))
  | Dying e =>
      let s1 := with_nodes s (stop_layer (cascade_all (e_nodes s))) in
      if quiescent s1 then with_status s1 (Dead e) else s1
  | Dead _ => s
  end.

(** A node whose worker is gone and whose start is not in flight is
    removed when it is being uninstalled. *)
Definition finish (s : Engine) (name : string) (nd : Node) : Engine :=
  if n_remove nd then
    {| e_manifolds := delete name (e_manifolds s); e_nodes := delete name (e_nodes s);
       e_everInstalled := e_everInstalled s; e_live := e_live s;
       e_next := e_next s; e_status := e_status s |}
  else with_nodes s (<[name := nd]> (e_nodes s)).

Definition fresh_node (m : Manifold) : Node :=
  {| n_inputs := m_inputs m; n_state := Stopped; n_worker := None;
     n_output := None; n_abort := false; n_remove := false; n_lastError := None |}.

(** Modelled from the spec: [Install(manifold)] (section 4.2) fails if
    the name already exists or an input names a manifold never
    installed. *)
Definition Install (s : Engine) (name : string) (m : Manifold) : Engine * option GoError :=
  if bool_decide (is_Some (e_nodes s !! name)) then
    (s, Some (ErrMsg "manifold already installed"))
  else if forallb (fun i => bool_decide (i ∈ e_everInstalled s)) (m_inputs m) then
    (settle {| e_manifolds := <[name := m]> (e_manifolds s);
               e_nodes := <[name := fresh_node m]> (e_nodes s);
               e_everInstalled := {[name]} ∪ e_everInstalled s;
               e_live := e_live s; e_next := e_next s; e_status := e_status s |},
     None)
  else (s, Some (ErrMsg "manifold input not installed")).

(** Modelled from the spec: uninstall stops the node and removes it
    once its worker is gone (section 4.2). *)
Definition Uninstall (s : Engine) (name : string) : Engine :=
  match e_nodes s !! name with
  | None => s
  | Some nd =>
      let nd' := {| n_inputs := n_inputs nd; n_state := n_state nd;
                    n_worker := n_worker nd; n_output := n_output nd;
                    n_abort := n_abort nd; n_remove := true;
                    n_lastError := n_lastError nd |} in
      match n_state nd with
      | Stopped | Errored => settle (finish s name nd')
      | _ => settle (with_nodes s (<[name := signal_stop nd']> (e_nodes s)))
      end
  end.

(** Modelled from the spec: the loop calls [start] for a stopped node
    whose inputs are all started and whose previous worker has
    terminated. *)
Definition TryStart (s : Engine) (name : string) : Engine :=
  match e_status s, e_nodes s !! name with
  | Running, Some nd =>
      if bool_decide (n_state nd = Stopped) && negb (n_remove nd) &&
         bool_decide (n_worker nd = None) && inputs_started (e_nodes s) (n_inputs nd)
      then
        let nd' := {| n_inputs := n_inputs nd; n_state := Starting; n_worker := None;
                      n_output := n_output nd; n_abort := false; n_remove := false;
                      n_lastError := n_lastError nd |} in
        settle (with_nodes s (<[name := nd']> (e_nodes s)))
      else s
  | _, _ => s
  end.

(** Modelled from the spec: [start] returned a worker, whose output is
    [out].  A start cancelled meanwhile leaves the worker to be stopped. *)
Definition StartOk (s : Engine) (name : string) (out : Value) : Engine :=
  match e_nodes s !! name with
  | Some nd =>
      if bool_decide (n_state nd = Starting) then
        let w := e_next s in
        let nd' := {| n_inputs := n_inputs nd;
                      n_state := if n_abort nd then Stopping else Started;
                      n_worker := Some w;
                      n_output := if n_abort nd then n_output nd else Some out;
                      n_abort := false; n_remove := n_remove nd;
                      n_lastError := n_lastError nd |} in
        settle {| e_manifolds := e_manifolds s; e_nodes := <[name := nd']> (e_nodes s);
                  e_everInstalled := e_everInstalled s; e_live := (w, name) :: e_live s;
                  e_next := S w; e_status := e_status s |}
      else s
  | None => s
  end.

(** Modelled from the spec: [start] returned an error. *)
Definition StartFail (s : Engine) (name : string) (err : GoError) : Engine :=
  match e_nodes s !! name with
  | Some nd =>
      if bool_decide (n_state nd = Starting) then
        let nd' := {| n_inputs := n_inputs nd; n_state := Errored; n_worker := None;
                      n_output := n_output nd; n_abort := false; n_remove := n_remove nd;
                      n_lastError := Some err |} in
        settle (finish s name nd')
      else s
  | None => s
  end.

(** The [filter] of a node's manifold; no filter: ordinary. *)
Definition classify (s : Engine) (name : string) (e : GoError) : ErrClass :=
  match e_manifolds s !! name with
  | Some m => match m_filter m with Some f => f e | None => Ordinary end
  | None => Ordinary
  end.

(** The engine keeps the first fatal error. *)
Definition record_fatal (st : Status) (e : GoError) : Status :=
  match st with
  | Running | Dying None => Dying (Some e)
  | _ => st
  end.

Definition pair_eqb (p q : nat * string) : bool := bool_decide (p = q).

(** Modelled from the spec: the node's worker terminated with [err]. *)
Definition Exit (s : Engine) (name : string) (err : option GoError) : Engine :=
  match e_nodes s !! name with
  | Some nd =>
      match n_worker nd with
      | Some w =>
          if existsb (pair_eqb (w, name)) (e_live s) then
            let cls := match err with Some e => Some (classify s name e) | None => None end in
            let st' := match n_state nd, cls with
                       | Started, (None | Some Ignorable) => Stopped
                       | Started, _ => Errored
                       | _, _ => Stopped
                       end in
            let nd' := {| n_inputs := n_inputs nd; n_state := st'; n_worker := None;
                          n_output := n_output nd; n_abort := false;
                          n_remove := n_remove nd;
                          n_lastError := match err with Some _ => err | None => n_lastError nd end |} in
            let status' := match err, cls with
                           | Some e, Some Fatal => record_fatal (e_status s) e
                           | _, _ => e_status s
                           end in
            let s1 := {| e_manifolds := e_manifolds s; e_nodes := e_nodes s;
                         e_everInstalled := e_everInstalled s;
                         e_live := List.filter (fun p => negb (pair_eqb (w, name) p)) (e_live s);
                         e_next := e_next s; e_status := status' |} in
            settle (finish s1 name nd')
          else s
      | None => s
      end
  | None => s
  end.

(** Modelled from the spec: equality of the old and new output of a
    node; by default the identity of its worker, which a re-evaluation
    does not change. *)
Definition output_equal (s : Engine) (name : string) (old new : Value) : bool :=
  match e_manifolds s !! name with
  | Some m => match m_equal m with Some eq => eq old new | None => true end
  | None => true
  end.

(** Modelled from the spec: a re-evaluation of a started node's output
    yields [out]; if it changed, the node's dependents are bounced. *)
Definition Reevaluate (s : Engine) (name : string) (out : Value) : Engine :=
  match e_nodes s !! name with
  | Some nd =>
      match n_state nd, n_output nd with
      | Started, Some old =>
          if output_equal s name old out then s
          else
            let nd' := {| n_inputs := n_inputs nd; n_state := Started; n_worker := n_worker nd;
                          n_output := Some out; n_abort := n_abort nd;
                          n_remove := n_remove nd; n_lastError := n_lastError nd |} in
            let nodes1 := <[name := nd']> (e_nodes s) in
            let nodes2 := (fun d => if bool_decide (name ∈ n_inputs d) then signal_stop d else d)
                            <$> nodes1 in
            settle (with_nodes s nodes2)
      | _, _ => s
      end
  | None => s
  end.

(** Modelled from the spec: [retryAt] of an errored node elapsed. *)
Definition Retry (s : Engine) (name : string) : Engine :=
  match e_nodes s !! name with
  | Some nd =>
      if bool_decide (n_state nd = Errored) then
        settle (with_nodes s (<[name := set_state Stopped nd]> (e_nodes s)))
      else s
  | None => s
  end.

(** Modelled from the spec: [Stop()] asks the engine to shut down. *)
Definition Stop (s : Engine) : Engine :=
  match e_status s with
  | Running => settle (with_status s (Dying None))
  | _ => s
  end.

(** The triggers of the decision loop. *)
Inductive Event :=
| EvInstall (name : string) (m : Manifold)
| EvUninstall (name : string)
| EvTryStart (name : string)
| EvStartOk (name : string) (out : Value)
| EvStartFail (name : string) (err : GoError)
| EvExit (name : string) (err : option GoError)
| EvReevaluate (name : string) (out : Value)
| EvRetry (name : string)
| EvStop.

(** One pass of the decision loop; a terminated engine reacts to
    nothing. *)
Definition step (s : Engine) (ev : Event) : Engine :=
  match e_status s with
  | Dead _ => s
  | _ =>
      match ev with
      | EvInstall name m => fst (Install s name m)
      | EvUninstall name => Uninstall s name
      | EvTryStart name => TryStart s name
      | EvStartOk name out => StartOk s name out
      | EvStartFail name err => StartFail s name err
      | EvExit name err => Exit s name err
      | EvReevaluate name out => Reevaluate s name out
      | EvRetry name => Retry s name
      | EvStop => Stop s
      end
  end.

Definition run (s : Engine) (evs : list Event) : Engine := fold_left step evs s.

Definition init : Engine :=
  {| e_manifolds := ∅; e_nodes := ∅; e_everInstalled := ∅; e_live := [];
     e_next := 0; e_status := Running |}.

(** [Engine.Wait()]: blocks ([None]) until the engine has terminated. *)
Definition Wait (s : Engine) : option (option GoError) :=
  match e_status s with Dead e => Some e | _ => None end.

(** Modelled from the spec: the snapshot [Context.Get] reads, the
    outputs of the started nodes. *)
Definition snapshot (s : Engine) : gmap string Value :=
  omap (fun nd => if is_started nd then n_output nd else None) (e_nodes s).

Inductive GetError := ErrMissing | ErrTypeMismatch.

(** Modelled from the spec: [Context.Get(name, &out)] with a target of
    type [target]; [inr v] copies [v] into [out]. *)
Definition Get (snap : gmap string Value) (name : string) (target : GoType) : GetError + Value :=
  match snap !! name with
  | None => inl ErrMissing
  | Some v => if type_compatible v target then inr v else inl ErrTypeMismatch
  end.

(** Modelled from the spec: the [Context] handed to a node's [start]. *)
Record Context := { ctx_inputs : list string; ctx_snapshot : gmap string Value }.

Definition context_of (s : Engine) (name : string) : option Context :=
  match e_nodes s !! name with
  | Some nd => Some {| ctx_inputs := n_inputs nd; ctx_snapshot := snapshot s |}
  | None => None
  end.

Definition ContextGet (ctx : Context) (name : string) (target : GoType) : GetError + Value :=
  Get (ctx_snapshot ctx) name target.

(** ** Invariants and observations used by the proofs *)

(** A node's state agrees with its worker and output records. *)
Definition coherent (nd : Node) : Prop :=
  match n_state nd with
  | Stopped | Starting | Errored => n_worker nd = None
  | Started => is_Some (n_worker nd) /\ is_Some (n_output nd)
  | Stopping => is_Some (n_worker nd)
  end.

(** The live workers are exactly the workers the nodes record, and no
    two of them belong to one node. *)
Definition structural (s : Engine) : Prop :=
  (forall w n, In (w, n) (e_live s) <->
               exists nd, e_nodes s !! n = Some nd /\ n_worker nd = Some w) /\
  NoDup (map snd (e_live s)) /\
  map_Forall (fun _ nd => coherent nd) (e_nodes s).

(** A node not yet sent the stop signal: started, or starting without a
    cancellation. *)
Definition unsignalled (nd : Node) : Prop :=
  n_state nd = Started \/ (n_state nd = Starting /\ n_abort nd = false).

(** What the end of a loop pass establishes. *)
Definition resolved (s : Engine) : Prop :=
  map_Forall (fun _ nd => needs_stop (e_nodes s) nd = false) (e_nodes s) /\
  (e_status s <> Running ->
   map_Forall (fun k nd => unsignalled nd -> has_live_dependent (e_nodes s) k = true)
              (e_nodes s)) /\
  (forall e, e_status s = Dying e -> quiescent s = false) /\
  (forall e, e_status s = Dead e ->
   e_live s = [] /\ map_Forall (fun _ nd => n_state nd <> Starting) (e_nodes s)).

Definition Inv (s : Engine) : Prop := structural s /\ resolved s.

(** [depends s d n]: node [d] depends on [n] through a chain of
    declared inputs of installed nodes. *)
Inductive depends (s : Engine) : string -> string -> Prop :=
| depends_direct d nd n :
    e_nodes s !! d = Some nd -> n ∈ n_inputs nd -> depends s d n
| depends_trans d nd x n :
    e_nodes s !! d = Some nd -> x ∈ n_inputs nd -> depends s x n -> depends s d n.

Definition state_of (s : Engine) (name : string) : option NodeState :=
  n_state <$> e_nodes s !! name.

(** A re-evaluation of [name] that changes its output: a generation
    change. *)
Definition changes_output (s : Engine) (name : string) (ev : Event) : bool :=
  match ev with
  | EvReevaluate n out =>
      bool_decide (n = name) &&
      match e_nodes s !! n with
      | Some nd =>
          match n_state nd, n_output nd with
          | Started, Some old =>
              match e_status s with
              | Running => negb (output_equal s n old out)
              | _ => false
              end
          | _, _ => false
          end
      | None => false
      end
  | _ => false
  end.

(** Along a trace: generation changes of [name], times [name] left
    [started], times [name] entered [started]. *)
Fixpoint gen_changes (s : Engine) (evs : list Event) (name : string) : nat :=
  match evs with
  | [] => 0
  | ev :: rest => (if changes_output s name ev then 1 else 0) + gen_changes (step s ev) rest name
  end.

Fixpoint stop_count (s : Engine) (evs : list Event) (name : string) : nat :=
  match evs with
  | [] => 0
  | ev :: rest =>
      (if bool_decide (state_of s name = Some Started) &&
          negb (bool_decide (state_of (step s ev) name = Some Started)) then 1 else 0)
      + stop_count (step s ev) rest name
  end.

Fixpoint start_count (s : Engine) (evs : list Event) (name : string) : nat :=
  match evs with
  | [] => 0
  | ev :: rest =>
      (if negb (bool_decide (state_of s name = Some Started)) &&
          bool_decide (state_of (step s ev) name = Some Started) then 1 else 0)
      + start_count (step s ev) rest name
  end.

(** Weight of a node for the termination of [cascade]. *)
Definition weight (nd : Node) : nat :=
  if is_started nd || (bool_decide (n_state nd = Starting) && negb (n_abort nd)) then 1 else 0.

Definition measure (nodes : gmap string Node) : nat :=
  sum_list ((fun kv => weight kv.2) <$> map_to_list nodes).

(** [m'] is [m] with some nodes sent the stop signal. *)
Definition signalled (m m' : gmap string Node) : Prop :=
  forall k, match m !! k, m' !! k with
            | Some nd, Some nd' => nd' = nd \/ nd' = signal_stop nd
            | None, None => True
            | _, _ => False
            end.

End DepEngine.

(** ** Scenarios used by the witnesses and counterexamples *)

Module Scenarios.
Import DepEngine.
Local Open Scope string_scope.

(** A node without inputs whose completion errors are all fatal. *)
Definition fatal_manifold : Manifold :=
  {| m_inputs := []; m_filter := Some (fun _ => Fatal); m_equal := None |}.

(** Two independent nodes [A] and [B], both started. *)
Definition two_started : list Event :=
  [EvInstall "A" fatal_manifold; EvInstall "B" fatal_manifold;
   EvTryStart "A"; EvStartOk "A" (VInt 1); EvTryStart "B"; EvStartOk "B" (VInt 2)].

Definition errA : GoError := ErrMsg "A failed".
Definition errB : GoError := ErrMsg "B failed".

(** [A] compares its outputs by value; [B] takes [A] as input. *)
Definition valued_manifold : Manifold :=
  {| m_inputs := []; m_filter := None; m_equal := Some (fun a b => bool_decide (a = b)) |}.
Definition dependent_manifold : Manifold :=
  {| m_inputs := ["A"]; m_filter := None; m_equal := None |}.

(** [A] and then [B] installed and started. *)
Definition chain_started : list Event :=
  [EvInstall "A" valued_manifold; EvInstall "B" dependent_manifold;
   EvTryStart "A"; EvStartOk "A" (VInt 1); EvTryStart "B"; EvStartOk "B" (VInt 5)].

(** The nodes of [chain_started]. *)
Definition node_A : Node :=
  {| n_inputs := []; n_state := Started; n_worker := Some 0; n_output := Some (VInt 1);
     n_abort := false; n_remove := false; n_lastError := None |}.
Definition node_B : Node :=
  {| n_inputs := ["A"]; n_state := Started; n_worker := Some 1; n_output := Some (VInt 5);
     n_abort := false; n_remove := false; n_lastError := None |}.

(** [C] takes [B] as input. *)
Definition tail_manifold : Manifold :=
  {| m_inputs := ["B"]; m_filter := None; m_equal := None |}.

(** [A], [B] and [C] started in a chain, then the engine is asked to
    stop: [C] is signalled first while [A] and [B] stay [started]. *)
Definition chain3_stopping : list Event :=
  chain_started ++
  [EvInstall "C" tail_manifold; EvTryStart "C"; EvStartOk "C" (VInt 7); EvStop].

(** The chain [A], [B] started next to a node [C] whose errors are all
    fatal. *)
Definition chain_and_fatal : list Event :=
  chain_started ++ [EvInstall "C" fatal_manifold; EvTryStart "C"; EvStartOk "C" (VInt 9)].

(** The context [B] is started with. *)
Definition context_B : Context :=
  {| ctx_inputs := ["A"]; ctx_snapshot := snapshot (run init chain_started) |}.

(** Two changes of [A]'s output, the second one while [B] is still
    stopping, then [B] stops and is started again. *)
Definition bounce_twice : list Event :=
  [EvReevaluate "A" (VInt 2); EvReevaluate "A" (VInt 3); EvExit "B" None;
   EvTryStart "B"; EvStartOk "B" (VInt 6)].

(** A version parser that knows one version. *)
Definition parse_version (v : string) : option nat :=
  if String.eqb v "2.0.0" then Some 2 else None.

(** A model whose config holds that version. *)
Definition versioned_state : migration.State :=
  {| migration.ModelConfig :=
       ({| migration.defined := {[ migration.AgentVersionKey := migration.AString "2.0.0" ]} |},
        None) |}.
End Scenarios.

(** Concrete inputs for the properties of the config and storage code. *)


Module ConfigScenarios.
Import config.
Local Open Scope string_scope.

(** A model configuration with a name, a UUID, an agent version and a
    harvest mode. *)
Definition named_config : Config :=
  {| defined := list_to_map [(NameKey, VString "m"); (UUIDKey, VString "u");
                             (AgentVersionKey, VString "2.0.0");
                             (ProvisionerHarvestModeKey, VString "all")];
     unknown := ∅ |}.

(** The same model with a default series added. *)
Definition updated_config : Config :=
  {| defined := list_to_map [(NameKey, VString "m"); (UUIDKey, VString "u");
                             (AgentVersionKey, VString "2.0.0");
                             (ProvisionerHarvestModeKey, VString "all");
                             ("default-series", VString "jammy")];
     unknown := ∅ |}.
End ConfigScenarios.

(** A filesystem attached to two machines, one of which hosts a unit
    using it, and a filesystem attached nowhere. *)
Module StorageScenarios.
Import storage.
Local Open Scope string_scope.

Definition attached_filesystem : FilesystemInfo :=
  {| ProviderFilesystemId := "provider-0"; Volume := "0"; Storage := "data/0";
     Attachments := Some {| Machines := [("0", {| MountPoint := "/srv" |});
                                         ("1", {| MountPoint := "/mnt" |})];
                            Units := [("db/0", {| UnitMachineId := "0" |})] |};
     Size := 1024%N; Status := {| Current := "attached"; Message := EmptyString |} |}.

Definition detached_filesystem : FilesystemInfo :=
  {| ProviderFilesystemId := "provider-1"; Volume := "1"; Storage := "logs/1";
     Attachments := None;
     Size := 0%N; Status := {| Current := "pending"; Message := EmptyString |} |}.

Definition filesystem_infos : list (string * FilesystemInfo) :=
  [("0/0", attached_filesystem); ("1", detached_filesystem)].

(** The row of the attachment to machine 0, which carries unit db/0. *)
Definition unit_row : filesystemAttachmentInfo :=
  {| FilesystemId := "0/0"; attachment_FilesystemInfo := attached_filesystem;
     MachineId := "0"; attachment_MachineFilesystemAttachment := {| MountPoint := "/srv" |};
     UnitId := "db/0"; attachment_UnitStorageAttachment := {| UnitMachineId := "0" |} |}.
End StorageScenarios.


(** * Theorems *)

(** ** ApiManifold *)

(** C7: the manifold built by [ApiManifold] declares exactly the input
    [config.APICallerName]; its [Start] returns [(nil, err)] when
    [Get(config.APICallerName, &apiCaller)] fails with [err], whatever the
    start function (which is not called), and otherwise returns
    [start(apiCaller)]. *)
Theorem ApiManifold_inputs_and_start {APICaller Worker : Type}
    (config : ApiManifoldConfig) (start : ApiStartFunc APICaller Worker)
    (context : dependency.Context APICaller) :
  dependency.Inputs (ApiManifold config start) = [APICallerName config] /\
  match dependency.Get context (APICallerName config) with
  | inl err =>
      forall start' : ApiStartFunc APICaller Worker,
        dependency.Start (ApiManifold config start') context = (None, Some err)
  | inr apiCaller => dependency.Start (ApiManifold config start) context = start apiCaller
  end.
Proof.
  split; [reflexivity |].
  simpl. destruct (dependency.Get context (APICallerName config)); reflexivity.
Qed.

(** ** precheckShim.AgentVersion *)

(** C8: for a model config that passed validation, [AgentVersion] of the
    shim returns [version.Zero] and a non-nil error when [ModelConfig()]
    fails or the config has no agent version, and otherwise the config's
    agent version with a nil error. *)
Theorem precheckShim_AgentVersion_results {Number : Type}
    (Zero : Number) (Parse : string -> option Number) (s : migration.State)
    (Hvalid : migration.agent_version_valid Parse (fst (migration.ModelConfig s))) :
  (forall err, snd (migration.ModelConfig s) = Some err ->
     exists e, migration.precheckShim_AgentVersion Zero Parse s = migration.Returns (Zero, Some e)) /\
  (snd (migration.ModelConfig s) = None ->
     (forall v, migration.defined (fst (migration.ModelConfig s)) !! migration.AgentVersionKey
                <> Some (migration.AString v)) ->
     exists e, migration.precheckShim_AgentVersion Zero Parse s = migration.Returns (Zero, Some e)) /\
  (forall v, snd (migration.ModelConfig s) = None ->
     migration.defined (fst (migration.ModelConfig s)) !! migration.AgentVersionKey
       = Some (migration.AString v) ->
     exists n, Parse v = Some n /\
       migration.precheckShim_AgentVersion Zero Parse s = migration.Returns (n, None)).
Proof.
  unfold migration.agent_version_valid in Hvalid.
  unfold migration.precheckShim_AgentVersion, migration.AgentVersion.
  destruct (migration.ModelConfig s) as [cfg err]; simpl in *.
  split; [| split].
  - intros e ->. eauto.
  - intros -> Hnone.
    destruct (migration.defined cfg !! migration.AgentVersionKey) as [[v|]|] eqn:Hl.
    + exfalso. exact (Hnone v eq_refl).
    + eauto.
    + eauto.
  - intros v -> Hl. rewrite Hl.
    destruct (Hvalid v Hl) as [n Hn]. rewrite Hn. eauto.
Qed.

(** ** Bootstrap *)

(** C9: [Bootstrap] returns a non-nil error without calling
    [environ.Bootstrap] when the admin-secret or authorized-keys is empty
    or the CA certificate or key is missing; [environ.Bootstrap(cons)] is
    called only when all four checks and the storage verification pass. *)
Theorem Bootstrap_precondition_checks {Cons : Type}
    (environ : bootstrap.Environ Cons) (cons : Cons) :
  let cfg := bootstrap.EnvironConfig environ in
  ((bootstrap.AdminSecret cfg = EmptyString \/ bootstrap.AuthorizedKeys cfg = EmptyString \/
    snd (bootstrap.CACert cfg) = false \/ snd (bootstrap.CAPrivateKey cfg) = false) ->
   exists e, bootstrap.Bootstrap environ cons = (Some e, [])) /\
  (forall c, In (bootstrap.CallBootstrap c) (snd (bootstrap.Bootstrap environ cons)) ->
   c = cons /\ bootstrap.AdminSecret cfg <> EmptyString /\ bootstrap.AuthorizedKeys cfg <> EmptyString /\
   snd (bootstrap.CACert cfg) = true /\ snd (bootstrap.CAPrivateKey cfg) = true /\
   bootstrap.VerifyStorageResult environ = None).
Proof.
  intros cfg. unfold bootstrap.Bootstrap. fold cfg.
  destruct (String.eqb_spec (bootstrap.AdminSecret cfg) EmptyString) as [Ha|Ha];
  destruct (String.eqb_spec (bootstrap.AuthorizedKeys cfg) EmptyString) as [Hk|Hk];
  destruct (snd (bootstrap.CACert cfg)) eqn:Hc;
  destruct (snd (bootstrap.CAPrivateKey cfg)) eqn:Hp;
  destruct (bootstrap.VerifyStorageResult environ) eqn:Hv; simpl;
  (split; [intros H; try (eexists; reflexivity); exfalso; intuition congruence |]);
  intros c Hin; simpl in Hin; intuition congruence.
Qed.

(** ** formatFilesystemListTabular *)

(** C10: [formatFilesystemListTabular] returns a non-nil error exactly
    when the dynamic type of [value] is not [map[string]FilesystemInfo];
    for such a map it writes the table and returns nil. *)
Theorem formatFilesystemListTabular_type_check {FilesystemInfo : Type}
    (formatTyped : list (string * FilesystemInfo) -> list string)
    (value : storage.Value) :
  (is_Some (fst (storage.formatFilesystemListTabular formatTyped value)) <->
   storage.dynamic_type value <> Some storage.TMapStringFilesystemInfo) /\
  match value with
  | storage.VFilesystemInfos infos =>
      storage.formatFilesystemListTabular formatTyped value = (None, formatTyped infos)
  | _ => True
  end.
Proof.
  destruct value as [| infos | t]; simpl; (split; [| trivial]);
    split; intros H; try congruence; try (eexists; reflexivity).
  destruct H as [e He]; discriminate.
Qed.

(** ** The dependency engine *)

Import DepEngine Scenarios.
Local Open Scope string_scope.
Local Open Scope list_scope.


Lemma signal_stop_idem nd : signal_stop (signal_stop nd) = signal_stop nd.
Proof. destruct nd as [? [] ? ? ? ? ?]; reflexivity. Qed.

Lemma signal_stop_worker nd : n_worker (signal_stop nd) = n_worker nd.
Proof. destruct nd as [? [] ? ? ? ? ?]; reflexivity. Qed.

Lemma signal_stop_inputs nd : n_inputs (signal_stop nd) = n_inputs nd.
Proof. destruct nd as [? [] ? ? ? ? ?]; reflexivity. Qed.

Lemma signal_stop_not_started nd : n_state (signal_stop nd) <> Started.
Proof. destruct nd as [? [] ? ? ? ? ?]; discriminate. Qed.

Lemma signal_stop_state nd :
  n_state (signal_stop nd) = match n_state nd with Started => Stopping | st => st end.
Proof. destruct nd as [? [] ? ? ? ? ?]; reflexivity. Qed.

Lemma signal_stop_abort nd :
  n_state nd = Starting -> n_abort (signal_stop nd) = true.
Proof. destruct nd as [? [] ? ? ? ? ?]; simpl; congruence. Qed.

Lemma coherent_signal_stop nd : coherent nd -> coherent (signal_stop nd).
Proof. destruct nd as [? [] ? ? ? ? ?]; unfold coherent; simpl; tauto. Qed.

Lemma signalled_refl m : signalled m m.
Proof. intros k. destruct (m !! k); auto. Qed.

Lemma signalled_trans m1 m2 m3 : signalled m1 m2 -> signalled m2 m3 -> signalled m1 m3.
Proof.
  intros H12 H23 k. specialize (H12 k). specialize (H23 k).
  destruct (m1 !! k), (m2 !! k), (m3 !! k); try contradiction; auto.
  destruct H12 as [-> | ->], H23 as [-> | ->]; auto using signal_stop_idem.
Qed.

Lemma signalled_fmap (f : Node -> Node) m :
  (forall nd, f nd = nd \/ f nd = signal_stop nd) -> signalled m (f <$> m).
Proof.
  intros Hf k. rewrite lookup_fmap. destruct (m !! k); simpl; auto.
Qed.

Lemma signalled_pass m : signalled m (pass m).
Proof.
  apply signalled_fmap. intros nd. destruct (needs_stop m nd); auto.
Qed.

Lemma signalled_cascade fuel m : signalled m (cascade fuel m).
Proof.
  revert m. induction fuel as [|f IH]; intros m; simpl.
  - apply signalled_refl.
  - destruct (settled m); [apply signalled_refl |].
    eapply signalled_trans; [apply signalled_pass | apply IH].
Qed.

Lemma settled_spec m :
  settled m = true <-> map_Forall (fun _ nd => needs_stop m nd = false) m.
Proof. unfold settled. apply bool_decide_eq_true. Qed.

Lemma weight_le_1 nd : weight nd <= 1.
Proof. unfold weight. destruct (_ || _); lia. Qed.

Lemma weight_step m nd :
  weight (if needs_stop m nd then signal_stop nd else nd) <= weight nd.
Proof.
  destruct (needs_stop m nd); [| lia].
  destruct nd as [? [] ? ? [] ? ?]; unfold weight; simpl; lia.
Qed.

Lemma weight_needs_stop m nd :
  needs_stop m nd = true -> weight (signal_stop nd) < weight nd.
Proof.
  unfold needs_stop. intros H. apply andb_true_iff in H as [_ H].
  destruct nd as [? [] ? ? [] ? ?]; unfold weight, is_started in *; simpl in *;
    try discriminate; lia.
Qed.

Lemma sum_list_fmap_le {A} (g : A -> A) (w : A -> nat) (l : list A) :
  (forall x, w (g x) <= w x) ->
  sum_list ((fun x => w (g x)) <$> l) <= sum_list (w <$> l).
Proof.
  intros Hle. induction l as [|a l IH]; [simpl; lia |].
  rewrite !fmap_cons. cbn [sum_list id]. pose proof (Hle a). lia.
Qed.

Lemma sum_list_fmap_lt {A} (g : A -> A) (w : A -> nat) (l : list A) :
  (forall x, w (g x) <= w x) ->
  (exists x, In x l /\ w (g x) < w x) ->
  sum_list ((fun x => w (g x)) <$> l) < sum_list (w <$> l).
Proof.
  intros Hle. induction l as [|y l IH]; intros [x [Hin Hlt]]; [contradiction |].
  rewrite !fmap_cons. cbn [sum_list id]. destruct Hin as [-> | Hin].
  - pose proof (sum_list_fmap_le g w l Hle). lia.
  - pose proof (IH (ex_intro _ x (conj Hin Hlt))). pose proof (Hle y). lia.
Qed.

Lemma settled_false m :
  settled m = false -> exists k nd, m !! k = Some nd /\ needs_stop m nd = true.
Proof.
  intros Hs.
  assert (~ Forall (uncurry (fun (_ : string) nd => needs_stop m nd = false)) (map_to_list m)) as Hn.
  { rewrite <- map_Forall_to_list, <- settled_spec. congruence. }
  apply not_Forall_Exists, Exists_exists in Hn as [[k nd] [Hin Hns]];
    [| intros [? ?]; simpl; apply _].
  exists k, nd. split; [by apply elem_of_map_to_list |].
  simpl in Hns. by apply not_false_is_true.
Qed.

Lemma measure_pass_lt m : settled m = false -> measure (pass m) < measure m.
Proof.
  intros Hs. apply settled_false in Hs as [k [nd [Hk Hns]]].
  unfold measure, pass. rewrite map_to_list_fmap, <- list_fmap_compose.
  apply (sum_list_fmap_lt (prod_map id (fun nd => if needs_stop m nd then signal_stop nd else nd))
           (fun kv => weight kv.2)).
  - intros [k' nd']. simpl. apply weight_step.
  - exists (k, nd). split.
    + apply list_elem_of_In. apply (elem_of_map_to_list m k nd). exact Hk.
    + simpl. rewrite Hns. by apply (weight_needs_stop m).
Qed.

Lemma measure_le_size m : measure m <= size m.
Proof.
  unfold measure. rewrite <- length_map_to_list.
  induction (map_to_list m) as [|kv l IH]; [simpl; lia |].
  rewrite fmap_cons. cbn [sum_list id length]. pose proof (weight_le_1 kv.2). lia.
Qed.

Lemma cascade_settled fuel m : measure m < fuel -> settled (cascade fuel m) = true.
Proof.
  revert m. induction fuel as [|f IH]; intros m Hm; [lia |]. simpl.
  destruct (settled m) eqn:Hs; [done |].
  apply IH. pose proof (measure_pass_lt m Hs). lia.
Qed.

Lemma cascade_all_settled m : settled (cascade_all m) = true.
Proof. apply cascade_settled. pose proof (measure_le_size m). lia. Qed.

Lemma structural_signalled s m :
  structural s -> signalled (e_nodes s) m -> structural (with_nodes s m).
Proof.
  intros [HI [HN HC]] Hsig. split; [| split]; simpl; [| done |].
  - intros w n. rewrite HI. specialize (Hsig n).
    destruct (e_nodes s !! n) as [nd|], (m !! n) as [nd'|]; try contradiction.
    + destruct Hsig as [-> | ->]; [done |].
      split; intros [x [Hx Hw]]; simplify_eq; eexists; split; eauto;
        rewrite ?signal_stop_worker in *; done.
    + split; intros [x [Hx Hw]]; discriminate.
  - intros k nd' Hk'. specialize (Hsig k). rewrite Hk' in Hsig.
    destruct (e_nodes s !! k) as [nd|] eqn:Hk; [| contradiction].
    pose proof (HC k nd Hk) as Hc. simpl in Hc.
    destruct Hsig as [-> | ->]; auto using coherent_signal_stop.
Qed.

Lemma structural_with_status s st : structural s -> structural (with_status s st).
Proof. intros H. exact H. Qed.

Lemma stopped_needs_stop (m : gmap string Node) nd :
  n_state nd <> Started -> (n_state nd = Starting -> n_abort nd = true) ->
  needs_stop m nd = false.
Proof.
  intros H1 H2. unfold needs_stop, is_started.
  rewrite (bool_decide_eq_false_2 _ H1). simpl.
  destruct (decide (n_state nd = Starting)) as [E|E].
  - rewrite (H2 E), andb_false_r. apply andb_false_r.
  - rewrite (bool_decide_eq_false_2 _ E). apply andb_false_r.
Qed.

Lemma signal_stop_fixed nd :
  n_state nd <> Started -> (n_state nd = Starting -> n_abort nd = true) ->
  signal_stop nd = nd.
Proof.
  intros H1 H2. unfold signal_stop. destruct (n_state nd) eqn:E; try done.
  specialize (H2 eq_refl). destruct nd; simpl in *. unfold set_abort; simpl. by subst.
Qed.

Lemma in_flight_signal_stop nd : in_flight (signal_stop nd) = in_flight nd.
Proof. destruct nd as [? [] ? ? ? ? ?]; reflexivity. Qed.

Lemma unsignalled_in_flight nd : unsignalled nd -> in_flight nd = true.
Proof. unfold unsignalled, in_flight. intros [-> | [-> _]]; reflexivity. Qed.

Lemma signal_stop_unsignalled nd : ~ unsignalled (signal_stop nd).
Proof.
  unfold unsignalled. destruct nd as [? [] ? ? [] ? ?];
    unfold signal_stop, set_state, set_abort; simpl; intuition discriminate.
Qed.

Lemma not_unsignalled nd :
  ~ unsignalled nd -> n_state nd <> Started /\ (n_state nd = Starting -> n_abort nd = true).
Proof.
  unfold unsignalled. intros H. split.
  - intros E. apply H. by left.
  - intros E. destruct (n_abort nd) eqn:A; [done |]. exfalso. apply H. by right.
Qed.

Lemma needs_stop_inputs (m : gmap string Node) nd :
  needs_stop m nd = false -> unsignalled nd -> inputs_started m (n_inputs nd) = true.
Proof.
  unfold needs_stop, is_started, unsignalled. intros Hns [H | [H Ha]].
  - rewrite (bool_decide_eq_true_2 _ H), orb_true_l, andb_true_r in Hns.
    by apply negb_false_iff in Hns.
  - rewrite H, Ha in Hns. simpl in Hns. rewrite andb_true_r in Hns.
    by apply negb_false_iff in Hns.
Qed.

Lemma has_live_dependent_spec m k :
  has_live_dependent m k = true <->
  exists d ndd, m !! d = Some ndd /\ k ∈ n_inputs ndd /\ in_flight ndd = true.
Proof. unfold has_live_dependent. rewrite bool_decide_eq_true, map_Exists_lookup. naive_solver. Qed.

Lemma has_live_dependent_signalled m m' k :
  signalled m m' -> has_live_dependent m' k = has_live_dependent m k.
Proof.
  intros Hsig. apply Bool.eq_iff_eq_true. rewrite !has_live_dependent_spec.
  split; intros (d & ndd & Hd & Hi & Hf); specialize (Hsig d); rewrite Hd in Hsig.
  - destruct (m !! d) as [nd0|] eqn:E; [| contradiction].
    exists d, nd0. destruct Hsig as [-> | ->];
      rewrite ?signal_stop_inputs, ?in_flight_signal_stop in *; auto.
  - destruct (m' !! d) as [nd1|] eqn:E; [| contradiction].
    exists d, nd1. destruct Hsig as [-> | ->];
      rewrite ?signal_stop_inputs, ?in_flight_signal_stop; auto.
Qed.

Lemma has_live_dependent_insert m n nd nd' k :
  m !! n = Some nd -> n_inputs nd' = n_inputs nd -> in_flight nd' = in_flight nd ->
  has_live_dependent (<[n := nd']> m) k = has_live_dependent m k.
Proof.
  intros Hn Hi Hf. apply Bool.eq_iff_eq_true. rewrite !has_live_dependent_spec.
  split; intros (d & ndd & Hd & Hin & Hfl).
  - destruct (decide (d = n)) as [-> | Hne].
    + rewrite lookup_insert_eq in Hd. injection Hd as <-. exists n, nd.
      rewrite <- Hi, <- Hf. auto.
    + rewrite lookup_insert_ne in Hd by congruence. eauto.
  - destruct (decide (d = n)) as [-> | Hne].
    + rewrite Hn in Hd. injection Hd as <-. exists n, nd'.
      rewrite lookup_insert_eq, Hi, Hf. auto.
    + exists d, ndd. rewrite lookup_insert_ne by congruence. auto.
Qed.

Lemma lookup_stop_layer m k :
  stop_layer m !! k =
  (fun nd => if has_live_dependent m k then nd else signal_stop nd) <$> m !! k.
Proof. unfold stop_layer. rewrite map_lookup_imap. by destruct (m !! k). Qed.

Lemma signalled_stop_layer m : signalled m (stop_layer m).
Proof.
  intros k. rewrite lookup_stop_layer. destruct (m !! k); simpl; [| done].
  destruct (has_live_dependent m k); auto.
Qed.

Lemma stop_layer_settled m :
  map_Forall (fun _ nd => needs_stop m nd = false) m ->
  map_Forall (fun _ nd => needs_stop (stop_layer m) nd = false) (stop_layer m).
Proof.
  intros HR k nd' Hk. rewrite lookup_stop_layer in Hk.
  destruct (m !! k) as [nd|] eqn:E; [| discriminate]. simpl in Hk. injection Hk as <-.
  destruct (has_live_dependent m k) eqn:Hl.
  2: { destruct (not_unsignalled _ (signal_stop_unsignalled nd)). by apply stopped_needs_stop. }
  destruct (decide (n_state nd = Started \/ (n_state nd = Starting /\ n_abort nd = false)))
    as [Hu | Hu].
  2: { destruct (not_unsignalled _ Hu). by apply stopped_needs_stop. }
  pose proof (needs_stop_inputs m nd (HR k nd E) Hu) as Hall.
  unfold needs_stop. replace (inputs_started (stop_layer m) (n_inputs nd)) with true; [done |].
  symmetry. unfold inputs_started in *. rewrite forallb_forall in *. intros i Hi.
  specialize (Hall i Hi). rewrite lookup_stop_layer.
  destruct (m !! i) as [ndi|]; [| discriminate]. simpl.
  rewrite (proj2 (has_live_dependent_spec m i)); [done |].
  exists k, nd. split; [done |].
  split; [by apply list_elem_of_In | by apply unsignalled_in_flight].
Qed.

Lemma stop_layer_resolved m :
  map_Forall (fun k nd => unsignalled nd -> has_live_dependent (stop_layer m) k = true)
             (stop_layer m).
Proof.
  intros k nd' Hk Hu. rewrite (has_live_dependent_signalled m) by apply signalled_stop_layer.
  rewrite lookup_stop_layer in Hk. destruct (m !! k) as [nd|]; [| discriminate]. simpl in Hk.
  injection Hk as <-. destruct (has_live_dependent m k); [done |].
  exfalso. exact (signal_stop_unsignalled nd Hu).
Qed.

Lemma stop_layer_keep m k x :
  m !! k = Some x -> (unsignalled x -> has_live_dependent m k = true) ->
  stop_layer m !! k = Some x.
Proof.
  intros Hk H. rewrite lookup_stop_layer, Hk. simpl. f_equal.
  destruct (has_live_dependent m k) eqn:Hl; [done |].
  destruct (decide (n_state x = Started \/ (n_state x = Starting /\ n_abort x = false)))
    as [Hu | Hu].
  - specialize (H Hu). congruence.
  - destruct (not_unsignalled x Hu). by apply signal_stop_fixed.
Qed.

Lemma stop_layer_signal m k x :
  m !! k = Some (signal_stop x) -> stop_layer m !! k = Some (signal_stop x).
Proof.
  intros Hk. rewrite lookup_stop_layer, Hk. simpl.
  destruct (has_live_dependent m k); [done |]. by rewrite signal_stop_idem.
Qed.

Lemma quiescent_true s :
  quiescent s = true ->
  e_live s = [] /\ map_Forall (fun _ nd => n_state nd <> Starting) (e_nodes s).
Proof.
  unfold quiescent. intros H. apply andb_true_iff in H as [H1 H2].
  apply bool_decide_eq_true in H1, H2. done.
Qed.

Lemma settle_Inv s :
  structural s -> (forall e, e_status s <> Dead e) -> Inv (settle s).
Proof.
  intros Hs Hnd. unfold settle. destruct (e_status s) as [| e | e] eqn:Est.
  - split.
    + apply structural_signalled; [done | apply signalled_cascade].
    + pose proof (cascade_all_settled (e_nodes s)) as Hset. apply settled_spec in Hset.
      split; [done |]. simpl. rewrite Est.
      split; [congruence |]. split; intros ? ?; discriminate.
  - set (m := cascade_all (e_nodes s)).
    assert (structural (with_nodes s (stop_layer m))) as Hs1.
    { apply structural_signalled; [done |].
      eapply signalled_trans; [apply signalled_cascade | apply signalled_stop_layer]. }
    assert (Hns : map_Forall (fun _ nd => needs_stop (stop_layer m) nd = false) (stop_layer m)).
    { apply stop_layer_settled, settled_spec, cascade_all_settled. }
    pose proof (stop_layer_resolved m) as Hlay.
    destruct (quiescent (with_nodes s (stop_layer m))) eqn:Hq.
    + split; [by apply structural_with_status |].
      apply quiescent_true in Hq as [Hl Hst]. unfold resolved.
      cbn [e_status e_nodes e_live with_nodes with_status] in *.
      split; [done |]. split; [intros _; done |].
      split; [intros ? ?; discriminate |]. intros ? _. done.
    + split; [done |]. unfold resolved. cbn [e_status e_nodes e_live with_nodes].
      rewrite Est. split; [done |]. split; [intros _; done |].
      split; [intros ? _; exact Hq | intros ? ?; discriminate].
  - exfalso. exact (Hnd e eq_refl).
Qed.

Lemma structural_replace s s' name (o : option Node) :
  structural s ->
  (forall n, n <> name -> e_nodes s' !! n = e_nodes s !! n) ->
  e_nodes s' !! name = o ->
  (forall w n, n <> name -> In (w, n) (e_live s') <-> In (w, n) (e_live s)) ->
  (forall w, In (w, name) (e_live s') <-> exists nd, o = Some nd /\ n_worker nd = Some w) ->
  NoDup (map snd (e_live s')) ->
  (forall nd, o = Some nd -> coherent nd) ->
  structural s'.
Proof.
  intros [HI [_ HC]] Hother Hname Hlive Hlive_name Hnd Hcoh.
  split; [| split; [done |]].
  - intros w n. destruct (decide (n = name)) as [-> | Hne].
    + rewrite Hlive_name, Hname. done.
    + rewrite Hlive, HI, Hother; done.
  - intros k nd Hk. destruct (decide (k = name)) as [-> | Hne].
    + apply Hcoh. congruence.
    + rewrite Hother in Hk; [| done]. exact (HC k nd Hk).
Qed.

Lemma structural_no_worker s name nd w :
  structural s -> e_nodes s !! name = Some nd -> n_worker nd = None ->
  ~ In (w, name) (e_live s).
Proof.
  intros [HI _] Hn Hw Hin. apply HI in Hin as [nd' [Hn' Hw']]. congruence.
Qed.

Lemma structural_absent s name w :
  structural s -> e_nodes s !! name = None -> ~ In (w, name) (e_live s).
Proof.
  intros [HI _] Hn Hin. apply HI in Hin as [nd' [Hn' _]]. congruence.
Qed.

Lemma NoDup_map_filter {A B} (f : A -> B) (p : A -> bool) (l : list A) :
  NoDup (map f l) -> NoDup (map f (List.filter p l)).
Proof.
  induction l as [|x l IH]; simpl; [done |].
  intros Hnd. apply NoDup_cons in Hnd as [Hx Hl].
  destruct (p x); simpl; [| auto].
  apply NoDup_cons. split; [| auto].
  intros Hin. apply Hx. apply list_elem_of_In in Hin. apply list_elem_of_In.
  apply in_map_iff in Hin as [y [<- Hy]]. apply in_map_iff. exists y. split; [done |].
  apply filter_In in Hy. tauto.
Qed.

Lemma with_nodes_insert_structural s name nd nd' :
  structural s -> e_nodes s !! name = Some nd ->
  n_worker nd' = n_worker nd -> coherent nd' ->
  structural (with_nodes s (<[name := nd']> (e_nodes s))).
Proof.
  intros Hs Hn Hw Hc. pose proof Hs as [HI [HN _]].
  apply (structural_replace s _ name (Some nd')); simpl; auto.
  - intros n Hne. by rewrite lookup_insert_ne.
  - by rewrite lookup_insert_eq.
  - intros w. rewrite HI, Hn. split; intros [x [Hx Hx']]; simplify_eq; eauto with congruence.
  - by intros ? [= <-].
Qed.

Lemma finish_structural s name nd nd' :
  structural s -> e_nodes s !! name = Some nd -> n_worker nd = None ->
  n_worker nd' = None -> coherent nd' -> structural (finish s name nd').
Proof.
  intros Hs Hn Hw Hw' Hc. unfold finish. destruct (n_remove nd').
  - apply (structural_replace s _ name None); simpl; auto.
    + intros n Hne. by rewrite lookup_delete_ne.
    + by rewrite lookup_delete_eq.
    + intros w. split; [intros Hin; exfalso; exact (structural_no_worker s name nd w Hs Hn Hw Hin)|].
      intros [? [? _]]; discriminate.
    + apply Hs.
    + intros ? ?; discriminate.
  - apply (with_nodes_insert_structural s name nd nd'); congruence.
Qed.

Lemma Inv_coherent s name nd : Inv s -> e_nodes s !! name = Some nd -> coherent nd.
Proof. intros [[_ [_ HC]] _] Hn. exact (HC name nd Hn). Qed.

Lemma Install_Inv s name m :
  Inv s -> (forall e, e_status s <> Dead e) -> Inv (fst (Install s name m)).
Proof.
  intros HI Hnd. pose proof HI as [Hs Hr]. unfold Install.
  destruct (bool_decide (is_Some (e_nodes s !! name))) eqn:Hex; [done |].
  apply bool_decide_eq_false in Hex.
  destruct (forallb _ _); [| done]. simpl.
  apply settle_Inv; [| done].
  apply (structural_replace s _ name (Some (fresh_node m))); simpl; auto.
  - intros n Hne. by rewrite lookup_insert_ne.
  - by rewrite lookup_insert_eq.
  - intros w. split.
    + intros Hin. exfalso. apply (structural_absent s name w Hs); [| done].
      destruct (e_nodes s !! name) eqn:E; [exfalso; apply Hex; eauto | done].
    + intros [nd [[= <-] Hw]]. discriminate.
  - apply Hs.
  - intros nd [= <-]. reflexivity.
Qed.

Lemma Uninstall_Inv s name :
  Inv s -> (forall e, e_status s <> Dead e) -> Inv (Uninstall s name).
Proof.
  intros HI Hnd. pose proof HI as [Hs Hr]. unfold Uninstall.
  destruct (e_nodes s !! name) as [nd|] eqn:Hn; [| done].
  pose proof (Inv_coherent s name nd HI Hn) as Hc.
  destruct (n_state nd) eqn:Hst; apply settle_Inv; try done;
    try (apply (finish_structural s name nd); try done;
         unfold coherent in *; rewrite Hst in Hc; simpl; rewrite ?Hst; done);
    (apply (with_nodes_insert_structural s name nd);
     [done | done | rewrite signal_stop_worker; done |
      apply coherent_signal_stop; unfold coherent in *; rewrite Hst in Hc; simpl; exact Hc]).
Qed.

Lemma TryStart_Inv s name :
  Inv s -> (forall e, e_status s <> Dead e) -> Inv (TryStart s name).
Proof.
  intros HI Hnd. pose proof HI as [Hs Hr]. unfold TryStart.
  destruct (e_status s) eqn:Est; [| done | done].
  destruct (e_nodes s !! name) as [nd|] eqn:Hn; [| done].
  match goal with |- Inv (if ?b then _ else _) => destruct b eqn:Hg end; [| done].
  apply andb_true_iff in Hg as [Hg _]. apply andb_true_iff in Hg as [_ Hw].
  apply bool_decide_eq_true in Hw.
  apply settle_Inv; [| intros e; simpl; rewrite Est; discriminate].
  apply (with_nodes_insert_structural s name nd); simpl; auto. reflexivity.
Qed.

Lemma StartOk_Inv s name out :
  Inv s -> (forall e, e_status s <> Dead e) -> Inv (StartOk s name out).
Proof.
  intros HI Hnd. pose proof HI as [Hs Hr]. pose proof Hs as [HL [HN _]]. unfold StartOk.
  destruct (e_nodes s !! name) as [nd|] eqn:Hn; [| done].
  destruct (bool_decide (n_state nd = Starting)) eqn:Hst; [| done].
  apply bool_decide_eq_true in Hst.
  pose proof (Inv_coherent s name nd HI Hn) as Hc. unfold coherent in Hc. rewrite Hst in Hc.
  apply settle_Inv; [| done].
  eapply (structural_replace s _ name (Some _)); simpl.
  - done.
  - intros n Hne. by rewrite lookup_insert_ne.
  - by rewrite lookup_insert_eq.
  - intros w n Hne. split; [intros [[= _ ->] | H]; [done | exact H] | auto].
  - intros w. split.
    + intros [[= <-] | Hin]; [eauto |].
      exfalso. exact (structural_no_worker s name nd w Hs Hn Hc Hin).
    + intros [nd' [[= <-] [= <-]]]. left. done.
  - constructor; [| done].
    intros Hin. apply list_elem_of_In, in_map_iff in Hin as [[w n] [Heq Hin]].
    simpl in Heq. subst n. exact (structural_no_worker s name nd w Hs Hn Hc Hin).
  - intros nd' [= <-]. unfold coherent. simpl.
    destruct (n_abort nd); simpl; eauto.
Qed.

Lemma StartFail_Inv s name err :
  Inv s -> (forall e, e_status s <> Dead e) -> Inv (StartFail s name err).
Proof.
  intros HI Hnd. pose proof HI as [Hs Hr]. unfold StartFail.
  destruct (e_nodes s !! name) as [nd|] eqn:Hn; [| done].
  destruct (bool_decide (n_state nd = Starting)) eqn:Hst; [| done].
  apply bool_decide_eq_true in Hst.
  pose proof (Inv_coherent s name nd HI Hn) as Hc. unfold coherent in Hc. rewrite Hst in Hc.
  apply settle_Inv.
  - apply (finish_structural s name nd); done.
  - unfold finish. destruct n_remove; simpl; done.
Qed.

Lemma Retry_Inv s name :
  Inv s -> (forall e, e_status s <> Dead e) -> Inv (Retry s name).
Proof.
  intros HI Hnd. pose proof HI as [Hs Hr]. unfold Retry.
  destruct (e_nodes s !! name) as [nd|] eqn:Hn; [| done].
  destruct (bool_decide (n_state nd = Errored)) eqn:Hst; [| done].
  apply bool_decide_eq_true in Hst.
  pose proof (Inv_coherent s name nd HI Hn) as Hc. unfold coherent in Hc. rewrite Hst in Hc.
  apply settle_Inv; [| done].
  apply (with_nodes_insert_structural s name nd); [done | done | done |].
  unfold coherent. simpl. done.
Qed.

Lemma Stop_Inv s :
  Inv s -> (forall e, e_status s <> Dead e) -> Inv (Stop s).
Proof.
  intros HI Hnd. pose proof HI as [Hs Hr]. unfold Stop.
  destruct (e_status s); [| done | done].
  apply settle_Inv; [exact Hs | intros e; discriminate].
Qed.

Lemma Reevaluate_Inv s name out :
  Inv s -> (forall e, e_status s <> Dead e) -> Inv (Reevaluate s name out).
Proof.
  intros HI Hnd. pose proof HI as [Hs Hr]. unfold Reevaluate.
  destruct (e_nodes s !! name) as [nd|] eqn:Hn; [| done].
  pose proof (Inv_coherent s name nd HI Hn) as Hc. unfold coherent in Hc.
  destruct (n_state nd) eqn:Hst; try done.
  destruct (n_output nd) as [old|]; [| done].
  destruct (output_equal s name old out); [done |].
  apply settle_Inv; [| done].
  match goal with |- structural (with_nodes s (?f <$> (<[name := ?nd']> (e_nodes s)))) =>
    assert (structural (with_nodes s (<[name := nd']> (e_nodes s)))) as Hs1;
    [ apply (with_nodes_insert_structural s name nd); [done | done | done |];
      unfold coherent; simpl; destruct Hc; eauto
    | apply (structural_signalled (with_nodes s (<[name := nd']> (e_nodes s))) _ Hs1);
      apply signalled_fmap; intros d; destruct (bool_decide _); auto ]
  end.
Qed.

Lemma pair_eqb_true p q : pair_eqb p q = true <-> p = q.
Proof. unfold pair_eqb. apply bool_decide_eq_true. Qed.

Lemma record_fatal_not_dead st e :
  (forall e', st <> Dead e') -> forall e', record_fatal st e <> Dead e'.
Proof. destruct st as [| [] |]; simpl; intros H e'; try discriminate. apply H. Qed.

Lemma Exit_Inv s name err :
  Inv s -> (forall e, e_status s <> Dead e) -> Inv (Exit s name err).
Proof.
  intros HI Hnd. pose proof HI as [Hs Hr]. pose proof Hs as [HL [HN _]]. unfold Exit.
  destruct (e_nodes s !! name) as [nd|] eqn:Hn; [| done].
  destruct (n_worker nd) as [w|] eqn:Hw; [| done].
  destruct (existsb (pair_eqb (w, name)) (e_live s)) eqn:Hex; [| done].
  apply settle_Inv.
  - match goal with |- structural (finish ?s1 name ?nd') =>
      apply (structural_replace s (finish s1 name nd') name
               (if n_remove nd' then None else Some nd')) end.
    + done.
    + intros n Hne. unfold finish. destruct n_remove; simpl.
      * by rewrite lookup_delete_ne.
      * by rewrite lookup_insert_ne.
    + unfold finish. destruct n_remove; simpl.
      * by rewrite lookup_delete_eq.
      * by rewrite lookup_insert_eq.
    + intros w' n Hne. unfold finish. destruct n_remove; simpl;
        rewrite filter_In, negb_true_iff; split; [tauto | | tauto |];
        intros Hin; split; [done | | done |];
        apply not_true_iff_false; rewrite pair_eqb_true; congruence.
    + intros w'. unfold finish. destruct n_remove eqn:Hrm; simpl;
        rewrite filter_In, negb_true_iff; (split; [| intros [? [? Hw']]; try discriminate]);
        try (intros [Hin Hne]; apply HL in Hin as [nd0 [Hn0 Hw0]];
             rewrite Hn0 in Hn; injection Hn as <-; rewrite Hw in Hw0; injection Hw0 as <-;
             rewrite (proj2 (pair_eqb_true _ _) eq_refl) in Hne; discriminate).
      injection H as <-. simpl in Hw'. discriminate.
    + unfold finish. destruct n_remove; simpl; by apply NoDup_map_filter.
    + intros nd' Hnd'. destruct n_remove; [discriminate |]. injection Hnd' as <-.
      unfold coherent. simpl.
      destruct (n_state nd); simpl; try reflexivity;
        destruct err as [e|]; simpl; try reflexivity; destruct (classify s name e); reflexivity.
  - unfold finish. destruct n_remove; simpl;
      (destruct err as [e|]; simpl; [| done]);
      (destruct (classify s name e); simpl; [apply record_fatal_not_dead |..]; done).
Qed.

Lemma step_Inv s ev : Inv s -> Inv (step s ev).
Proof.
  intros HI. unfold step. destruct (e_status s) as [| e | e] eqn:Est; [..| done];
    (assert (forall e', e_status s <> Dead e') as Hnd by (intros e'; rewrite Est; discriminate));
    destruct ev; auto using Install_Inv, Uninstall_Inv, TryStart_Inv, StartOk_Inv,
      StartFail_Inv, Exit_Inv, Reevaluate_Inv, Retry_Inv, Stop_Inv.
Qed.

Lemma init_Inv : Inv init.
Proof.
  split.
  - split; [| split].
    + intros w n. simpl. split; [intros [] | intros [nd [Hn _]]].
      by rewrite lookup_empty in Hn.
    + constructor.
    + apply map_Forall_empty.
  - split; [apply map_Forall_empty |]. split; [intros H; by destruct H |].
    split; intros ? ?; discriminate.
Qed.

Lemma run_Inv s evs : Inv s -> Inv (run s evs).
Proof.
  revert s. induction evs as [|ev evs IH]; intros s HI; simpl; [done |].
  apply IH. by apply step_Inv.
Qed.

Lemma settle_live s : e_live (settle s) = e_live s.
Proof. unfold settle. destruct (e_status s); [done | | done]. destruct quiescent; done. Qed.

Lemma finish_live s name nd : e_live (finish s name nd) = e_live s.
Proof. unfold finish. by destruct n_remove. Qed.

Lemma step_live s ev p :
  In p (e_live (step s ev)) ->
  In p (e_live s) \/
  exists name nd, e_nodes s !! name = Some nd /\ n_state nd = Starting /\ p = (e_next s, name).
Proof.
  unfold step. destruct (e_status s) as [| se | se]; [| | auto]; destruct ev as [name m|name|name|name out|name err|name err|name out|name|];
  simpl;
  try (unfold Install; destruct bool_decide; [simpl; auto | destruct forallb; simpl; [rewrite settle_live; auto | auto]]);
  try (unfold Uninstall; destruct (e_nodes s !! name) as [nd|]; [| auto];
       destruct (n_state nd); rewrite settle_live, ?finish_live; auto);
  try (unfold TryStart; repeat case_match; rewrite ?settle_live; auto);
  try (unfold StartOk; destruct (e_nodes s !! name) as [nd|] eqn:Hn; [| auto];
       destruct (bool_decide (n_state nd = Starting)) eqn:Hst; [| auto];
       rewrite settle_live; simpl; intros [<- | Hin]; [right | left; done];
       apply bool_decide_eq_true in Hst; eauto);
  try (unfold StartFail; repeat case_match; rewrite ?settle_live, ?finish_live; auto);
  try (unfold Exit; repeat case_match; rewrite ?settle_live, ?finish_live; simpl;
       try (rewrite filter_In; tauto); auto);
  try (unfold Reevaluate; repeat case_match; rewrite ?settle_live; auto);
  try (unfold Retry; repeat case_match; rewrite ?settle_live; auto);
  try (unfold Stop; repeat case_match; rewrite ?settle_live; auto).
Qed.

Lemma inputs_started_spec (m : gmap string Node) ins :
  inputs_started m ins = true ->
  forall i, i ∈ ins -> exists ndi, m !! i = Some ndi /\ n_state ndi = Started.
Proof.
  unfold inputs_started. rewrite forallb_forall. intros H i Hi.
  apply list_elem_of_In in Hi. specialize (H i Hi).
  destruct (m !! i) as [ndi|]; [| discriminate].
  exists ndi. split; [done |]. unfold is_started in H. by apply bool_decide_eq_true in H.
Qed.

Lemma Inv_started s n nd :
  Inv s -> e_nodes s !! n = Some nd -> n_state nd = Started ->
  (exists w, n_worker nd = Some w /\ In (w, n) (e_live s)) /\
  (forall i, i ∈ n_inputs nd -> exists ndi, e_nodes s !! i = Some ndi /\ n_state ndi = Started).
Proof.
  intros HI Hn Hst. pose proof HI as [[HL [_ HC]] [HR _]]. split.
  - pose proof (HC n nd Hn) as Hc. unfold coherent in Hc. rewrite Hst in Hc.
    destruct Hc as [[w Hw] _]. exists w. split; [done |]. apply HL. eauto.
  - apply inputs_started_spec.
    pose proof (HR n nd Hn) as Hns. unfold needs_stop, is_started in Hns.
    rewrite (bool_decide_eq_true_2 _ Hst) in Hns. simpl in Hns.
    rewrite andb_true_r in Hns. by apply negb_false_iff in Hns.
Qed.

(** C1: in every reachable state, a [started] node has a live worker, and
    each of its declared inputs is installed and [started]. *)
Theorem started_only_with_started_inputs (evs : list Event) (n : string) (nd : Node)
    (Hn : e_nodes (run init evs) !! n = Some nd) (Hst : n_state nd = Started) :
  (exists w, n_worker nd = Some w /\ In (w, n) (e_live (run init evs))) /\
  (forall i, i ∈ n_inputs nd ->
   exists ndi, e_nodes (run init evs) !! i = Some ndi /\ n_state ndi = Started).
Proof. apply Inv_started; [apply run_Inv, init_Inv | done | done]. Qed.

(** C2: in every reachable state the live workers belong to distinct
    nodes, and a step adds a live worker for a node only when that node
    had no live worker before. *)
Theorem at_most_one_live_worker_per_node (evs : list Event) (ev : Event) :
  NoDup (map snd (e_live (run init evs))) /\
  (forall w n, In (w, n) (e_live (step (run init evs) ev)) ->
   ~ In (w, n) (e_live (run init evs)) ->
   forall w', ~ In (w', n) (e_live (run init evs))).
Proof.
  pose proof (run_Inv init evs init_Inv) as HI. pose proof HI as [[HL [HN HC]] _].
  split; [done |].
  intros w n Hin Hnot w' Hin'.
  destruct (step_live _ ev _ Hin) as [Hold | [name [nd [Hn [Hst Heq]]]]]; [contradiction |].
  injection Heq as _ Hnm. subst n.
  pose proof (HC name nd Hn) as Hc. unfold coherent in Hc. rewrite Hst in Hc.
  exact (structural_no_worker _ name nd w' (proj1 HI) Hn Hc Hin').
Qed.

Lemma snapshot_lookup s name :
  snapshot s !! name =
  match e_nodes s !! name with
  | Some nd => if is_started nd then n_output nd else None
  | None => None
  end.
Proof. unfold snapshot. rewrite lookup_omap. by destruct (e_nodes s !! name). Qed.

(** C3: for the context of an installed node and one of its declared
    inputs [name], [Context.Get(name, &out)] copies the output of [name]
    exactly when [name] is [started] with an output compatible with
    [out]'s type; it fails with [ErrMissing] exactly when [name] is not
    [started], and with [ErrTypeMismatch] exactly when the output is of an
    incompatible type. *)
Theorem context_get_results (evs : list Event) (d : string) (ctx : Context)
    (name : string) (target : GoType)
    (Hctx : context_of (run init evs) d = Some ctx) (Hdecl : name ∈ ctx_inputs ctx) :
  (forall v, ContextGet ctx name target = inr v <->
     exists nd, e_nodes (run init evs) !! name = Some nd /\ n_state nd = Started /\
                n_output nd = Some v /\ type_compatible v target = true) /\
  (ContextGet ctx name target = inl ErrMissing <->
     ~ exists nd, e_nodes (run init evs) !! name = Some nd /\ n_state nd = Started) /\
  (ContextGet ctx name target = inl ErrTypeMismatch <->
     exists nd v, e_nodes (run init evs) !! name = Some nd /\ n_state nd = Started /\
                  n_output nd = Some v /\ type_compatible v target = false).
Proof.
  pose proof (run_Inv init evs init_Inv) as HI.
  unfold context_of in Hctx.
  destruct (e_nodes (run init evs) !! d); [| discriminate]. injection Hctx as <-.
  unfold ContextGet, Get. simpl. rewrite snapshot_lookup.
  destruct (e_nodes (run init evs) !! name) as [nd|] eqn:Hn.
  - pose proof (Inv_coherent _ _ _ HI Hn) as Hc. unfold coherent, is_started in *.
    destruct (decide (n_state nd = Started)) as [Hst | Hst].
    + rewrite (bool_decide_eq_true_2 _ Hst). rewrite Hst in Hc.
      destruct Hc as [_ [v0 Hv0]]. rewrite Hv0.
      destruct (type_compatible v0 target) eqn:Htc.
      * split; [| split].
        -- intros v. split; [intros [= <-]; eauto 10 |].
           intros [nd' [[= <-] [_ [Hv Ht]]]]. congruence.
        -- split; [discriminate | intros Hno; exfalso; eauto].
        -- split; [discriminate | intros [nd' [v [[= <-] [_ [Hv Ht]]]]]; congruence].
      * split; [| split].
        -- intros v. split; [discriminate |].
           intros [nd' [[= <-] [_ [Hv Ht]]]]. congruence.
        -- split; [discriminate | intros Hno; exfalso; eauto].
        -- split; [intros _; eauto 10 | done].
    + rewrite (bool_decide_eq_false_2 _ Hst).
      split; [| split].
      * intros v. split; [discriminate |]. intros [nd' [[= <-] [Hs _]]]. contradiction.
      * split; [intros _ [nd' [[= <-] Hs]]; contradiction | done].
      * split; [discriminate |]. intros [nd' [v [[= <-] [Hs _]]]]. contradiction.
  - split; [| split].
    + intros v. split; [discriminate |]. intros [nd' [Hn' _]]. discriminate.
    + split; [intros _ [nd' [Hn' _]]; discriminate | done].
    + split; [discriminate |]. intros [nd' [v [Hn' _]]]. discriminate.
Qed.

Lemma settle_status s :
  e_status (settle s) = e_status s \/
  exists x, e_status s = Dying x /\ e_status (settle s) = Dead x.
Proof.
  unfold settle. destruct (e_status s) as [| x | x] eqn:E; simpl; rewrite ?E; auto.
  destruct quiescent; simpl; rewrite ?E; eauto.
Qed.

Lemma finish_status s name nd : e_status (finish s name nd) = e_status s.
Proof. unfold finish. by destruct n_remove. Qed.

Lemma settle_kept' s1 st :
  e_status s1 = st ->
  e_status (settle s1) = st \/
  exists x, st = Dying x /\ e_status (settle s1) = Dead x.
Proof. intros H. rewrite <- H. apply settle_status. Qed.

Ltac kept_tac :=
  repeat case_match; cbn [fst];
  first [ left; congruence
        | apply settle_kept'; rewrite ?finish_status; simpl; congruence ].

Lemma events_kept s ev :
  (forall n e, ev <> EvExit n (Some e)) -> ev <> EvStop ->
  let s' := match ev with
            | EvInstall name m => fst (Install s name m)
            | EvUninstall name => Uninstall s name
            | EvTryStart name => TryStart s name
            | EvStartOk name out => StartOk s name out
            | EvStartFail name err => StartFail s name err
            | EvExit name err => Exit s name err
            | EvReevaluate name out => Reevaluate s name out
            | EvRetry name => Retry s name
            | EvStop => Stop s
            end in
  e_status s' = e_status s \/ exists x, e_status s = Dying x /\ e_status s' = Dead x.
Proof.
  intros Hex Hstop. destruct ev as [name m|name|name|name out|name err|name [e|]|name out|name|];
    simpl; try (exfalso; by apply Hstop); try (exfalso; by eapply Hex).
  - unfold Install. kept_tac.
  - unfold Uninstall. kept_tac.
  - unfold TryStart. kept_tac.
  - unfold StartOk. kept_tac.
  - unfold StartFail. kept_tac.
  - unfold Exit. kept_tac.
  - unfold Reevaluate. kept_tac.
  - unfold Retry. kept_tac.
Qed.

Lemma Exit_status s name err :
  e_status (Exit s name err) = e_status s \/
  (exists x, e_status s = Dying x /\ e_status (Exit s name err) = Dead x) \/
  (exists e, err = Some e /\ classify s name e = Fatal /\
   (e_status (Exit s name err) = record_fatal (e_status s) e \/
    exists x, record_fatal (e_status s) e = Dying x /\ e_status (Exit s name err) = Dead x)).
Proof.
  unfold Exit. repeat case_match; try (left; reflexivity); subst;
    match goal with |- context [settle ?s1] =>
      destruct (settle_status s1) as [Hk | Hk]; rewrite ?finish_status in Hk; simpl in Hk
    end; simplify_eq; eauto 10.
Qed.

Lemma step_dead s ev x : e_status s = Dead x -> step s ev = s.
Proof. intros H. unfold step. rewrite H. reflexivity. Qed.

Lemma step_not_dead s ev :
  (forall x, e_status s <> Dead x) ->
  step s ev = match ev with
              | EvInstall name m => fst (Install s name m)
              | EvUninstall name => Uninstall s name
              | EvTryStart name => TryStart s name
              | EvStartOk name out => StartOk s name out
              | EvStartFail name err => StartFail s name err
              | EvExit name err => Exit s name err
              | EvReevaluate name out => Reevaluate s name out
              | EvRetry name => Retry s name
              | EvStop => Stop s
              end.
Proof. intros H. unfold step. destruct (e_status s) eqn:E; [reflexivity | reflexivity | exfalso; by eapply H]. Qed.

Lemma step_status_cases s ev :
  e_status (step s ev) = e_status s \/
  (exists x, e_status s = Dying x /\ e_status (step s ev) = Dead x) \/
  (ev = EvStop /\ e_status s = Running /\
   (e_status (step s ev) = Dying None \/ e_status (step s ev) = Dead None)) \/
  (exists n e, ev = EvExit n (Some e) /\ classify s n e = Fatal /\
   (e_status (step s ev) = record_fatal (e_status s) e \/
    exists x, record_fatal (e_status s) e = Dying x /\ e_status (step s ev) = Dead x)).
Proof.
  assert (Hcase : (exists x, e_status s = Dead x) \/ forall x, e_status s <> Dead x)
    by (destruct (e_status s); eauto; right; congruence).
  destruct Hcase as [[x Hx] | Hnd].
  { rewrite (step_dead s ev x Hx). left; reflexivity. }
  rewrite (step_not_dead s ev Hnd).
  pose proof (events_kept s ev) as Hk.
  destruct ev as [name m|name|name|name out|name err|name err|name out|name|].
  6: { destruct (Exit_status s name err) as [Hk' | [Hk' | [e [-> [Hc Hk']]]]];
       [left; exact Hk' | right; left; exact Hk' | right; right; right; eauto 10]. }
  8: { unfold Stop. destruct (e_status s) eqn:Est; [ | left; rewrite Est; reflexivity | left; rewrite Est; reflexivity ].
       destruct (settle_status (with_status s (Dying None))) as [Hs | [x [Hx Hs]]];
         simpl in *; [right; right; left; auto | injection Hx as <-; right; right; left; auto]. }
  all: destruct Hk as [Hk | Hk];
     [ intros ? ? ?; discriminate | discriminate | left; exact Hk | right; left; exact Hk ].
Qed.



Lemma fatal_status_step s ev e :
  e_status s = Dying (Some e) \/ e_status s = Dead (Some e) ->
  e_status (step s ev) = Dying (Some e) \/ e_status (step s ev) = Dead (Some e).
Proof.
  intros Hs.
  destruct (step_status_cases s ev) as [H | [[x [Hx H]] | [[_ [Hr _]] | [n [e' [_ [_ H]]]]]]].
  - rewrite H. exact Hs.
  - destruct Hs as [Hs | Hs]; rewrite Hs in Hx; [injection Hx as <-; auto | discriminate].
  - destruct Hs as [Hs | Hs]; congruence.
  - destruct Hs as [Hs | Hs]; rewrite Hs in H; simpl in H.
    + destruct H as [H | [x [Hx H]]]; [auto | injection Hx as <-; auto].
    + destruct H as [H | [x [Hx H]]]; [auto | discriminate].
Qed.

Lemma fatal_status_run s evs e :
  e_status s = Dying (Some e) \/ e_status s = Dead (Some e) ->
  e_status (run s evs) = Dying (Some e) \/ e_status (run s evs) = Dead (Some e).
Proof.
  revert s. induction evs as [|ev evs IH]; intros s Hs; simpl; [done |].
  apply IH. by apply fatal_status_step.
Qed.

Lemma Exit_fatal_records s n w e :
  Inv s -> In (w, n) (e_live s) -> classify s n e = Fatal ->
  e_status s = Running \/ e_status s = Dying None ->
  e_status (step s (EvExit n (Some e))) = Dying (Some e) \/
  e_status (step s (EvExit n (Some e))) = Dead (Some e).
Proof.
  intros [[Hlive _] _] Hin Hcls Hst.
  destruct (proj1 (Hlive w n) Hin) as [nd [Hnd Hw]].
  assert (Hnd' : forall x, e_status s <> Dead x) by (intros x; destruct Hst as [-> | ->]; discriminate).
  rewrite (step_not_dead s _ Hnd'). unfold Exit. rewrite Hnd, Hw.
  assert (Hex : existsb (pair_eqb (w, n)) (e_live s) = true).
  { apply existsb_exists. exists (w, n). split; [exact Hin | by apply pair_eqb_true]. }
  rewrite Hex, Hcls.
  match goal with |- context [settle ?s1] =>
    destruct (settle_status s1) as [Hk | [x [Hx Hk]]]
  end;
  [ rewrite Hk, finish_status; simpl; destruct Hst as [-> | ->]; auto
  | rewrite finish_status in Hx; simpl in Hx; rewrite Hk;
    destruct Hst as [Hst | Hst]; rewrite Hst in Hx; injection Hx as <-; auto ].
Qed.

Lemma fatal_origin evs e :
  e_status (run init evs) = Dying (Some e) \/ e_status (run init evs) = Dead (Some e) ->
  exists pre n post, evs = pre ++ EvExit n (Some e) :: post /\
                     classify (run init pre) n e = Fatal.
Proof.
  induction evs as [|ev evs IH] using rev_ind; intros Hs.
  - destruct Hs as [Hs | Hs]; discriminate.
  - unfold run in Hs |- *. rewrite fold_left_app in Hs. simpl in Hs.
    fold (run init evs) in Hs |- *.
    assert (Hpre : e_status (run init evs) = Dying (Some e) \/
                   e_status (run init evs) = Dead (Some e) ->
                   exists pre n post, evs ++ [ev] = pre ++ EvExit n (Some e) :: post /\
                                      classify (fold_left step pre init) n e = Fatal).
    { intros H. destruct (IH H) as [pre [n [post [-> Hc]]]].
      exists pre, n, (post ++ [ev]). split; [by rewrite <- app_assoc | exact Hc]. }
    destruct (step_status_cases (run init evs) ev)
      as [H | [[x [Hx H]] | [[_ [_ H]] | [n [e' [-> [Hc H]]]]]]].
    + apply Hpre. rewrite <- H. exact Hs.
    + apply Hpre. destruct Hs as [Hs | Hs]; rewrite Hs in H; [discriminate |].
      injection H as ->. auto.
    + destruct Hs as [Hs | Hs]; destruct H as [H | H]; congruence.
    + destruct (e_status (run init evs)) as [| [e0|] | x0] eqn:Est; simpl in H.
      * assert (e' = e) as ->.
        { destruct Hs as [Hs | Hs]; destruct H as [H | [x [Hx H]]]; congruence. }
        exists evs, n, []. split; [reflexivity | exact Hc].
      * apply Hpre. left. destruct Hs as [Hs | Hs]; destruct H as [H | [x [Hx H]]]; congruence.
      * assert (e' = e) as ->.
        { destruct Hs as [Hs | Hs]; destruct H as [H | [x [Hx H]]]; congruence. }
        exists evs, n, []. split; [reflexivity | exact Hc].
      * apply Hpre. destruct H as [H | [x [Hx H]]]; [| discriminate].
        destruct Hs as [Hs | Hs]; [congruence | right; congruence].
Qed.

(** C4 (amended): once a worker completes with an error its node's
    [filter] classifies as fatal while the engine is running (or stopping
    without an error yet), the engine keeps that error: from then on every
    state is either still stopping with that error, with some worker or
    start still pending and every node that is still [started] (or whose
    start is not cancelled) declared as an input by some node whose start
    or worker is still in flight, so that nodes are stopped dependents
    first; or terminated, where [Wait] returns that error, no worker is
    live and no node is [started] or starting.  The engine no longer
    calls [start] for any node.  Conversely, [Wait] returns a non-nil error only if a worker
    completed with it and its node's [filter] classified it as fatal.  Of
    several fatal errors, the first one is kept. *)
Theorem fatal_error_terminates_engine (evs evs' : list Event) (n : string) (w : nat) (e : GoError)
  (Hlive : In (w, n) (e_live (run init evs)))
  (Hcls : classify (run init evs) n e = Fatal)
  (Hfirst : e_status (run init evs) = Running \/ e_status (run init evs) = Dying None) :
  let s' := run init (evs ++ EvExit n (Some e) :: evs') in
  ((e_status s' = Dying (Some e) /\ Wait s' = None /\ quiescent s' = false /\
    map_Forall (fun k nd => n_state nd = Started \/ (n_state nd = Starting /\ n_abort nd = false) ->
                  exists d ndd, e_nodes s' !! d = Some ndd /\ k ∈ n_inputs ndd /\
                                in_flight ndd = true) (e_nodes s')) \/
   (e_status s' = Dead (Some e) /\ Wait s' = Some (Some e) /\ e_live s' = [] /\
    map_Forall (fun _ nd => n_state nd <> Started /\ n_state nd <> Starting) (e_nodes s'))) /\
  (forall k, step s' (EvTryStart k) = s') /\
  (forall tr e', Wait (run init tr) = Some (Some e') ->
   exists pre m post, tr = pre ++ EvExit m (Some e') :: post /\
                      classify (run init pre) m e' = Fatal).
Proof.
  intros s'.
  assert (HI : Inv s') by (apply run_Inv, init_Inv).
  assert (Hs : e_status s' = Dying (Some e) \/ e_status s' = Dead (Some e)).
  { unfold s', run. rewrite fold_left_app. simpl.
    apply fatal_status_run. eapply Exit_fatal_records; eauto. apply run_Inv, init_Inv. }
  split; [| split].
  - pose proof HI as [_ [_ [Hstop [Hdying Hdead]]]].
    destruct Hs as [Hs | Hs].
    + left. unfold Wait. rewrite Hs. split; [done | split; [done | split]].
      * by eapply Hdying.
      * intros k nd Hk Hu. apply has_live_dependent_spec.
        apply (Hstop ltac:(rewrite Hs; discriminate) k nd Hk Hu).
    + right. unfold Wait. rewrite Hs. destruct (Hdead _ Hs) as [Hl Hns].
      split; [done | split; [done | split; [done |]]].
      intros k nd Hk. split; [| exact (Hns k nd Hk)].
      intros Hst. destruct (Inv_started s' k nd HI Hk Hst) as [[w' [_ Hin]] _].
      rewrite Hl in Hin. contradiction.
  - intros k. unfold step. destruct Hs as [Hs | Hs]; rewrite Hs; [| done].
    unfold TryStart. by rewrite Hs.
  - intros tr e' Hw. apply fatal_origin. unfold Wait in Hw.
    destruct (e_status (run init tr)) eqn:E; try discriminate. injection Hw as ->. auto.
Qed.

Lemma inputs_started_ext (m m' : gmap string Node) ins :
  (forall i, i ∈ ins -> m !! i = m' !! i) -> inputs_started m ins = inputs_started m' ins.
Proof.
  unfold inputs_started. induction ins as [|i ins IH]; intros H; simpl; [done |].
  rewrite (H i) by set_solver. f_equal. apply IH. intros j Hj. apply H. set_solver.
Qed.

Lemma needs_stop_ext (m m' : gmap string Node) nd :
  (forall i, i ∈ n_inputs nd -> m !! i = m' !! i) -> needs_stop m nd = needs_stop m' nd.
Proof. intros H. unfold needs_stop. by rewrite (inputs_started_ext m m'). Qed.

Lemma cascade_frame (P : string -> Prop) (m0 : gmap string Node) :
  (forall k ndk, P k -> m0 !! k = Some ndk ->
     (forall i, i ∈ n_inputs ndk -> P i) /\ needs_stop m0 ndk = false) ->
  forall fuel m, (forall k, P k -> m !! k = m0 !! k) ->
  forall k, P k -> cascade fuel m !! k = m0 !! k.
Proof.
  intros H0 fuel. induction fuel as [|f IH]; intros m Hm; simpl; [exact Hm |].
  destruct (settled m); [exact Hm |].
  apply IH. intros k Hk. unfold pass. rewrite lookup_fmap, (Hm k Hk).
  destruct (m0 !! k) as [ndk|] eqn:Hk0; [| done]. simpl.
  destruct (H0 k ndk Hk Hk0) as [Hin Hns].
  rewrite (needs_stop_ext m m0); [by rewrite Hns |].
  intros i Hi. apply Hm, Hin, Hi.
Qed.

Lemma Inv_started_not_dead s n nd e :
  Inv s -> e_nodes s !! n = Some nd -> n_state nd = Started -> e_status s <> Dead e.
Proof.
  intros HI Hn Hst Hd. destruct (Inv_started s n nd HI Hn Hst) as [[w [_ Hin]] _].
  pose proof HI as [_ [_ [_ [_ Hdead]]]]. destruct (Hdead e Hd) as [Hl _].
  rewrite Hl in Hin. contradiction.
Qed.

Lemma Inv_active_inputs s d ndd :
  Inv s -> e_nodes s !! d = Some ndd ->
  (n_state ndd = Started \/ (n_state ndd = Starting /\ n_abort ndd = false)) ->
  inputs_started (e_nodes s) (n_inputs ndd) = true.
Proof.
  intros [_ [HR _]] Hd Hact. pose proof (HR d ndd Hd) as Hns.
  unfold needs_stop, is_started in Hns.
  destruct Hact as [H | [H Ha]].
  - rewrite (bool_decide_eq_true_2 _ H) in Hns. rewrite orb_true_l, andb_true_r in Hns.
    by apply negb_false_iff in Hns.
  - rewrite H, Ha in Hns. simpl in Hns. rewrite andb_true_r in Hns.
    by apply negb_false_iff in Hns.
Qed.

Section Bounce.
Variables (s : Engine) (n : string) (nd nd' : Node).
Hypothesis HI : Inv s.
Hypothesis Hn : e_nodes s !! n = Some nd.
Hypothesis Hst : n_state nd = Started.
Hypothesis Hin' : n_inputs nd' = n_inputs nd.
Hypothesis Hst' : n_state nd' = Started.

Local Notation nodes2 :=
  ((fun d => if bool_decide (n ∈ n_inputs d) then signal_stop d else d)
     <$> <[n := nd']> (e_nodes s)).

Lemma bounce_indep k :
  ~ depends s k n -> k <> n -> nodes2 !! k = e_nodes s !! k.
Proof.
  intros Hd Hk. rewrite lookup_fmap, lookup_insert_ne by congruence.
  destruct (e_nodes s !! k) as [ndk|] eqn:E; [| done]. simpl.
  rewrite bool_decide_eq_false_2; [done |].
  intros Hi. apply Hd. by eapply depends_direct.
Qed.

Lemma bounce_frame k ndk :
  ~ depends s k n -> nodes2 !! k = Some ndk ->
  (forall i, i ∈ n_inputs ndk -> ~ depends s i n) /\ needs_stop nodes2 ndk = false.
Proof.
  intros Hd Hk.
  assert (Hgen : forall ndk0, e_nodes s !! k = Some ndk0 ->
            (forall i, i ∈ n_inputs ndk0 -> ~ depends s i n /\ i <> n)).
  { intros ndk0 E i Hi. split.
    - intros Hdi. apply Hd. by eapply depends_trans.
    - intros ->. apply Hd. by eapply depends_direct. }
  destruct (decide (k = n)) as [-> | Hkn].
  - rewrite lookup_fmap, lookup_insert_eq in Hk. simpl in Hk.
    rewrite Hin', bool_decide_eq_false_2 in Hk by
      (intros Hi; apply Hd; by eapply depends_direct).
    injection Hk as <-. rewrite Hin'.
    split; [intros i Hi; by apply (Hgen nd Hn) |].
    rewrite (needs_stop_ext nodes2 (e_nodes s)).
    + unfold needs_stop. rewrite Hin'.
      rewrite (Inv_active_inputs s n nd HI Hn (or_introl Hst)). done.
    + intros i Hi. rewrite Hin' in Hi. destruct (Hgen nd Hn i Hi).
      by apply bounce_indep.
  - rewrite bounce_indep in Hk by done.
    split; [intros i Hi; by apply (Hgen ndk Hk) |].
    rewrite (needs_stop_ext nodes2 (e_nodes s)).
    + destruct HI as [_ [HR _]]. exact (HR k ndk Hk).
    + intros i Hi. destruct (Hgen ndk Hk i Hi). by apply bounce_indep.
Qed.

Lemma bounce_cascade_indep k :
  ~ depends s k n -> cascade_all nodes2 !! k = nodes2 !! k.
Proof.
  intros Hd. unfold cascade_all.
  refine (cascade_frame (fun k => ~ depends s k n) nodes2 _ _ nodes2 (fun _ _ => eq_refl) k Hd).
  intros k' ndk' Hk' E. exact (bounce_frame k' ndk' Hk' E).
Qed.

Lemma bounce_live_dependent k :
  has_live_dependent (cascade_all nodes2) k = has_live_dependent (e_nodes s) k.
Proof.
  rewrite (has_live_dependent_signalled nodes2) by apply signalled_cascade.
  rewrite (has_live_dependent_signalled (<[n := nd']> (e_nodes s))).
  - apply (has_live_dependent_insert _ n nd); [done | done |]. unfold in_flight. by rewrite Hst, Hst'.
  - apply signalled_fmap. intros d. destruct (bool_decide _); auto.
Qed.

(** During shutdown, a node the bounce left alone is not signalled by
    the shutdown layer either. *)
Lemma bounce_layer_keep k x :
  e_status s <> Running -> cascade_all nodes2 !! k = Some x ->
  (forall ndk, e_nodes s !! k = Some ndk -> unsignalled x -> unsignalled ndk) ->
  stop_layer (cascade_all nodes2) !! k = Some x.
Proof.
  intros Hnr Hk Hu. apply stop_layer_keep; [done |]. intros Hux.
  rewrite bounce_live_dependent.
  destruct (e_nodes s !! k) as [ndk|] eqn:E.
  - pose proof HI as [_ [_ [HR2 _]]]. exact (HR2 Hnr k ndk E (Hu ndk eq_refl Hux)).
  - exfalso. pose proof (signalled_cascade (S (size nodes2)) nodes2 k) as Hsig.
    fold (cascade_all nodes2) in Hsig. rewrite Hk in Hsig.
    assert (Hkn : k <> n) by congruence.
    rewrite lookup_fmap, lookup_insert_ne, E in Hsig by congruence. exact Hsig.
Qed.

Lemma bounce_dependents k ndk :
  map_Forall (fun _ x => needs_stop (cascade_all nodes2) x = false) (cascade_all nodes2) ->
  depends s k n -> k <> n -> e_nodes s !! k = Some ndk ->
  cascade_all nodes2 !! k = Some (signal_stop ndk).
Proof.
  intros HR' Hd. remember n as t eqn:Ht. revert ndk.
  induction Hd as [d ndd n0 Hdd Hi | d ndd x n0 Hdd Hx Hdx IH];
    intros ndk Hdn Hk; subst n0; rewrite Hdd in Hk; injection Hk as <-.
  - (* direct *)
    pose proof (signalled_cascade (S (size nodes2)) nodes2 d) as Hsig.
    unfold cascade_all. 
    assert (E : nodes2 !! d = Some (signal_stop ndd)).
    { rewrite lookup_fmap, lookup_insert_ne, Hdd by congruence. simpl.
      by rewrite bool_decide_eq_true_2. }
    rewrite E in Hsig. destruct (cascade _ nodes2 !! d); [| done].
    destruct Hsig as [-> | ->]; by rewrite ?signal_stop_idem.
  - (* through an input *)
    destruct (decide (n ∈ n_inputs ndd)) as [Hi | Hi].
    { pose proof (signalled_cascade (S (size nodes2)) nodes2 d) as Hsig.
      unfold cascade_all.
      assert (E : nodes2 !! d = Some (signal_stop ndd)).
      { rewrite lookup_fmap, lookup_insert_ne, Hdd by congruence. simpl.
        by rewrite bool_decide_eq_true_2. }
      rewrite E in Hsig. destruct (cascade _ nodes2 !! d); [| done].
      destruct Hsig as [-> | ->]; by rewrite ?signal_stop_idem. }
    assert (Hxn : x <> n) by (intros ->; contradiction).
    assert (E : nodes2 !! d = Some ndd).
    { rewrite lookup_fmap, lookup_insert_ne, Hdd by congruence. simpl.
      by rewrite bool_decide_eq_false_2. }
    pose proof (signalled_cascade (S (size nodes2)) nodes2 d) as Hsig.
    fold (cascade_all nodes2) in Hsig. rewrite E in Hsig.
    destruct (cascade_all nodes2 !! d) as [ndd2|] eqn:E2; [| done].
    destruct Hsig as [-> | ->]; [| done].
    (* the node was left unchanged: it must not have needed a signal *)
    destruct (decide (n_state ndd = Started \/ (n_state ndd = Starting /\ n_abort ndd = false)))
      as [Hact | Hnact].
    + exfalso.
      pose proof (Inv_active_inputs s d ndd HI Hdd Hact) as Hall.
      destruct (inputs_started_spec _ _ Hall x Hx) as [ndx [Ex Hsx]].
      specialize (IH eq_refl Hn HR' ndx Hxn Ex).
      pose proof (HR' d ndd E2) as Hns. simpl in Hns.
      unfold needs_stop in Hns.
      assert (Hx' : inputs_started (cascade_all nodes2) (n_inputs ndd) = false).
      { unfold inputs_started. apply not_true_iff_false. rewrite forallb_forall.
        intros Hf. apply list_elem_of_In in Hx. specialize (Hf x Hx). cbn [e_nodes with_nodes] in Hf.
        assert (Hc : cascade_all nodes2 !! x = Some (signal_stop ndx)) by exact IH.
        rewrite Hc in Hf.
        unfold is_started in Hf. apply bool_decide_eq_true in Hf.
        by apply (signal_stop_not_started ndx). }
      rewrite Hx' in Hns. simpl in Hns. unfold is_started in Hns.
      destruct Hact as [Ha | [Ha Hb]].
      * rewrite bool_decide_eq_true_2 in Hns by done. discriminate.
      * rewrite Ha, Hb in Hns. simpl in Hns. discriminate.
    + f_equal. symmetry. apply signal_stop_fixed.
      * intros Ha. apply Hnact. by left.
      * intros Ha. destruct (n_abort ndd) eqn:Hb; [done |]. exfalso. apply Hnact. by right.
Qed.
End Bounce.

Lemma settle_nodes_cases s1 :
  (e_status s1 = Running /\ e_nodes (settle s1) = cascade_all (e_nodes s1)) \/
  (e_status s1 <> Running /\ e_nodes (settle s1) = stop_layer (cascade_all (e_nodes s1))) \/
  (exists e, e_status s1 = Dead e).
Proof.
  unfold settle. destruct (e_status s1) eqn:E; [left | right; left | right; right]; eauto.
  split; [discriminate |]. by destruct (quiescent _).
Qed.

Lemma signalled_started m m' k :
  signalled m m' -> n_state <$> m' !! k = Some Started -> n_state <$> m !! k = Some Started.
Proof.
  intros Hsig H. specialize (Hsig k).
  destruct (m !! k) as [nd|], (m' !! k) as [nd'|]; try contradiction; simpl in *; [| discriminate].
  destruct Hsig as [-> | ->]; [done |]. injection H as H.
  exfalso. exact (signal_stop_not_started nd H).
Qed.

Lemma settle_started s k :
  state_of (settle s) k = Some Started -> state_of s k = Some Started.
Proof.
  unfold state_of, settle. destruct (e_status s); [| | done].
  - apply signalled_started, signalled_cascade.
  - intros H. apply (signalled_started (e_nodes s) (stop_layer (cascade_all (e_nodes s)))).
    + eapply signalled_trans; [apply signalled_cascade | apply signalled_stop_layer].
    + destruct (quiescent _); exact H.
Qed.

Lemma insert_started (m : gmap string Node) name x k :
  n_state x <> Started -> n_state <$> <[name := x]> m !! k = Some Started ->
  n_state <$> m !! k = Some Started.
Proof.
  intros Hx H. destruct (decide (k = name)) as [-> | Hne].
  - rewrite lookup_insert_eq in H. simpl in H. congruence.
  - by rewrite lookup_insert_ne in H by congruence.
Qed.

Lemma finish_started s name x k :
  n_state x <> Started -> state_of (finish s name x) k = Some Started ->
  state_of s k = Some Started.
Proof.
  unfold state_of, finish. intros Hx. destruct (n_remove x); cbn [e_nodes with_nodes].
  - destruct (decide (k = name)) as [-> | Hne].
    + rewrite lookup_delete_eq. discriminate.
    + by rewrite lookup_delete_ne by congruence.
  - apply insert_started, Hx.
Qed.

(** A node enters [started] only when its own pending start returns a
    worker. *)
Lemma step_enters_started s ev k :
  state_of s k <> Some Started -> state_of (step s ev) k = Some Started ->
  exists out, ev = EvStartOk k out /\ state_of s k = Some Starting.
Proof.
  intros Hb Ha. destruct (e_status s) eqn:Est.
  3: { unfold step in Ha. rewrite Est in Ha. contradiction. }
  all: rewrite step_not_dead in Ha by (intros x; rewrite Est; discriminate).
  all: destruct ev as [name m | name | name | name out | name er | name er | name out | name |].
  all: unfold Install, Uninstall, TryStart, StartOk, StartFail, Exit, Reevaluate, Retry, Stop in Ha.
  all: repeat case_match; cbn [fst] in Ha; try congruence.
  all: try apply settle_started in Ha.
  all: try (apply finish_started in Ha;
            [unfold state_of in *; cbn [e_nodes] in Ha; congruence | cbn; congruence]).
  all: unfold state_of in *; cbn [e_nodes with_nodes with_status] in Ha; try congruence.
  all: try (apply insert_started in Ha;
            [congruence | first [apply signal_stop_not_started | cbn; congruence]]).
  all: match type of Ha with
       | context [(?f <$> <[?nm := ?x]> (e_nodes ?s0)) !! ?kk] =>
           apply (signalled_started (<[nm := x]> (e_nodes s0))) in Ha;
           [| apply signalled_fmap; intros d; destruct (bool_decide _); auto];
           destruct (decide (kk = nm)) as [-> | Hne];
           [ match goal with E : e_nodes s0 !! nm = Some _ |- _ =>
               rewrite E in Hb; simpl in Hb; congruence end
           | rewrite lookup_insert_ne in Ha by congruence; congruence ]
       | context [(<[?nm := ?x]> (e_nodes ?s0)) !! ?kk] =>
           destruct (decide (kk = nm)) as [-> | Hne];
           [ eexists; split; [reflexivity |];
             match goal with
             | E : e_nodes s0 !! nm = Some _, B : bool_decide _ = true |- _ =>
                 rewrite E; simpl; apply bool_decide_eq_true in B; congruence
             end
           | rewrite lookup_insert_ne in Ha by congruence; congruence ]
       end.
Qed.

(** C6 (amended): when a [started] node's output is re-evaluated, an
    output equal to the previous one under the node's declared equality
    (by default all outputs are equal, the worker being the same) leaves
    the engine unchanged; a changed output sends the stop signal, once, to
    every transitive dependent (a [started] one goes to [stopping], a
    starting one has its start cancelled), while every node that does not
    depend on it is left as it was, and the node itself stays [started]
    with the new output.  The bounce restarts no dependent: in every
    reachable state, a node enters [started] only when its own pending
    start returns a worker. *)
Theorem reevaluate_bounces_dependents (evs : list Event) (n : string) (nd : Node) (old out : Value)
    (Hn : e_nodes (run init evs) !! n = Some nd) (Hst : n_state nd = Started)
    (Hold : n_output nd = Some old) :
  let s := run init evs in
  let s' := step s (EvReevaluate n out) in
  (output_equal s n old out = true -> s' = s) /\
  (output_equal s n old out = false ->
   (forall d ndd, d <> n -> depends s d n -> e_nodes s !! d = Some ndd ->
                  e_nodes s' !! d = Some (signal_stop ndd)) /\
   (forall d, d <> n -> ~ depends s d n -> e_nodes s' !! d = e_nodes s !! d) /\
   (~ depends s n n -> exists nd', e_nodes s' !! n = Some nd' /\ n_state nd' = Started /\
                                   n_output nd' = Some out /\ n_worker nd' = n_worker nd)) /\
  (forall tr ev k, state_of (run init tr) k <> Some Started ->
   state_of (step (run init tr) ev) k = Some Started ->
   exists out', ev = EvStartOk k out' /\ state_of (run init tr) k = Some Starting).
Proof.
  intros s s'. change (run init evs) with s in Hn.
  assert (HI : Inv s) by (apply run_Inv, init_Inv).
  assert (Hnd : forall e, e_status s <> Dead e)
    by (intros e; exact (Inv_started_not_dead s n nd e HI Hn Hst)).
  assert (Hs' : s' = Reevaluate s n out) by (unfold s'; rewrite step_not_dead; [done | exact Hnd]).
  split; [| split]; [| | intros tr ev k; apply step_enters_started].
  - intros Heq. rewrite Hs'. unfold Reevaluate. by rewrite Hn, Hst, Hold, Heq.
  - intros Hne. rewrite Hs'. unfold Reevaluate. rewrite Hn, Hst, Hold, Hne.
    match goal with |- context [settle (with_nodes s (?f <$> <[n := ?x]> (e_nodes s)))] =>
      set (nd' := x); set (nodes2 := f <$> <[n := nd']> (e_nodes s))
    end.
    assert (Hin' : n_inputs nd' = n_inputs nd) by reflexivity.
    assert (Hst' : n_state nd' = Started) by reflexivity.
    assert (HR' : map_Forall (fun _ x => needs_stop (cascade_all nodes2) x = false)
                             (cascade_all nodes2))
      by (apply settled_spec, cascade_all_settled).
    destruct (settle_nodes_cases (with_nodes s nodes2)) as [[_ E] | [[Hnr E] | [e He]]];
      cbn [e_nodes e_status with_nodes] in *; [| | exfalso; exact (Hnd e He)]; rewrite E;
      unfold nodes2 in *.
    + split; [| split].
      * intros d ndd Hdn Hd Hdd. eapply bounce_dependents; eauto.
      * intros d Hdn Hd. erewrite bounce_cascade_indep; eauto.
        eapply bounce_indep; eauto.
      * intros Hd. erewrite bounce_cascade_indep; eauto.
        rewrite lookup_fmap, lookup_insert_eq. simpl.
        rewrite bool_decide_eq_false_2 by (intros Hi; apply Hd; by eapply depends_direct).
        by exists nd'.
    + split; [| split].
      * intros d ndd Hdn Hd Hdd. apply stop_layer_signal. eapply bounce_dependents; eauto.
      * intros d Hdn Hd.
        assert (Hc : cascade_all nodes2 !! d = e_nodes s !! d).
        { unfold nodes2. erewrite bounce_cascade_indep; eauto. eapply bounce_indep; eauto. }
        unfold nodes2 in Hc.
        destruct (e_nodes s !! d) as [ndk|] eqn:Ed.
        -- apply (bounce_layer_keep s n nd nd'); auto. intros ndk' Ek Hu. congruence.
        -- rewrite lookup_stop_layer, Hc. done.
      * intros Hd. exists nd'.
        assert (Hc : cascade_all nodes2 !! n = Some nd').
        { unfold nodes2. erewrite bounce_cascade_indep; eauto.
          rewrite lookup_fmap, lookup_insert_eq. simpl.
          by rewrite bool_decide_eq_false_2 by (intros Hi; apply Hd; by eapply depends_direct). }
        unfold nodes2 in Hc. split; [| done].
        apply (bounce_layer_keep s n nd nd'); auto.
        intros ndk Ek _. rewrite Hn in Ek. injection Ek as <-. by left.
Qed.

(** ** Witnesses and counterexamples *)

Lemma started_only_with_started_inputs_witness :
  e_status (run init chain3_stopping) = Dying None /\
  state_of (run init chain3_stopping) "C" = Some Stopping /\
  e_nodes (run init chain3_stopping) !! "B" = Some node_B /\ n_state node_B = Started /\
  (exists w, n_worker node_B = Some w /\ In (w, "B") (e_live (run init chain3_stopping))) /\
  (forall i, i ∈ n_inputs node_B ->
   exists ndi, e_nodes (run init chain3_stopping) !! i = Some ndi /\ n_state ndi = Started).
Proof.
  assert (H1 : e_nodes (run init chain3_stopping) !! "B" = Some node_B) by (vm_compute; reflexivity).
  assert (H2 : n_state node_B = Started) by reflexivity.
  split; [vm_compute; reflexivity |]. split; [vm_compute; reflexivity |].
  split; [exact H1 | split; [exact H2 |]].
  exact (started_only_with_started_inputs chain3_stopping "B" node_B H1 H2).
Defined.

Lemma context_get_results_witness :
  context_of (run init chain_started) "B" = Some context_B /\ "A" ∈ ctx_inputs context_B /\
  (forall v, ContextGet context_B "A" TInt = inr v <->
     exists nd, e_nodes (run init chain_started) !! "A" = Some nd /\ n_state nd = Started /\
                n_output nd = Some v /\ type_compatible v TInt = true) /\
  (ContextGet context_B "A" TInt = inl ErrMissing <->
     ~ exists nd, e_nodes (run init chain_started) !! "A" = Some nd /\ n_state nd = Started) /\
  (ContextGet context_B "A" TInt = inl ErrTypeMismatch <->
     exists nd v, e_nodes (run init chain_started) !! "A" = Some nd /\ n_state nd = Started /\
                  n_output nd = Some v /\ type_compatible v TInt = false).
Proof.
  assert (H1 : context_of (run init chain_started) "B" = Some context_B) by (vm_compute; reflexivity).
  assert (H2 : "A" ∈ ctx_inputs context_B) by (simpl; left).
  split; [exact H1 | split; [exact H2 |]].
  exact (context_get_results chain_started "B" context_B "A" TInt H1 H2).
Defined.

Lemma fatal_error_terminates_engine_witness :
  In (2, "C") (e_live (run init chain_and_fatal)) /\
  classify (run init chain_and_fatal) "C" errA = Fatal /\
  (e_status (run init chain_and_fatal) = Running \/
   e_status (run init chain_and_fatal) = Dying None) /\
  let s' := run init (chain_and_fatal ++ EvExit "C" (Some errA) :: []) in
  state_of s' "A" = Some Started /\ state_of s' "B" = Some Stopping /\
  ((e_status s' = Dying (Some errA) /\ Wait s' = None /\ quiescent s' = false /\
    map_Forall (fun k nd => n_state nd = Started \/ (n_state nd = Starting /\ n_abort nd = false) ->
                  exists d ndd, e_nodes s' !! d = Some ndd /\ k ∈ n_inputs ndd /\
                                in_flight ndd = true) (e_nodes s')) \/
   (e_status s' = Dead (Some errA) /\ Wait s' = Some (Some errA) /\ e_live s' = [] /\
    map_Forall (fun _ nd => n_state nd <> Started /\ n_state nd <> Starting) (e_nodes s'))) /\
  (forall k, step s' (EvTryStart k) = s') /\
  (forall tr e', Wait (run init tr) = Some (Some e') ->
   exists pre m post, tr = pre ++ EvExit m (Some e') :: post /\
                      classify (run init pre) m e' = Fatal).
Proof.
  assert (H1 : In (2, "C") (e_live (run init chain_and_fatal))) by (vm_compute; left; reflexivity).
  assert (H2 : classify (run init chain_and_fatal) "C" errA = Fatal) by (vm_compute; reflexivity).
  assert (H3 : e_status (run init chain_and_fatal) = Running \/
               e_status (run init chain_and_fatal) = Dying None) by (vm_compute; left; reflexivity).
  split; [exact H1 | split; [exact H2 | split; [exact H3 |]]].
  split; [vm_compute; reflexivity |]. split; [vm_compute; reflexivity |].
  exact (fatal_error_terminates_engine chain_and_fatal [] "C" 2 errA H1 H2 H3).
Defined.

(** C4, counterexample: [A] and [B] are started and both classify every
    error as fatal; [A]'s worker fails with [errA], then [B]'s worker,
    still live, fails with [errB], classified as fatal.  [Wait] returns
    [errA], not [errB]. *)
Lemma fatal_error_first_wins :
  let pre := two_started ++ [EvExit "A" (Some errA)] in
  In (1, "B") (e_live (run init pre)) /\ classify (run init pre) "B" errB = Fatal /\
  Wait (run init (pre ++ [EvExit "B" (Some errB)])) = Some (Some errA) /\ errA <> errB.
Proof.
  vm_compute. split; [left; reflexivity | split; [reflexivity | split; [reflexivity | discriminate]]].
Qed.

Lemma reevaluate_bounces_dependents_witness :
  e_nodes (run init chain_started) !! "A" = Some node_A /\ n_state node_A = Started /\
  n_output node_A = Some (VInt 1) /\
  let s := run init chain_started in
  let s' := step s (EvReevaluate "A" (VInt 2)) in
  (output_equal s "A" (VInt 1) (VInt 2) = true -> s' = s) /\
  (output_equal s "A" (VInt 1) (VInt 2) = false ->
   (forall d ndd, d <> "A" -> depends s d "A" -> e_nodes s !! d = Some ndd ->
                  e_nodes s' !! d = Some (signal_stop ndd)) /\
   (forall d, d <> "A" -> ~ depends s d "A" -> e_nodes s' !! d = e_nodes s !! d) /\
   (~ depends s "A" "A" -> exists nd', e_nodes s' !! "A" = Some nd' /\ n_state nd' = Started /\
                                       n_output nd' = Some (VInt 2) /\
                                       n_worker nd' = n_worker node_A)) /\
  (forall tr ev k, state_of (run init tr) k <> Some Started ->
   state_of (step (run init tr) ev) k = Some Started ->
   exists out', ev = EvStartOk k out' /\ state_of (run init tr) k = Some Starting).
Proof.
  assert (H1 : e_nodes (run init chain_started) !! "A" = Some node_A) by (vm_compute; reflexivity).
  assert (H2 : n_state node_A = Started) by reflexivity.
  assert (H3 : n_output node_A = Some (VInt 1)) by reflexivity.
  split; [exact H1 | split; [exact H2 | split; [exact H3 |]]].
  exact (reevaluate_bounces_dependents chain_started "A" node_A (VInt 1) (VInt 2) H1 H2 H3).
Defined.

(** C6, counterexample: [B] depends on [A]; [A]'s output changes twice
    (two generation changes), the second time while [B] is still
    stopping; [B] is stopped once and started again once. *)
Lemma bounce_restarts_once_for_two_changes :
  let s0 := run init chain_started in
  depends s0 "B" "A" /\
  gen_changes s0 bounce_twice "A" = 2 /\
  stop_count s0 bounce_twice "B" = 1 /\
  start_count s0 bounce_twice "B" = 1.
Proof.
  split.
  - apply (depends_direct _ "B" node_B "A"); [vm_compute; reflexivity | simpl; left].
  - vm_compute. split; [reflexivity | split; reflexivity].
Qed.

Lemma precheckShim_AgentVersion_results_witness :
  migration.agent_version_valid parse_version (fst (migration.ModelConfig versioned_state)) /\
  (forall err, snd (migration.ModelConfig versioned_state) = Some err ->
     exists e, migration.precheckShim_AgentVersion 0 parse_version versioned_state
               = migration.Returns (0, Some e)) /\
  (snd (migration.ModelConfig versioned_state) = None ->
     (forall v, migration.defined (fst (migration.ModelConfig versioned_state))
                  !! migration.AgentVersionKey <> Some (migration.AString v)) ->
     exists e, migration.precheckShim_AgentVersion 0 parse_version versioned_state
               = migration.Returns (0, Some e)) /\
  (forall v, snd (migration.ModelConfig versioned_state) = None ->
     migration.defined (fst (migration.ModelConfig versioned_state)) !! migration.AgentVersionKey
       = Some (migration.AString v) ->
     exists n, parse_version v = Some n /\
       migration.precheckShim_AgentVersion 0 parse_version versioned_state
       = migration.Returns (n, None)).
Proof.
  assert (H : migration.agent_version_valid parse_version
                (fst (migration.ModelConfig versioned_state))).
  { intros v Hv. vm_compute in Hv. injection Hv as <-. vm_compute. eexists; reflexivity. }
  split; [exact H |].
  exact (precheckShim_AgentVersion_results 0 parse_version versioned_state H).
Defined.


(** ** Properties of the model configuration (environs/config) *)

Module ConfigFacts.
Import config ConfigScenarios.
Local Open Scope string_scope.

Lemma HarvestMode_String_In method description :
  HarvestMode_String method = migration.Returns description <->
  In (method, description) harvestingMethodToFlag.
Proof.
  unfold HarvestMode_String. split.
  - destruct (List.find _ _) as [[m d]|] eqn:E; intros H; [|discriminate].
    injection H as <-. apply find_some in E as [Hin Heq]. simpl in Heq.
    apply N.eqb_eq in Heq. subst m. exact Hin.
  - unfold harvestingMethodToFlag.
    intros [H|[H|[H|[H|[]]]]]; simplify_eq; reflexivity.
Qed.

(** X1: When ToLower leaves the four harvest descriptions unchanged, the
    description HarvestMode.String gives for a mode parses back to that
    mode with ParseHarvestMode, and a config whose provisioner-harvest-
    mode holds that description makes ProvisionerHarvestMode return the
    mode. *)
Theorem harvest_mode_round_trip (ToLower : string -> string)
    (HLower : forall d, In d (List.map snd harvestingMethodToFlag) -> ToLower d = d)
    (method : HarvestMode) (description : string) (c : Config) :
  HarvestMode_String method = migration.Returns description ->
  defined c !! ProvisionerHarvestModeKey = Some (VString description) ->
  ParseHarvestMode ToLower description = (method, None) /\
  ProvisionerHarvestMode ToLower c = migration.Returns method.
Proof.
  intros Hs Hc. apply HarvestMode_String_In in Hs.
  assert (Hp : ParseHarvestMode ToLower description = (method, None)).
  { unfold ParseHarvestMode. rewrite HLower
      by (apply (in_map snd) in Hs; exact Hs).
    revert Hs. unfold harvestingMethodToFlag.
    intros [H|[H|[H|[H|[]]]]]; simplify_eq; reflexivity. }
  split; [exact Hp|]. unfold ProvisionerHarvestMode. rewrite Hc, Hp. reflexivity.
Qed.

(** X2: ParseHarvestMode either returns a mode whose String is the lower-
    cased description and no error, or returns mode 0, on which String
    panics, with an error; it fails only when the lower-cased description
    is none of the known ones. *)
Theorem ParseHarvestMode_result (ToLower : string -> string) (description : string) :
  match ParseHarvestMode ToLower description with
  | (method, None) => HarvestMode_String method = migration.Returns (ToLower description)
  | (method, Some _) =>
      method = 0%N /\ HarvestMode_String method = migration.Panics /\
      ~ In (ToLower description) (List.map snd harvestingMethodToFlag)
  end.
Proof.
  unfold ParseHarvestMode.
  destruct (List.find _ _) as [[m d]|] eqn:E.
  - apply find_some in E as [Hin Heq]. simpl in Heq.
    apply String.eqb_eq in Heq; subst d. apply HarvestMode_String_In. exact Hin.
  - split; [reflexivity|]. split; [reflexivity|].
    intros Hin. apply in_map_iff in Hin as [[m d] [Hd Hin]]. simpl in Hd; subst d.
    apply find_none with (x := (m, ToLower description)) in E; [|exact Hin].
    simpl in E. rewrite String.eqb_refl in E. discriminate.
Qed.

Lemma lor_land_flag (m1 m2 f : N) :
  negb (N.eqb (N.land (N.lor m1 m2) f) 0) =
  negb (N.eqb (N.land m1 f) 0) || negb (N.eqb (N.land m2 f) 0).
Proof.
  rewrite N.land_lor_distr_l.
  destruct (N.eqb_spec (N.land m1 f) 0) as [H1|H1];
  destruct (N.eqb_spec (N.land m2 f) 0) as [H2|H2]; simpl.
  - rewrite H1, H2. reflexivity.
  - rewrite H1. simpl. apply negb_true_iff, N.eqb_neq. exact H2.
  - rewrite H2, N.lor_0_r. apply negb_true_iff, N.eqb_neq. exact H1.
  - apply negb_true_iff, N.eqb_neq. intros H. apply N.lor_eq_0_iff in H. tauto.
Qed.

(** X3: The HarvestNone, HarvestUnknown and HarvestDestroyed tests of the
    bitwise or of two harvest modes are the or of the tests on each mode. *)
Theorem harvest_flags_of_union (m1 m2 : HarvestMode) :
  HarvestMode_HarvestNone (N.lor m1 m2) = HarvestMode_HarvestNone m1 || HarvestMode_HarvestNone m2 /\
  HarvestMode_HarvestUnknown (N.lor m1 m2) = HarvestMode_HarvestUnknown m1 || HarvestMode_HarvestUnknown m2 /\
  HarvestMode_HarvestDestroyed (N.lor m1 m2) = HarvestMode_HarvestDestroyed m1 || HarvestMode_HarvestDestroyed m2.
Proof.
  unfold HarvestMode_HarvestNone, HarvestMode_HarvestUnknown, HarvestMode_HarvestDestroyed.
  rewrite !lor_land_flag. auto.
Qed.

Lemma Contains_app_prefix (a s sub : string) :
  String.prefix sub s = true -> Contains (a ++ s) sub = true.
Proof.
  intros H. induction a as [|ch a IH]; simpl.
  - destruct s; simpl in *; rewrite H; reflexivity.
  - rewrite IH. apply orb_true_r.
Qed.

Lemma prefix_app (s t : string) : String.prefix s (s ++ t) = true.
Proof.
  induction s as [|ch s IH]; simpl; [destruct t; reflexivity|].
  destruct (Ascii.ascii_dec ch ch) as [_|n]; [exact IH|congruence].
Qed.

Lemma Contains_scheme (scheme url : string) :
  Contains (scheme ++ "://" ++ url) "://" = true.
Proof. apply Contains_app_prefix, prefix_app. Qed.

Lemma addSchemeIfMissing_cases (scheme url : string) :
  ((url = EmptyString \/ Contains url "://" = true) /\ addSchemeIfMissing scheme url = url) \/
  ((url <> EmptyString /\ Contains url "://" = false) /\
   addSchemeIfMissing scheme url = scheme ++ "://" ++ url).
Proof.
  unfold addSchemeIfMissing.
  destruct (String.eqb_spec url EmptyString) as [->|Hne]; simpl; [left; auto|].
  destruct (Contains url "://") eqn:E; simpl; [left; auto|right; auto].
Qed.

(** X4: addSchemeIfMissing is idempotent, returns the empty string only
    for the empty URL, and otherwise returns a URL that contains "://". *)
Theorem addSchemeIfMissing_idempotent (scheme url : string) :
  addSchemeIfMissing scheme (addSchemeIfMissing scheme url) = addSchemeIfMissing scheme url /\
  (addSchemeIfMissing scheme url = EmptyString <-> url = EmptyString) /\
  (url <> EmptyString -> Contains (addSchemeIfMissing scheme url) "://" = true).
Proof.
  destruct (addSchemeIfMissing_cases scheme url) as [[H1 ->]|[[Hne Hc] ->]].
  - split; [|split; [tauto|intros Hne; destruct H1; [contradiction|assumption]]].
    destruct (addSchemeIfMissing_cases scheme url) as [[_ ->]|[[Hne Hc] _]]; [reflexivity|].
    destruct H1; [contradiction|congruence].
  - split; [|split; [|intros _; apply Contains_scheme]].
    + destruct (addSchemeIfMissing_cases scheme (scheme ++ "://" ++ url))
        as [[_ ->]|[[_ Hc'] _]]; [reflexivity|].
      rewrite Contains_scheme in Hc'. discriminate.
    + split; [destruct scheme; discriminate|contradiction].
Qed.

Lemma asString_addIfNotEmpty_ne (m : gmap string Value) (k k' v : string) unk :
  k <> k' ->
  asString {| defined := addIfNotEmpty m k v; unknown := unk |} k' =
  asString {| defined := m; unknown := unk |} k'.
Proof.
  intros Hne. unfold asString, addIfNotEmpty; simpl.
  destruct (negb _); [|reflexivity]. rewrite lookup_insert_ne by exact Hne. reflexivity.
Qed.

Lemma asString_addIfNotEmpty_eq (m : gmap string Value) (k v : string) unk :
  m !! k = None ->
  asString {| defined := addIfNotEmpty m k v; unknown := unk |} k = v.
Proof.
  intros Hm. unfold asString, addIfNotEmpty; simpl.
  destruct (String.eqb_spec v EmptyString) as [->|Hne]; simpl.
  - rewrite Hm. reflexivity.
  - rewrite lookup_insert_eq. reflexivity.
Qed.

Lemma addIfNotEmpty_lookup_ne (m : gmap string Value) (k k' v : string) :
  k <> k' -> addIfNotEmpty m k v !! k' = m !! k'.
Proof.
  intros Hne. unfold addIfNotEmpty. destruct (negb _); [|reflexivity].
  apply lookup_insert_ne; exact Hne.
Qed.

Ltac key_ne := unfold HttpProxyKey, HttpsProxyKey, FtpProxyKey, NoProxyKey,
  AptHttpProxyKey, AptHttpsProxyKey, AptFtpProxyKey; discriminate.

Ltac peel := first
  [ rewrite asString_addIfNotEmpty_ne by key_ne
  | rewrite asString_addIfNotEmpty_eq
      by (repeat (rewrite addIfNotEmpty_lookup_ne by key_ne); apply lookup_empty) ].

(** X5: ProxySettings read from a config whose attributes are
    ProxyConfigMap(s) gives back s: empty settings are left out of the map
    and read back as empty strings. *)
Theorem ProxySettings_ProxyConfigMap (s : proxy.Settings) (unk : gmap string Value) :
  ProxySettings {| defined := ProxyConfigMap s; unknown := unk |} = s.
Proof.
  destruct s as [h hs f n].
  unfold ProxySettings, HttpProxy, HttpsProxy, FtpProxy, NoProxy, ProxyConfigMap; simpl.
  f_equal; repeat peel; reflexivity.
Qed.

Lemma asString_empty_map k unk : asString {| defined := ∅; unknown := unk |} k = EmptyString.
Proof. unfold asString; simpl. rewrite lookup_empty. reflexivity. Qed.

(** X6: AptProxySettings read from a config whose attributes are
    AptProxyConfigMap(s) gives the http, https and ftp settings of s with
    their scheme added when missing, and an empty NoProxy. *)
Theorem AptProxySettings_AptProxyConfigMap (s : proxy.Settings) (unk : gmap string Value) :
  AptProxySettings {| defined := AptProxyConfigMap s; unknown := unk |} =
  {| proxy.Http := addSchemeIfMissing "http" (proxy.Http s);
     proxy.Https := addSchemeIfMissing "https" (proxy.Https s);
     proxy.Ftp := addSchemeIfMissing "ftp" (proxy.Ftp s);
     proxy.NoProxy := EmptyString |}.
Proof.
  destruct s as [h hs f n].
  unfold AptProxySettings, AptHttpProxy, AptHttpsProxy, AptFtpProxy, getWithFallback,
    AptProxyConfigMap; simpl.
  f_equal; f_equal; repeat peel;
    match goal with |- context [String.eqb ?x EmptyString] =>
      destruct (String.eqb_spec x EmptyString) as [->|]; [|reflexivity] end;
    repeat peel; apply asString_empty_map.
Qed.

Lemma fallback_scheme (c : Config) (scheme key fallback : string) :
  let a := addSchemeIfMissing scheme (getWithFallback c key fallback) in
  (a = EmptyString <-> asString c key = EmptyString /\ asString c fallback = EmptyString) /\
  (a <> EmptyString -> Contains a "://" = true).
Proof.
  intros a. subst a. unfold getWithFallback.
  destruct (String.eqb_spec (asString c key) EmptyString) as [Hk|Hk].
  - pose proof (addSchemeIfMissing_idempotent scheme (asString c fallback)) as [_ [H1 H2]].
    split; [rewrite H1; tauto|].
    intros Hne. apply H2. intros He. apply Hne, H1, He.
  - pose proof (addSchemeIfMissing_idempotent scheme (asString c key)) as [_ [H1 H2]].
    split; [rewrite H1; tauto|].
    intros Hne. apply H2. exact Hk.
Qed.

(** X7: Each apt proxy setting is empty exactly when both its apt-*-proxy
    attribute and the matching plain proxy setting are empty, and a non-
    empty one contains "://". *)
Theorem AptProxySettings_fallback (c : Config) :
  let a := AptProxySettings c in
  (proxy.Http a = EmptyString <->
     asString c AptHttpProxyKey = EmptyString /\ HttpProxy c = EmptyString) /\
  (proxy.Https a = EmptyString <->
     asString c AptHttpsProxyKey = EmptyString /\ HttpsProxy c = EmptyString) /\
  (proxy.Ftp a = EmptyString <->
     asString c AptFtpProxyKey = EmptyString /\ FtpProxy c = EmptyString) /\
  (proxy.Http a <> EmptyString -> Contains (proxy.Http a) "://" = true) /\
  (proxy.Https a <> EmptyString -> Contains (proxy.Https a) "://" = true) /\
  (proxy.Ftp a <> EmptyString -> Contains (proxy.Ftp a) "://" = true).
Proof.
  simpl. unfold AptHttpProxy, AptHttpsProxy, AptFtpProxy, HttpProxy, HttpsProxy, FtpProxy.
  pose proof (fallback_scheme c "http" AptHttpProxyKey HttpProxyKey) as [A1 A2].
  pose proof (fallback_scheme c "https" AptHttpsProxyKey HttpsProxyKey) as [B1 B2].
  pose proof (fallback_scheme c "ftp" AptFtpProxyKey FtpProxyKey) as [C1 C2].
  tauto.
Qed.

Lemma fold_insert_lookup {V W : Type}
    (F : gmap string W -> string * V -> gmap string W) (f : string -> V -> W)
    (HF : forall acc k v, F acc (k, v) = <[k := f k v]> acc)
    (l : list (string * V)) (m0 : gmap string W) (k : string) :
  NoDup l.*1 ->
  fold_left F l m0 !! k =
    match (list_to_map l : gmap string V) !! k with
    | Some v => Some (f k v)
    | None => m0 !! k
    end.
Proof.
  revert m0. induction l as [|[k' v'] l IH]; intros m0 Hnd; simpl; [reflexivity|].
  apply NoDup_cons in Hnd as [Hk' Hnd]. rewrite HF, IH by exact Hnd.
  destruct (decide (k = k')) as [->|Hne].
  - rewrite not_elem_of_list_to_map_1 by exact Hk'.
    rewrite !lookup_insert_eq. reflexivity.
  - rewrite !lookup_insert_ne by congruence. reflexivity.
Qed.

Lemma fold_insert_map_to_list {V W : Type}
    (F : gmap string W -> string * V -> gmap string W) (f : string -> V -> W)
    (HF : forall acc k v, F acc (k, v) = <[k := f k v]> acc)
    (m : gmap string V) (m0 : gmap string W) (k : string) :
  fold_left F (map_to_list m) m0 !! k =
    match m !! k with
    | Some v => Some (f k v)
    | None => m0 !! k
    end.
Proof.
  rewrite (fold_insert_lookup F f HF) by apply NoDup_fst_map_to_list.
  rewrite list_to_map_to_list. reflexivity.
Qed.

(** X8: UnknownAttrs returns the config's unknown attributes, and AllAttrs
    the union of the defined and unknown attributes, a defined value
    winning over an unknown one. *)
Theorem AllAttrs_union (c : Config) :
  UnknownAttrs c = unknown c /\ AllAttrs c = defined c ∪ unknown c.
Proof.
  assert (HU : UnknownAttrs c = unknown c).
  { apply map_eq; intros k. unfold UnknownAttrs.
    rewrite (fold_insert_map_to_list _ (fun _ v => v)) by reflexivity.
    rewrite lookup_empty. destruct (unknown c !! k); reflexivity. }
  split; [exact HU|].
  apply map_eq; intros k. unfold AllAttrs.
  rewrite (fold_insert_map_to_list _ (fun _ v => v)) by reflexivity.
  rewrite HU, lookup_union. destruct (defined c !! k), (unknown c !! k); reflexivity.
Qed.

Lemma fold_delete_lookup (ks : list string) (m : gmap string Value) (k : string) :
  fold_left (fun defined k => delete k defined) ks m !! k =
    if decide (k ∈ ks) then None else m !! k.
Proof.
  revert m. induction ks as [|k' ks IH]; intros m; cbn [fold_left].
  - rewrite decide_False by (intros H; inversion H). reflexivity.
  - rewrite IH. destruct (decide (k ∈ ks)) as [Hin|Hnin].
    + rewrite decide_True by (apply elem_of_cons; right; exact Hin). reflexivity.
    + destruct (decide (k = k')) as [->|Hne].
      * rewrite decide_True by (apply elem_of_cons; left; reflexivity).
        apply lookup_delete_eq.
      * rewrite decide_False by (rewrite elem_of_cons; tauto).
        apply lookup_delete_ne. congruence.
Qed.

(** X9: Apply builds a config without defaults from the given attributes
    laid over all the config's attributes; Remove builds one from all the
    config's attributes except the removed keys. *)
Theorem Apply_Remove_attrs {R : Type} (New : Defaulting -> gmap string Value -> R)
    (c : Config) (attrs : gmap string Value) (ks : list string) :
  Apply New c attrs = New NoDefaults (attrs ∪ (defined c ∪ unknown c)) /\
  exists m, Remove New c ks = New NoDefaults m /\
    forall k, m !! k = if decide (k ∈ ks) then None else (defined c ∪ unknown c) !! k.
Proof.
  destruct (AllAttrs_union c) as [_ HA]. split.
  - unfold Apply. f_equal. apply map_eq; intros k.
    rewrite (fold_insert_map_to_list _ (fun _ v => v)) by reflexivity.
    rewrite HA, (lookup_union attrs). destruct (attrs !! k), ((defined c ∪ unknown c) !! k); reflexivity.
  - eexists. split; [reflexivity|]. intros k. rewrite fold_delete_lookup, HA. reflexivity.
Qed.

Lemma concat_cons_nonempty (sep x : string) (l : list string) :
  x <> EmptyString -> String.concat sep (x :: l) <> EmptyString.
Proof.
  intros Hx. destruct x as [|ch x]; [contradiction|].
  destruct l; simpl; discriminate.
Qed.

(** X10: CoerceForStorage leaves every attribute other than resource-tags
    unchanged, and a missing or non-map resource-tags as it is; a map of
    tags becomes a string, empty exactly when the map is nil or empty. *)
Theorem CoerceForStorage_resource_tags (attrs : gmap string Value) :
  (forall k, k <> ResourceTagsKey -> CoerceForStorage attrs !! k = attrs !! k) /\
  (attrs !! ResourceTagsKey = None -> CoerceForStorage attrs !! ResourceTagsKey = None) /\
  (forall v, attrs !! ResourceTagsKey = Some v -> (forall t, v <> VStringMap t) ->
     CoerceForStorage attrs !! ResourceTagsKey = Some v) /\
  (forall tags, attrs !! ResourceTagsKey = Some (VStringMap tags) ->
     exists s, CoerceForStorage attrs !! ResourceTagsKey = Some (VString s) /\
       (s = EmptyString <-> match tags with None => True | Some m => m = ∅ end)).
Proof.
  set (f := fun (attrName : string) (attrValue : Value) =>
    if String.eqb attrName ResourceTagsKey then
      match attrValue with
      | VStringMap tags =>
          VString (String.concat " "
            (List.map (fun '(resKey, resValue) => resKey ++ "=" ++ resValue)
              (match tags with Some m => map_to_list m | None => [] end)))
      | _ => attrValue
      end
    else attrValue).
  assert (HL : forall k, CoerceForStorage attrs !! k =
                 match attrs !! k with Some v => Some (f k v) | None => None end).
  { intros k. unfold CoerceForStorage.
    rewrite (fold_insert_map_to_list _ f) by reflexivity.
    rewrite lookup_empty. reflexivity. }
  split; [|split; [|split]].
  - intros k Hk. rewrite HL. destruct (attrs !! k); [|reflexivity].
    subst f; simpl. rewrite (proj2 (String.eqb_neq _ _) Hk). reflexivity.
  - intros H. rewrite HL, H. reflexivity.
  - intros v Hv Hnm. rewrite HL, Hv. subst f; simpl.
    destruct v; try reflexivity. exfalso; eapply Hnm; reflexivity.
  - intros tags Ht. rewrite HL, Ht. subst f; simpl.
    eexists; split; [reflexivity|].
    destruct tags as [m|]; simpl; [|split; reflexivity].
    destruct (map_to_list m) as [|[k v] l] eqn:El; simpl.
    + apply map_to_list_empty_iff in El. tauto.
    + split; [intros H; exfalso; revert H; apply concat_cons_nonempty; destruct k; discriminate|].
      intros ->. rewrite map_to_list_empty in El. discriminate.
Qed.

(** X11: ResourceTags panics exactly when the resource-tags map has a key
    starting with the Juju tag prefix; a map without such a key is
    returned with true, and a config with no map gives nil and false. *)
Theorem ResourceTags_reserved_prefix (JujuTagPrefix : string) (c : Config) :
  (ResourceTags JujuTagPrefix c = migration.Panics <->
     exists m k v, defined c !! ResourceTagsKey = Some (VStringMap (Some m)) /\
                   m !! k = Some v /\ String.prefix JujuTagPrefix k = true) /\
  (forall m, defined c !! ResourceTagsKey = Some (VStringMap (Some m)) ->
     (forall k v, m !! k = Some v -> String.prefix JujuTagPrefix k = false) ->
     ResourceTags JujuTagPrefix c = migration.Returns (Some m, true)) /\
  ((forall m, defined c !! ResourceTagsKey <> Some (VStringMap (Some m))) ->
     ResourceTags JujuTagPrefix c = migration.Returns (None, false)).
Proof.
  unfold ResourceTags, resourceTags.
  destruct (defined c !! ResourceTagsKey) as [v|] eqn:E.
  2:{ split; [split; [discriminate|intros (m & k & w & H & _); discriminate]|].
      split; [intros m H; discriminate|reflexivity]. }
  destruct v as [| | | | |[m|]|]; try (split; [split; [discriminate|intros (m' & k & w & H & _); discriminate]|];
      split; [intros m' H; discriminate|reflexivity]).
  destruct (List.find _ _) as [k|] eqn:F.
  - apply find_some in F as [Hin Hp].
    apply in_map_iff in Hin as [[k' w] [Hk Hin]]; simpl in Hk; subst k'.
    split; [split; [intros _; exists m, k, w; split; [reflexivity|]; split; [|exact Hp]|intros _; reflexivity]|].
    + apply elem_of_map_to_list, list_elem_of_In, Hin.
    + split; [|intros H; exfalso; eapply H; reflexivity].
      intros m' Hm' Hno. injection Hm' as <-.
      apply list_elem_of_In, elem_of_map_to_list in Hin.
      rewrite (Hno k w Hin) in Hp. discriminate.
  - split; [split; [discriminate|]|split].
    + intros (m' & k & w & Hm' & Hk & Hp). injection Hm' as <-.
      apply find_none with (x := k) in F; [congruence|].
      apply in_map_iff. exists (k, w). split; [reflexivity|].
      apply list_elem_of_In, elem_of_map_to_list, Hk.
    + intros m' Hm' _. injection Hm' as <-. reflexivity.
    + intros H; exfalso; eapply H; reflexivity.
Qed.

(** X12: DefaultSeries reports a series exactly when it returns a non-
    empty one; PreferredSeries returns a non-empty default-series string,
    and the latest LTS series when there is none. *)
Theorem PreferredSeries_choice (LatestLts : string) (c : Config) :
  (snd (DefaultSeries c) = true <-> fst (DefaultSeries c) <> EmptyString) /\
  (forall s, defined c !! "default-series" = Some (VString s) -> s <> EmptyString ->
     PreferredSeries LatestLts c = s) /\
  ((forall s, defined c !! "default-series" = Some (VString s) -> s = EmptyString) ->
     PreferredSeries LatestLts c = LatestLts).
Proof.
  unfold PreferredSeries, DefaultSeries.
  assert (Hff : false = true <-> EmptyString <> EmptyString)
    by (split; [discriminate|intros H; contradiction H; reflexivity]).
  destruct (defined c !! "default-series") as [v|] eqn:E.
  2:{ simpl. split; [exact Hff|]. split; [discriminate|reflexivity]. }
  destruct v; simpl;
    try (split; [exact Hff|]; split; [discriminate|reflexivity]).
  destruct (String.eqb_spec s EmptyString) as [->|Hne]; simpl.
  - split; [exact Hff|]. split; [intros s' [= <-]; tauto|reflexivity].
  - split; [split; [intros _; exact Hne|reflexivity]|].
    split; [intros s' [= <-]; reflexivity|].
    intros H. exfalso. apply Hne, H. reflexivity.
Qed.

(** X13: ImageStream and AgentStream never return the empty string: each
    returns its attribute when that is non-empty and "released" otherwise. *)
Theorem streams_never_empty (c : Config) :
  ImageStream c <> EmptyString /\ AgentStream c <> EmptyString /\
  (asString c "image-stream" <> EmptyString -> ImageStream c = asString c "image-stream") /\
  (asString c "image-stream" = EmptyString -> ImageStream c = "released") /\
  (asString c AgentStreamKey <> EmptyString -> AgentStream c = asString c AgentStreamKey) /\
  (asString c AgentStreamKey = EmptyString -> AgentStream c = "released").
Proof.
  unfold ImageStream, AgentStream.
  destruct (String.eqb_spec (asString c "image-stream") EmptyString) as [H1|H1];
  destruct (String.eqb_spec (asString c AgentStreamKey) EmptyString) as [H2|H2]; simpl;
  repeat split; try discriminate; try tauto.
Qed.

Lemma syslogField_panics (c : Config) (k : string) set st :
  syslogField c k set st = migration.Panics <->
  st = migration.Panics \/ exists v, defined c !! k = Some v /\ forall s, v <> VString s.
Proof.
  unfold syslogField. destruct st as [[p r]|]; [|split; [left; reflexivity|reflexivity]].
  destruct (defined c !! k) as [v|]; [|split; [discriminate|intros [H|(v & H & _)]; discriminate]].
  destruct v; try (split; [intros _; right; eexists; split; [reflexivity|]; intros s'; discriminate|reflexivity]).
  split; [destruct (String.eqb _ _); discriminate|].
  intros [H|(v & [= <-] & Hv)]; [discriminate|]. exfalso; eapply Hv; reflexivity.
Qed.

Lemma syslogField_unset (c : Config) (k : string) set st :
  (exists r', syslogField c k set st = migration.Returns (false, r')) <->
  (exists r, st = migration.Returns (false, r)) /\
  (defined c !! k = None \/ defined c !! k = Some (VString EmptyString)).
Proof.
  unfold syslogField. destruct st as [[p r]|].
  2:{ split; [intros [r' H]; discriminate|intros [[r H] _]; discriminate]. }
  destruct (defined c !! k) as [v|] eqn:E.
  2:{ split; [intros [r' H]; injection H as -> ->; split; [eexists; reflexivity|left; reflexivity]|].
      intros [[r0 H] _]; injection H as -> ->. eexists; reflexivity. }
  destruct v; try (split; [intros [r' H]; discriminate|intros [_ [H|H]]; discriminate]).
  destruct (String.eqb_spec s EmptyString) as [->|Hne].
  - split; [intros [r' H]; injection H as -> ->; split; [eexists; reflexivity|right; reflexivity]|].
    intros [[r0 H] _]; injection H as -> ->. eexists; reflexivity.
  - split; [intros [r' H]; discriminate|].
    intros [_ [H|H]]; [discriminate|injection H as ->; contradiction].
Qed.

(** X14: LogFwdSyslog panics exactly when logforward-enabled holds a non-
    boolean or one of the four syslog attributes holds a non-string; it
    returns nil exactly when logforward-enabled is absent and each syslog
    attribute is absent or empty. *)
Theorem LogFwdSyslog_outcome (c : Config) :
  (LogFwdSyslog c = migration.Panics <->
     (exists v, defined c !! LogForwardEnabled = Some v /\ forall b, v <> VBool b) \/
     (exists k v, In k [LogFwdSyslogHost; LogFwdSyslogCACert; LogFwdSyslogClientCert; LogFwdSyslogClientKey] /\
                  defined c !! k = Some v /\ forall s, v <> VString s)) /\
  (LogFwdSyslog c = migration.Returns None <->
     defined c !! LogForwardEnabled = None /\
     forall k, In k [LogFwdSyslogHost; LogFwdSyslogCACert; LogFwdSyslogClientCert; LogFwdSyslogClientKey] ->
       defined c !! k = None \/ defined c !! k = Some (VString EmptyString)).
Proof.
  set (st0 := match defined c !! LogForwardEnabled with
              | None => migration.Returns (false, zeroRawConfig)
              | Some (VBool b) => migration.Returns (true, set_Enabled b zeroRawConfig)
              | Some _ => migration.Panics
              end).
  set (st := syslogField c LogFwdSyslogClientKey set_ClientKey
               (syslogField c LogFwdSyslogClientCert set_ClientCert
                  (syslogField c LogFwdSyslogCACert set_CACert
                     (syslogField c LogFwdSyslogHost set_Host st0)))).
  assert (HL : LogFwdSyslog c = match st with
                                | migration.Panics => migration.Panics
                                | migration.Returns (partial, lfCfg) =>
                                    migration.Returns (if partial then Some lfCfg else None)
                                end) by reflexivity.
  assert (H0p : st0 = migration.Panics <->
                exists v, defined c !! LogForwardEnabled = Some v /\ forall b, v <> VBool b).
  { subst st0. destruct (defined c !! LogForwardEnabled) as [v|].
    - destruct v; try (split; [intros _; eexists; split; [reflexivity|]; intros b; discriminate|reflexivity]).
      split; [discriminate|intros (v & [= <-] & Hv)]. exfalso; eapply Hv; reflexivity.
    - split; [discriminate|intros (v & H & _); discriminate]. }
  assert (H0u : (exists r, st0 = migration.Returns (false, r)) <->
                defined c !! LogForwardEnabled = None).
  { subst st0. destruct (defined c !! LogForwardEnabled) as [v|].
    - destruct v; split; try discriminate; intros [r H]; discriminate.
    - split; [reflexivity|intros _; eexists; reflexivity]. }
  split.
  - rewrite HL.
    assert (Hsp : st = migration.Panics <->
                  st0 = migration.Panics \/
                  (exists k v, In k [LogFwdSyslogHost; LogFwdSyslogCACert; LogFwdSyslogClientCert; LogFwdSyslogClientKey] /\
                  defined c !! k = Some v /\ forall s, v <> VString s)).
    { subst st. rewrite !syslogField_panics. simpl. split.
      - intros [[[[H|H]|H]|H]|H]; [left; exact H|right; destruct H as (v & ? & ?); eauto 10..].
      - intros [H|(k & v & Hk & Hv & Hs)]; [tauto|].
        destruct Hk as [<-|[<-|[<-|[<-|[]]]]]; eauto 10. }
    rewrite H0p in Hsp. rewrite <- Hsp.
    destruct st as [[p r]|]; [split; [discriminate|intros H; discriminate H]|tauto].
  - rewrite HL.
    assert (Hsu : (exists r, st = migration.Returns (false, r)) <->
                  (exists r, st0 = migration.Returns (false, r)) /\
                  forall k, In k [LogFwdSyslogHost; LogFwdSyslogCACert; LogFwdSyslogClientCert; LogFwdSyslogClientKey] ->
                    defined c !! k = None \/ defined c !! k = Some (VString EmptyString)).
    { subst st. rewrite !syslogField_unset. simpl. split.
      - intros [[[[H0 H1] H2] H3] H4]. split; [exact H0|].
        intros k [<-|[<-|[<-|[<-|[]]]]]; assumption.
      - intros [H0 Hk]. repeat split; try assumption; apply Hk; tauto. }
    rewrite H0u in Hsu. rewrite <- Hsu.
    destruct st as [[[|] r]|].
    + split; [discriminate|intros [r' H]; discriminate].
    + split; [intros _; eexists; reflexivity|reflexivity].
    + split; [discriminate|intros [r' H]; discriminate].
Qed.

Lemma checkEmpty_ok (l : list (string * Value)) :
  checkEmpty l = migration.Returns None ->
  forall attr val, In (attr, val) l ->
    isEmpty val <> migration.Panics /\
    (isEmpty val = migration.Returns true -> allowEmpty attr = true).
Proof.
  induction l as [|[a v] l IH]; cbn [checkEmpty In]; intros H attr val Hin; [destruct Hin|].
  destruct (isEmpty v) as [[|]|] eqn:Ev; try discriminate.
  - destruct (allowEmpty a) eqn:Ea; [|discriminate].
    destruct Hin as [[= <- <-]|Hin]; [rewrite Ev; split; [discriminate|auto]|].
    apply IH; assumption.
  - destruct Hin as [[= <- <-]|Hin]; [rewrite Ev; split; [discriminate|discriminate]|].
    apply IH; assumption.
Qed.

Lemma checkImmutable_ok (cfg old : Config) (attrs : list string) :
  checkImmutable cfg old attrs = migration.Returns None ->
  forall attr oldv, In attr attrs -> defined old !! attr = Some oldv ->
    iface_eq (default VNil (defined cfg !! attr)) oldv = migration.Returns true.
Proof.
  induction attrs as [|a attrs IH]; cbn [checkImmutable In]; intros H attr oldv Hin Hold; [destruct Hin|].
  destruct (defined old !! a) as [ov|] eqn:Eo.
  - destruct (iface_eq _ ov) as [[|]|] eqn:Ee; try discriminate.
    destruct Hin as [<-|Hin]; [congruence|]. eapply IH; eassumption.
  - destruct Hin as [<-|Hin]; [congruence|]. eapply IH; eassumption.
Qed.

Lemma iface_eq_true (a b : Value) : iface_eq a b = migration.Returns true -> a = b.
Proof.
  destruct a, b; cbn [iface_eq]; intros H; try discriminate; try reflexivity;
    injection H as H.
  - apply Bool.eqb_prop in H. subst. reflexivity.
  - apply Z.eqb_eq in H. subst. reflexivity.
  - apply String.eqb_eq in H. subst. reflexivity.
  - apply andb_prop in H as [H1 H2].
    apply String.eqb_eq in H1, H2. subst. reflexivity.
Qed.

Section ValidateProps.
Context {Number : Type} (Zero : Number) (ParseVersion : string -> option Number)
        (IsValidModelName : string -> bool)
        (ParseConfigString : string -> option GoError)
        (RawConfig_Validate : syslog.RawConfig -> option GoError)
        (IsValidUUIDString : string -> bool)
        (JujuTagPrefix : string).

Local Notation validate := (Validate Zero ParseVersion IsValidModelName ParseConfigString
                              RawConfig_Validate IsValidUUIDString JujuTagPrefix).
Local Notation agentVersion := (AgentVersion Zero ParseVersion).

Lemma Validate_ok_inv (cfg : Config) (old : option Config) :
  validate cfg old = migration.Returns None ->
  checkEmpty (map_to_list (defined cfg)) = migration.Returns None /\
  asString cfg NameKey <> EmptyString /\
  IsValidModelName (asString cfg NameKey) = true /\
  (forall v, defined cfg !! AgentVersionKey = Some (VString v) -> is_Some (ParseVersion v)) /\
  (forall v, defined cfg !! "logging-config" = Some (VString v) -> ParseConfigString v = None) /\
  (exists lf, LogFwdSyslog cfg = migration.Returns lf /\
              forall lfCfg, lf = Some lfCfg -> RawConfig_Validate lfCfg = None) /\
  (exists uuid, UUID cfg = migration.Returns uuid /\ IsValidUUIDString uuid = true) /\
  snd (resourceTags JujuTagPrefix cfg) = None /\
  (forall o, old = Some o ->
     checkImmutable cfg o immutableAttributes = migration.Returns None /\
     (forall n, agentVersion o = migration.Returns (n, true) ->
        exists n', agentVersion cfg = migration.Returns (n', true))).
Proof.
  unfold Validate. intros H.
  destruct (checkEmpty _) as [[e|]|] eqn:E1; try discriminate.
  destruct (String.eqb_spec (asString cfg NameKey) EmptyString) as [Hn|Hn]; [discriminate|].
  destruct (IsValidModelName (asString cfg NameKey)) eqn:E2; [|discriminate]. cbn iota beta in H.
  assert (HAV : forall v, defined cfg !! AgentVersionKey = Some (VString v) -> is_Some (ParseVersion v)).
  { intros v Hv. rewrite Hv in H. destruct (ParseVersion v); [eexists; reflexivity|discriminate]. }
  destruct (match defined cfg !! AgentVersionKey with
            | Some (VString v) => _ | _ => None end) eqn:E3; [discriminate|].
  assert (HLC : forall v, defined cfg !! "logging-config" = Some (VString v) -> ParseConfigString v = None).
  { intros v Hv. rewrite Hv in H. destruct (ParseConfigString v); [discriminate|reflexivity]. }
  destruct (match defined cfg !! "logging-config" with
            | Some (VString v) => _ | _ => None end) eqn:E4; [discriminate|].
  destruct (LogFwdSyslog cfg) as [lf|] eqn:E5; [|discriminate].
  destruct (match lf with Some lfCfg => _ | None => None end) eqn:E6; [discriminate|].
  destruct (UUID cfg) as [uuid|] eqn:E7; [|discriminate].
  destruct (IsValidUUIDString uuid) eqn:E8; [|discriminate]. cbn iota beta in H.
  destruct (snd (resourceTags JujuTagPrefix cfg)) eqn:E9; [discriminate|].
  do 8 (split; [first [reflexivity | assumption | done
                      | (exists lf; split; [reflexivity|intros lfCfg ->; exact E6])
                      | (exists uuid; split; [reflexivity|exact E8])]|]).
  intros o ->.
  destruct (checkImmutable cfg o immutableAttributes) as [[e|]|] eqn:E10; try discriminate.
  split; [reflexivity|].
  intros n Ho. rewrite Ho in H.
  destruct (agentVersion cfg) as [[n' [|]]|]; try discriminate.
  exists n'. reflexivity.
Qed.

(** X15: A config that Validate accepts has no attribute whose emptiness
    check panics and no empty attribute outside the always-optional ones,
    a valid non-empty string name and UUID, a parsable agent version if it
    has one, and resource tags without reserved keys. *)
Theorem Validate_accepts_only_complete_configs (cfg : Config) (old : option Config) :
  validate cfg old = migration.Returns None ->
  (forall attr val, defined cfg !! attr = Some val ->
     isEmpty val <> migration.Panics /\
     (isEmpty val = migration.Returns true -> allowEmpty attr = true)) /\
  (exists name, defined cfg !! NameKey = Some (VString name) /\
                name <> EmptyString /\ IsValidModelName name = true) /\
  (exists uuid, defined cfg !! UUIDKey = Some (VString uuid) /\
                uuid <> EmptyString /\ IsValidUUIDString uuid = true) /\
  (forall v, defined cfg !! AgentVersionKey = Some (VString v) -> is_Some (ParseVersion v)) /\
  snd (resourceTags JujuTagPrefix cfg) = None.
Proof.
  intros H.
  destruct (Validate_ok_inv cfg old H)
    as (H1 & H2 & H3 & H4 & _ & _ & (uuid & H7 & H7') & H8 & _).
  split; [|split; [|split; [|split; [exact H4|exact H8]]]].
  - intros attr val Hv. apply (checkEmpty_ok _ H1).
    apply list_elem_of_In, elem_of_map_to_list, Hv.
  - unfold asString in H2, H3.
    destruct (defined cfg !! NameKey) as [[]|]; try (contradiction H2; reflexivity).
    eexists; split; [reflexivity|]; split; assumption.
  - unfold UUID, mustString, asString in H7.
    destruct (defined cfg !! UUIDKey) as [[]|]; try discriminate.
    destruct (String.eqb_spec s EmptyString); [discriminate|].
    injection H7 as <-. eexists; split; [reflexivity|]; split; assumption.
Qed.

(** X16: When Validate accepts a config against an old one, the name,
    type, uuid and firewall-mode of the old config are kept (an old nil
    value may also be dropped), and an agent version set in the old config
    is still set. *)
Theorem Validate_keeps_immutable (cfg old : Config) :
  validate cfg (Some old) = migration.Returns None ->
  (forall attr v, In attr immutableAttributes -> defined old !! attr = Some v ->
     defined cfg !! attr = Some v \/ (v = VNil /\ defined cfg !! attr = None)) /\
  (forall n, agentVersion old = migration.Returns (n, true) ->
     exists n', agentVersion cfg = migration.Returns (n', true)).
Proof.
  intros H. destruct (Validate_ok_inv cfg (Some old) H) as (_ & _ & _ & _ & _ & _ & _ & _ & Hold).
  destruct (Hold old eq_refl) as [Himm Hav]. split; [|exact Hav].
  intros attr v Hin Hv.
  pose proof (iface_eq_true _ _ (checkImmutable_ok _ _ _ Himm attr v Hin Hv)) as He.
  destruct (defined cfg !! attr) as [w|]; simpl in He; [left; congruence|right; auto].
Qed.

(** X17: After Validate accepts a config, Name and UUID return without
    panicking, the UUID is valid, and AgentVersion, LogFwdSyslog and
    ResourceTags do not panic. *)
Theorem Validate_then_accessors (cfg : Config) (old : option Config) :
  validate cfg old = migration.Returns None ->
  (exists name, Name cfg = migration.Returns name) /\
  (exists uuid, UUID cfg = migration.Returns uuid /\ IsValidUUIDString uuid = true) /\
  agentVersion cfg <> migration.Panics /\
  LogFwdSyslog cfg <> migration.Panics /\
  ResourceTags JujuTagPrefix cfg <> migration.Panics.
Proof.
  intros H.
  destruct (Validate_ok_inv cfg old H)
    as (_ & H2 & _ & H4 & _ & (lf & H6 & _) & H7 & H8 & _).
  split; [|split; [exact H7|split; [|split]]].
  - unfold Name, mustString. destruct (String.eqb_spec (asString cfg NameKey) EmptyString);
      [contradiction|eexists; reflexivity].
  - unfold AgentVersion. destruct (defined cfg !! AgentVersionKey) as [[]|] eqn:E; try discriminate.
    destruct (H4 s eq_refl) as [n Hn]. rewrite Hn. discriminate.
  - rewrite H6. discriminate.
  - unfold ResourceTags. destruct (resourceTags JujuTagPrefix cfg) as [t e]. simpl in H8.
    subst e. discriminate.
Qed.
End ValidateProps.

(** *** Witnesses *)

Local Notation validate_sample :=
  (Validate 0 parse_version (fun _ => true) (fun _ => None) (fun _ => None) (fun _ => true) "juju-").

Lemma harvest_mode_round_trip_witness :
  (forall d, In d (List.map snd harvestingMethodToFlag) -> (fun s : string => s) d = d) /\
  HarvestMode_String HarvestAll = migration.Returns "all" /\
  defined named_config !! ProvisionerHarvestModeKey = Some (VString "all") /\
  ParseHarvestMode (fun s => s) "all" = (HarvestAll, None) /\
  ProvisionerHarvestMode (fun s => s) named_config = migration.Returns HarvestAll.
Proof.
  assert (HL : forall d, In d (List.map snd harvestingMethodToFlag) -> (fun s : string => s) d = d)
    by (intros; reflexivity).
  assert (H1 : HarvestMode_String HarvestAll = migration.Returns "all") by (vm_compute; reflexivity).
  assert (H2 : defined named_config !! ProvisionerHarvestModeKey = Some (VString "all"))
    by (vm_compute; reflexivity).
  split; [exact HL|]. split; [exact H1|]. split; [exact H2|].
  exact (harvest_mode_round_trip (fun s => s) HL HarvestAll "all" named_config H1 H2).
Defined.

Lemma Validate_accepts_only_complete_configs_witness :
  validate_sample named_config None = migration.Returns None /\
  (forall attr val, defined named_config !! attr = Some val ->
     isEmpty val <> migration.Panics /\
     (isEmpty val = migration.Returns true -> allowEmpty attr = true)) /\
  (exists name, defined named_config !! NameKey = Some (VString name) /\
                name <> EmptyString /\ (fun _ : string => true) name = true) /\
  (exists uuid, defined named_config !! UUIDKey = Some (VString uuid) /\
                uuid <> EmptyString /\ (fun _ : string => true) uuid = true) /\
  (forall v, defined named_config !! AgentVersionKey = Some (VString v) ->
     is_Some (parse_version v)) /\
  snd (resourceTags "juju-" named_config) = None.
Proof.
  assert (H : validate_sample named_config None = migration.Returns None)
    by (vm_compute; reflexivity).
  split; [exact H|].
  exact (Validate_accepts_only_complete_configs 0 parse_version (fun _ => true)
           (fun _ => None) (fun _ => None) (fun _ => true) "juju-" named_config None H).
Defined.

Lemma Validate_keeps_immutable_witness :
  validate_sample updated_config (Some named_config) = migration.Returns None /\
  (forall attr v, In attr immutableAttributes -> defined named_config !! attr = Some v ->
     defined updated_config !! attr = Some v \/
     (v = VNil /\ defined updated_config !! attr = None)) /\
  (forall n, AgentVersion 0 parse_version named_config = migration.Returns (n, true) ->
     exists n', AgentVersion 0 parse_version updated_config = migration.Returns (n', true)).
Proof.
  assert (H : validate_sample updated_config (Some named_config) = migration.Returns None)
    by (vm_compute; reflexivity).
  split; [exact H|].
  exact (Validate_keeps_immutable 0 parse_version (fun _ => true)
           (fun _ => None) (fun _ => None) (fun _ => true) "juju-" updated_config named_config H).
Defined.

Lemma Validate_then_accessors_witness :
  validate_sample named_config None = migration.Returns None /\
  (exists name, Name named_config = migration.Returns name) /\
  (exists uuid, UUID named_config = migration.Returns uuid /\ (fun _ : string => true) uuid = true) /\
  AgentVersion 0 parse_version named_config <> migration.Panics /\
  LogFwdSyslog named_config <> migration.Panics /\
  ResourceTags "juju-" named_config <> migration.Panics.
Proof.
  assert (H : validate_sample named_config None = migration.Returns None)
    by (vm_compute; reflexivity).
  split; [exact H|].
  exact (Validate_then_accessors 0 parse_version (fun _ => true)
           (fun _ => None) (fun _ => None) (fun _ => true) "juju-" named_config None H).
Defined.
End ConfigFacts.

(** ** Properties of the bootstrap helpers (environs/bootstrap) *)

Module BootstrapFacts.
Local Open Scope string_scope.

Section Tools.
Import bootstrap.
Context {Tools Number Cfg : Type}
        (Newest : list Tools -> Number * list Tools)
        (Number_eqb : Number -> Number -> bool)
        (Number_String : Number -> string)
        (CfgAgentVersion : Cfg -> migration.Outcome (Number * bool))
        (Apply : Cfg -> list (string * string) -> GoError + Cfg).

(** X18: SelectBootstrapTools fails without touching the environment when
    no tools are available. When it succeeds it returns the newest tools:
    either the agent version already matched and nothing was set, or the
    updated config was set once and accepted. A failure never returns
    tools. *)
Theorem SelectBootstrapTools_outcome (environ : ToolsEnviron Cfg) (toolsList : list Tools) :
  let result := SelectBootstrapTools Newest Number_eqb Number_String CfgAgentVersion Apply
                  environ toolsList in
  (toolsList = [] -> exists err, result = migration.Returns ((None, Some err), [])) /\
  (forall tools calls, result = migration.Returns ((Some tools, None), calls) ->
     toolsList <> [] /\ tools = snd (Newest toolsList) /\
     ((calls = [] /\
       exists v ok, CfgAgentVersion (ToolsEnvironConfig environ) = migration.Returns (v, ok) /\
                    Number_eqb v (fst (Newest toolsList)) = true) \/
      (exists cfg', Apply (ToolsEnvironConfig environ)
                      [("agent-version", Number_String (fst (Newest toolsList)))] = inr cfg' /\
                    SetConfig environ cfg' = None /\ calls = [cfg']))) /\
  (forall tools err calls, result = migration.Returns ((tools, Some err), calls) -> tools = None).
Proof.
  unfold SelectBootstrapTools.
  destruct toolsList as [|t ts]; simpl.
  - split; [intros _; eexists; reflexivity|].
    split; [intros tools calls H; discriminate|].
    intros tools err calls H. injection H as <-. reflexivity.
  - destruct (Newest (t :: ts)) as [newVersion tools'] eqn:EN; simpl.
    destruct (CfgAgentVersion (ToolsEnvironConfig environ)) as [[v ok]|] eqn:EV;
      [|split; [discriminate|split; intros; discriminate]].
    split; [discriminate|].
    destruct (Number_eqb v newVersion) eqn:Eq.
    + split; [|intros tools err calls H; discriminate].
      intros tools calls H. injection H as <- <-.
      split; [discriminate|]. split; [reflexivity|].
      left. split; [reflexivity|]. exists v, ok. split; [reflexivity|exact Eq].
    + destruct (Apply _ _) as [err|cfg'] eqn:EA.
      * split; [intros tools calls H; discriminate|].
        intros tools err' calls H. injection H as <-. reflexivity.
      * destruct (SetConfig environ cfg') as [err|] eqn:ES.
        -- split; [intros tools calls H; discriminate|].
           intros tools err' calls H. injection H as <-. reflexivity.
        -- split; [|intros tools err calls H; discriminate].
           intros tools calls H. injection H as <- <-.
           split; [discriminate|]. split; [reflexivity|].
           right. exists cfg'. auto.
Qed.
End Tools.

Section Machine.
Import bootstrap.
Context {Cons Job InstId HW Machine Tag Conf : Type}
        (CurrentSeries BootstrapNonce : string)
        (SetEnvironConstraints : Cons -> option GoError)
        (InjectMachine : AddMachineParams Cons Job InstId HW -> GoError + Machine)
        (MachineTag : Machine -> Tag)
        (ReadConf : string -> Tag -> GoError + Conf)
        (GenerateNewPassword : Conf -> GoError + string)
        (SetMongoPassword : Machine -> string -> option GoError)
        (SetPassword : Machine -> string -> option GoError).

(** X19: ConfigureBootstrapMachine first sets the environment constraints.
    The machine it injects carries the given constraints, series, nonce,
    instance id, characteristics and jobs. The mongo password it sets is a
    freshly generated one, and the machine password is set only after, earlier
    in the sequence of calls, the same mongo password was set successfully. It returns nil exactly when
    the machine password was set successfully. *)
Theorem ConfigureBootstrapMachine_order (cons : Cons) (datadir : string) (jobs : list Job)
    (instId : InstId) (characteristics : HW) :
  let '(err, calls) :=
    ConfigureBootstrapMachine CurrentSeries BootstrapNonce SetEnvironConstraints InjectMachine
      MachineTag ReadConf GenerateNewPassword SetMongoPassword SetPassword
      cons datadir jobs instId characteristics in
  head calls = Some (CallSetEnvironConstraints cons) /\
  (forall p, In (CallInjectMachine p) calls ->
     Constraints p = cons /\ Series p = CurrentSeries /\ Nonce p = BootstrapNonce /\
     InstanceId p = instId /\ HardwareCharacteristics p = characteristics /\ Jobs p = jobs) /\
  (forall m pw, In (CallSetMongoPassword m pw) calls ->
     exists conf, In (CallGenerateNewPassword conf) calls /\ GenerateNewPassword conf = inr pw) /\
  (forall m pw, In (CallSetPassword m pw) calls ->
     exists pre post : list StateCall, calls = app pre (CallSetPassword m pw :: post) /\
                      In (CallSetMongoPassword m pw) pre /\ SetMongoPassword m pw = None) /\
  (err = None <-> exists m pw, In (CallSetPassword m pw) calls /\ SetPassword m pw = None).
Proof.
  unfold ConfigureBootstrapMachine.
  destruct (SetEnvironConstraints cons) as [e|] eqn:E1.
  { simpl. split; [reflexivity|]. split; [intros p [H|[]]; discriminate|].
    split; [intros m pw [H|[]]; discriminate|].
    split; [intros m pw [H|[]]; discriminate|].
    split; [discriminate|intros (m & pw & [H|[]] & _); discriminate]. }
  destruct (InjectMachine _) as [e|m] eqn:E2.
  { simpl. split; [reflexivity|].
    split; [intros p [H|[H|[]]]; [discriminate|injection H as <-; simpl; tauto]|].
    split; [intros m pw [H|[H|[]]]; discriminate|].
    split; [intros m pw [H|[H|[]]]; discriminate|].
    split; [discriminate|intros (m & pw & [H|[H|[]]] & _); discriminate]. }
  destruct (ReadConf datadir (MachineTag m)) as [e|mconf] eqn:E3.
  { simpl. split; [reflexivity|].
    split; [intros p [H|[H|[H|[]]]]; try discriminate; injection H as <-; simpl; tauto|].
    split; [intros m' pw [H|[H|[H|[]]]]; discriminate|].
    split; [intros m' pw [H|[H|[H|[]]]]; discriminate|].
    split; [discriminate|intros (m' & pw & [H|[H|[H|[]]]] & _); discriminate]. }
  destruct (GenerateNewPassword mconf) as [e|pw] eqn:E4.
  { simpl. split; [reflexivity|].
    split; [intros p [H|[H|[H|[H|[]]]]]; try discriminate; injection H as <-; simpl; tauto|].
    split; [intros m' pw [H|[H|[H|[H|[]]]]]; discriminate|].
    split; [intros m' pw [H|[H|[H|[H|[]]]]]; discriminate|].
    split; [discriminate|intros (m' & pw & [H|[H|[H|[H|[]]]]] & _); discriminate]. }
  destruct (SetMongoPassword m pw) as [e|] eqn:E5.
  { simpl. split; [reflexivity|].
    split; [intros p [H|[H|[H|[H|[H|[]]]]]]; try discriminate; injection H as <-; simpl; tauto|].
    split; [intros m' pw' [H|[H|[H|[H|[H|[]]]]]]; try discriminate;
            injection H as <- <-; exists mconf; simpl; auto 10|].
    split; [intros m' pw' [H|[H|[H|[H|[H|[]]]]]]; discriminate|].
    split; [discriminate|intros (m' & pw' & [H|[H|[H|[H|[H|[]]]]]] & _); discriminate]. }
  simpl. split; [reflexivity|].
  split; [intros p [H|[H|[H|[H|[H|[H|[]]]]]]]; try discriminate; injection H as <-; simpl; tauto|].
  split; [intros m' pw' [H|[H|[H|[H|[H|[H|[]]]]]]]; try discriminate;
          injection H as <- <-; exists mconf; simpl; auto 10|].
  split; [intros m' pw' [H|[H|[H|[H|[H|[H|[]]]]]]]; try discriminate;
          injection H as <- <-; eexists [_; _; _; _; _], [];
          split; [reflexivity | split; [simpl; auto 10 | exact E5]]|].
  split.
  - intros HS. exists m, pw. simpl. auto 10.
  - intros (m' & pw' & [H|[H|[H|[H|[H|[H|[]]]]]]] & HS); try discriminate.
    injection H as <- <-. exact HS.
Qed.
End Machine.

End BootstrapFacts.

(** ** [AllMachines] of the migration precheck shim *)

Module MigrationFacts.
(** X20: AllMachines returns no machines and the traced error when the
    state fails, and otherwise each machine wrapped in order with no
    error. *)
Theorem AllMachines_result {Machine PrecheckMachine : Type}
    (asPrecheck : Machine -> PrecheckMachine) (machines : list Machine) (err : option GoError) :
  migration.AllMachines asPrecheck (machines, err) =
    match err with
    | Some e => (None, Some (ErrTrace e))
    | None => (Some (List.map asPrecheck machines), None)
    end.
Proof.
  unfold migration.AllMachines. destruct err as [e|]; [reflexivity|].
  do 2 f_equal.
  assert (G : forall acc, fold_left (fun out machine => app out [asPrecheck machine]) machines acc =
                          app acc (List.map asPrecheck machines)).
  { induction machines as [|x xs IH]; intros acc; simpl; [symmetry; apply app_nil_r|].
    rewrite IH, <- app_assoc. reflexivity. }
  apply G.
Qed.
End MigrationFacts.

(** ** The filesystem table of cmd/juju/storage *)

Module StorageFacts.
Import storage StorageScenarios.
Local Open Scope string_scope.

Lemma filesystemRows_length (filesystemId : string) (info : FilesystemInfo) :
  length (filesystemRows filesystemId info) =
  match Attachments info with None => 1 | Some a => length (Machines a) end.
Proof.
  unfold filesystemRows. destruct (Attachments info); [apply length_map|reflexivity].
Qed.

(** X21: When the sort is a permutation, formatFilesystemListTabularTyped
    writes a header line plus one line per machine attachment of each
    filesystem, and one line for a filesystem with no attachments. *)
Theorem formatFilesystemListTabularTyped_line_count (IBytes : N -> string)
    (sortRows : list filesystemAttachmentInfo -> list filesystemAttachmentInfo)
    (Hsort : forall l, Permutation (sortRows l) l)
    (infos : list (string * FilesystemInfo)) :
  length (formatFilesystemListTabularTyped IBytes sortRows infos) =
  S (sum_list_with (fun '(_, info) =>
       match Attachments info with None => 1 | Some a => length (Machines a) end) infos).
Proof.
  unfold formatFilesystemListTabularTyped. cbn [length]. f_equal.
  rewrite length_map, (Permutation_length (Hsort _)).
  unfold collectRows. induction infos as [|[id info] infos IH]; [reflexivity|].
  cbn [flat_map sum_list_with]. rewrite length_app, IH, filesystemRows_length. reflexivity.
Qed.

Lemma filesystemRows_spec (filesystemId : string) (info : FilesystemInfo) r :
  In r (filesystemRows filesystemId info) ->
  FilesystemId r = filesystemId /\ attachment_FilesystemInfo r = info /\
  match Attachments info with
  | None => MachineId r = EmptyString /\ UnitId r = EmptyString
  | Some a =>
      In (MachineId r, attachment_MachineFilesystemAttachment r) (Machines a) /\
      ((In (UnitId r, attachment_UnitStorageAttachment r) (Units a) /\
        UnitMachineId (attachment_UnitStorageAttachment r) = MachineId r) \/
       (UnitId r = EmptyString /\
        attachment_UnitStorageAttachment r = zeroUnitStorageAttachment /\
        forall unitId unitInfo, In (unitId, unitInfo) (Units a) ->
          UnitMachineId unitInfo <> MachineId r))
  end.
Proof.
  unfold filesystemRows. destruct (Attachments info) as [a|].
  - intros Hin. apply in_map_iff in Hin as [[machineId machineInfo] [<- Hm]].
    destruct (List.find _ (Units a)) as [[unitId unitInfo]|] eqn:Ef.
    + apply find_some in Ef as [Hu Heq]. apply String.eqb_eq in Heq.
      simpl. split; [reflexivity|]. split; [reflexivity|]. split; [exact Hm|].
      left. auto.
    + simpl. split; [reflexivity|]. split; [reflexivity|]. split; [exact Hm|].
      right. split; [reflexivity|]. split; [reflexivity|].
      intros unitId unitInfo Hu Heq.
      pose proof (find_none _ _ Ef (unitId, unitInfo) Hu) as Hn. simpl in Hn.
      rewrite Heq, String.eqb_refl in Hn. discriminate.
  - intros [<-|[]]. simpl. auto.
Qed.

(** X22: Every row of the filesystem table belongs to a listed filesystem.
    With no attachments its machine and unit are empty. Otherwise it names
    one of the filesystem's machine attachments with either a unit
    attached on that machine or an empty unit when no unit is on that
    machine. *)
Theorem collectRows_sorted_consistent
    (sortRows : list filesystemAttachmentInfo -> list filesystemAttachmentInfo)
    (Hsort : forall l, Permutation (sortRows l) l)
    (infos : list (string * FilesystemInfo)) :
  forall r, In r (sortRows (collectRows infos)) ->
  In (FilesystemId r, attachment_FilesystemInfo r) infos /\
  match Attachments (attachment_FilesystemInfo r) with
  | None => MachineId r = EmptyString /\ UnitId r = EmptyString
  | Some a =>
      In (MachineId r, attachment_MachineFilesystemAttachment r) (Machines a) /\
      ((In (UnitId r, attachment_UnitStorageAttachment r) (Units a) /\
        UnitMachineId (attachment_UnitStorageAttachment r) = MachineId r) \/
       (UnitId r = EmptyString /\
        attachment_UnitStorageAttachment r = zeroUnitStorageAttachment /\
        forall unitId unitInfo, In (unitId, unitInfo) (Units a) ->
          UnitMachineId unitInfo <> MachineId r))
  end.
Proof.
  intros r Hin. apply (Permutation_in _ (Hsort _)) in Hin.
  unfold collectRows in Hin. apply in_flat_map in Hin as [[id info] [Hi Hr]].
  apply filesystemRows_spec in Hr as (-> & -> & H). auto.
Qed.

(** X23: The SIZE column is empty for size 0 and otherwise shows the size
    in MiB times 2^20 computed in uint64, that is the size modulo 2^44
    times 2^20, which wraps for sizes of 2^44 MiB and more. *)
Theorem sizeColumn_wraps (IBytes : N -> string) (size : N) :
  sizeColumn IBytes size =
    if (size =? 0)%N then EmptyString else IBytes ((size mod 2 ^ 44) * MiByte)%N.
Proof.
  unfold sizeColumn. destruct (N.eqb_spec size 0) as [->|Hn]; [reflexivity|].
  replace (0 <? size)%N with true by (symmetry; apply N.ltb_lt; lia).
  f_equal. unfold MiByte.
  replace (2 ^ 64)%N with (2 ^ 44 * 1048576)%N by reflexivity.
  apply N.Div0.mul_mod_distr_r.
Qed.

(** *** Witnesses *)

Lemma formatFilesystemListTabularTyped_line_count_witness :
  (forall l : list filesystemAttachmentInfo, Permutation ((fun l => l) l) l) /\
  length (formatFilesystemListTabularTyped (fun _ => "1.0GiB") (fun l => l) filesystem_infos) = 4.
Proof.
  assert (Hs : forall l : list filesystemAttachmentInfo, Permutation ((fun l => l) l) l)
    by (intros l; reflexivity).
  split; [exact Hs|].
  rewrite (formatFilesystemListTabularTyped_line_count (fun _ => "1.0GiB") (fun l => l) Hs).
  reflexivity.
Defined.

Lemma collectRows_sorted_consistent_witness :
  (forall l : list filesystemAttachmentInfo, Permutation ((fun l => l) l) l) /\
  In unit_row ((fun l => l) (collectRows filesystem_infos)) /\
  In (FilesystemId unit_row, attachment_FilesystemInfo unit_row) filesystem_infos /\
  match Attachments (attachment_FilesystemInfo unit_row) with
  | None => MachineId unit_row = EmptyString /\ UnitId unit_row = EmptyString
  | Some a =>
      In (MachineId unit_row, attachment_MachineFilesystemAttachment unit_row) (Machines a) /\
      ((In (UnitId unit_row, attachment_UnitStorageAttachment unit_row) (Units a) /\
        UnitMachineId (attachment_UnitStorageAttachment unit_row) = MachineId unit_row) \/
       (UnitId unit_row = EmptyString /\
        attachment_UnitStorageAttachment unit_row = zeroUnitStorageAttachment /\
        forall unitId unitInfo, In (unitId, unitInfo) (Units a) ->
          UnitMachineId unitInfo <> MachineId unit_row))
  end.
Proof.
  assert (Hs : forall l : list filesystemAttachmentInfo, Permutation ((fun l => l) l) l)
    by (intros l; reflexivity).
  assert (Hin : In unit_row ((fun l => l) (collectRows filesystem_infos)))
    by (vm_compute; left; reflexivity).
  split; [exact Hs|]. split; [exact Hin|].
  exact (collectRows_sorted_consistent (fun l => l) Hs filesystem_infos unit_row Hin).
Defined.
End StorageFacts.
